(** * Shallow embedding of the PCI configuration accessor, the AIO ring
    and the virtio-net receive path.

    The C sources modelled here are
    - [platform/pc/pci.c]      : [pci_cfgenable], [pci_cfgread], [pci_cfgwrite];
    - [src/unix/aio.c]         : [io_setup], [aio_complete], [aio_avail_events],
                                 [iocb_enqueue], [io_submit], [io_getevents_bh],
                                 [io_getevents], [io_destroy];
    - [src/virtio/virtio_net.c]: [vnet_csum], the receive completion [input]
                                 and the queue layout of [virtio_net_attach].

    Machine integers are values of [Z]; every place where the C code
    computes in a fixed width has its wrap-around written out. *)

From Stdlib Require Import ZArith List Lia Bool.
From Stdlib.Strings Require Import Byte.
From stdpp Require Import base option list gmap.

Local Open Scope Z_scope.

(** ** Fixed-width arithmetic *)

(** Value of a [w]-bit unsigned object holding [x]. *)
Definition wrap (w : Z) (x : Z) : Z := x mod 2 ^ w.

Definition wrap16 : Z -> Z := wrap 16.
Definition wrap32 : Z -> Z := wrap 32.
Definition wrap64 : Z -> Z := wrap 64.

(** Conversion of a 32-bit pattern to [int] (two's complement). *)
Definition to_int32 (x : Z) : Z :=
  let y := wrap32 x in
  if y <? 2 ^ 31 then y else y - 2 ^ 32.

(** [pad(x, a)]: round [x] up to a multiple of [a]. *)
Definition pad (x a : Z) : Z := ((x + a - 1) / a) * a.

(** ** PCI configuration mechanism #1 ([platform/pc/pci.c]) *)

Module Pci.

Definition CONF1_ADDR_PORT : Z := 0x0cf8.
Definition CONF1_DATA_PORT : Z := 0x0cfc.

(** Modelled from the spec: the limits of [pci.h], which [pci.c] only
    includes. A PCI address has a bus of at most 255, a slot of at most
    31 and a function of at most 7; a register is at most 255. *)
Definition PCI_BUSMAX  : Z := 255.
Definition PCI_SLOTMAX : Z := 31.
Definition PCI_FUNCMAX : Z := 7.
Definition PCI_REGMAX  : Z := 255.

(** Modelled from the spec: [struct pci_dev] of [pci.h], of which
    [pci_cfgenable] reads the address triple. *)
Record pci_dev : Type := mk_pci_dev {
  bus : Z;
  slot : Z;
  function : Z
}.

(** Port transactions, in program order. *)
Inductive pio : Type :=
| Out8  (port value : Z)
| Out16 (port value : Z)
| Out32 (port value : Z)
| In8   (port : Z)
| In16  (port : Z)
| In32  (port : Z).

(** The guard of [pci_cfgenable], conjunct by conjunct. *)
Definition cfg_guard (dev : pci_dev) (reg bytes : Z) : bool :=
  (bus dev <=? PCI_BUSMAX) && (slot dev <=? PCI_SLOTMAX)
  && (function dev <=? PCI_FUNCMAX)
  && (wrap32 reg <=? PCI_REGMAX) && negb (bytes =? 3)
  && (wrap32 bytes <=? 4) && (Z.land reg (bytes - 1) =? 0).

(** The word written to the address port. *)
Definition cfg_address (dev : pci_dev) (reg : Z) : Z :=
  Z.lor (Z.lor (Z.lor (Z.lor (Z.shiftl 1 31) (Z.shiftl (bus dev) 16))
                             (Z.shiftl (slot dev) 11))
               (Z.shiftl (function dev) 8))
        (Z.land reg (Z.lnot 0x03)).

(** [pci_cfgenable]: the data port (0 when the access is refused) and the
    port writes performed. *)
Definition pci_cfgenable (dev : pci_dev) (reg bytes : Z) : Z * list pio :=
  if cfg_guard dev reg bytes
  then (CONF1_DATA_PORT + Z.land reg 0x03,
        [Out32 CONF1_ADDR_PORT (cfg_address dev reg)])
  else (0, []).

(** [pci_cfgread]; [inp port width] is what the bus answers. *)
Definition pci_cfgread (inp : Z -> Z -> Z) (dev : pci_dev) (reg bytes : Z)
  : Z * list pio :=
  let '(port, tr) := pci_cfgenable dev reg bytes in
  let data := wrap32 (-1) in
  if port =? 0 then (data, tr)
  else if bytes =? 1 then (inp port 1, tr ++ [In8 port])
  else if bytes =? 2 then (inp port 2, tr ++ [In16 port])
  else if bytes =? 4 then (inp port 4, tr ++ [In32 port])
  else (data, tr).

(** [pci_cfgwrite]. *)
Definition pci_cfgwrite (dev : pci_dev) (reg bytes source : Z) : list pio :=
  let '(port, tr) := pci_cfgenable dev reg bytes in
  if port =? 0 then tr
  else if bytes =? 1 then tr ++ [Out8 port (wrap 8 source)]
  else if bytes =? 2 then tr ++ [Out16 port (wrap16 source)]
  else if bytes =? 4 then tr ++ [Out32 port (wrap32 source)]
  else tr.

End Pci.

(** ** The asynchronous I/O ring ([src/unix/aio.c]) *)

Module Aio.

Definition AIO_RING_MAGIC : Z := 0xa10a10a1.

(** Modelled from the spec: the error kinds, opcodes and flag of the
    system-call interface, declared in headers [aio.c] only includes; the
    numbers are those of the Linux ABI the interface follows, and pages
    are 4 KiB. *)
Definition EINTR : Z := 4.
Definition EBADF : Z := 9.
Definition EAGAIN : Z := 11.
Definition ENOMEM : Z := 12.
Definition EFAULT : Z := 14.
Definition EINVAL : Z := 22.
Definition ERESTARTSYS : Z := 512.
Definition PAGESIZE : Z := 4096.
Definition IOCB_CMD_PREAD : Z := 0.
Definition IOCB_CMD_PWRITE : Z := 1.
Definition IOCB_FLAG_RESFD : Z := 1.
Definition AIO_KNOWN_FLAGS : Z := IOCB_FLAG_RESFD.

(** Modelled from the spec: [struct io_event], four 64-bit fields, 32
    bytes. *)
Record io_event : Type := mk_io_event {
  data : Z;
  obj : Z;
  res : Z;
  res2 : Z
}.

Definition sizeof_io_event : Z := 32.

(** [struct aio_ring]: eight [unsigned int] header fields followed by the
    event slots that fit in the mapping. The ring lives in memory the
    process can write, so no field is trusted to be in range. *)
Record aio_ring : Type := mk_aio_ring {
  ring_id : Z;
  ring_nr : Z;
  ring_head : Z;
  ring_tail : Z;
  ring_magic : Z;
  ring_compat_features : Z;
  ring_incompat_features : Z;
  ring_header_length : Z;
  ring_events : list io_event
}.

Definition sizeof_aio_ring : Z := 32.

(** [struct aio], without the heaps and the lock. [bq] is the block queue
    of the waiting thread ([None] for the null pointer). *)
Record aio : Type := mk_aio {
  ring : aio_ring;
  bq : option Z;
  aio_nr : Z;
  ongoing_ops : Z;
  copied_evts : Z;
  refcount : Z
}.

Definition set_ring (r : aio_ring) (a : aio) : aio :=
  mk_aio r (bq a) (aio_nr a) (ongoing_ops a) (copied_evts a) (refcount a).
Definition set_bq (b : option Z) (a : aio) : aio :=
  mk_aio (ring a) b (aio_nr a) (ongoing_ops a) (copied_evts a) (refcount a).
Definition set_ongoing_ops (n : Z) (a : aio) : aio :=
  mk_aio (ring a) (bq a) (aio_nr a) n (copied_evts a) (refcount a).
Definition set_copied_evts (n : Z) (a : aio) : aio :=
  mk_aio (ring a) (bq a) (aio_nr a) (ongoing_ops a) n (refcount a).
Definition set_refcount (n : Z) (a : aio) : aio :=
  mk_aio (ring a) (bq a) (aio_nr a) (ongoing_ops a) (copied_evts a) n.

Definition set_head_tail (h t : Z) (r : aio_ring) : aio_ring :=
  mk_aio_ring (ring_id r) (ring_nr r) h t (ring_magic r)
    (ring_compat_features r) (ring_incompat_features r)
    (ring_header_length r) (ring_events r).
Definition set_tail_events (t : Z) (evs : list io_event) (r : aio_ring)
  : aio_ring :=
  mk_aio_ring (ring_id r) (ring_nr r) (ring_head r) t (ring_magic r)
    (ring_compat_features r) (ring_incompat_features r)
    (ring_header_length r) evs.

(** [refcount_reserve] and [refcount_release] on [aio->refcount]. The
    release that reaches zero runs [aio_free], which unmaps the ring; the
    counter alone is kept here. *)
Definition refcount_reserve (a : aio) : aio := set_refcount (refcount a + 1) a.
Definition refcount_release (a : aio) : aio := set_refcount (refcount a - 1) a.

(** The process' table [p->aio], indexed by context id. A [struct aio *]
    is the key of its entry, the null pointer is [None]. *)
Record process : Type := mk_process {
  p_aio : gmap Z aio
}.

(** Outcome of a system call over state [S]: a return value, a thread
    handed to its block queue, a kernel access through a null pointer, or
    a failed [assert]. *)
Inductive sysres (S : Type) : Type :=
| Ret (rv : Z) (s : S)
| Wait (s : S)
| NullDeref
| Halt.
Arguments Ret {S} rv s.
Arguments Wait {S} s.
Arguments NullDeref {S}.
Arguments Halt {S}.

(** *** [aio_alloc] and [io_setup] *)

(** What the allocators and the mapper answer during [io_setup]. The
    content of a fresh mapping is whatever the physical pages hold. *)
Record setup_env : Type := mk_setup_env {
  ctx_idp_writable : bool;
  alloc_phys : Z -> bool;
  map_phys : Z -> option aio_ring;
  alloc_aio : bool;
  raw_copied_evts : Z;
  alloc_id : option Z;
  vector_set_ok : bool
}.

(** [aio_alloc]: the id under which the new context is recorded, or the
    null pointer. *)
Definition aio_alloc (env : setup_env) : option Z :=
  if alloc_aio env then
    match alloc_id env with
    | Some aio_id => if vector_set_ok env then Some aio_id else None
    | None => None
    end
  else None.

(** Size of the mapping for [nr] slots (computed in 64 bits). *)
Definition ring_alloc_size (nr : Z) : Z :=
  pad (sizeof_aio_ring + nr * sizeof_io_event) PAGESIZE.

(** [io_setup]. On success the state carries the key of the new context,
    which stands for the ring pointer stored through [ctx_idp]. *)
Definition io_setup (env : setup_env) (p : process) (nr_events : Z)
  : sysres (process * option Z) :=
  if negb (ctx_idp_writable env) then Ret (- EFAULT) (p, None)
  else if nr_events =? 0 then Ret (- EINVAL) (p, None)
  else
    let nr_events := wrap32 (nr_events + 1) in
    let alloc_size := ring_alloc_size nr_events in
    if negb (alloc_phys env alloc_size) then Ret (- ENOMEM) (p, None)
    else
      match map_phys env alloc_size with
      | None => Ret (- ENOMEM) (p, None)
      | Some ctx =>
          match aio_alloc env with
          | None => Halt
          | Some aio_id =>
              let ctx :=
                mk_aio_ring (wrap32 aio_id) nr_events 0 0 AIO_RING_MAGIC 1 0
                  sizeof_aio_ring (ring_events ctx) in
              let a := mk_aio ctx None nr_events 0 (raw_copied_evts env) 1 in
              Ret 0 (mk_process (<[aio_id := a]> (p_aio p)), Some aio_id)
          end
      end.

(** *** [aio_complete] *)

(** The slot assignment of [aio_complete]: three of the four fields. *)
Definition fill_event (d o rv : Z) (e : io_event) : io_event :=
  mk_io_event d o rv (res2 e).

(** [aio_complete], the part that works on the context: the section under
    the context lock and the final [refcount_release]. The event-fd write
    and the wake-up act on other objects. The slot index is below
    [max aio_nr 1], hence inside the mapping. *)
Definition aio_complete (a : aio) (d o rv : Z) : aio :=
  let r := ring a in
  let ongoing := wrap32 (ongoing_ops a - 1) in
  let tail := ring_tail r in
  let tail := if aio_nr a <=? tail then 0 else tail in
  let evs := alter (fill_event d o rv) (Z.to_nat tail) (ring_events r) in
  let tail' := wrap32 (tail + 1) in
  let tail' := if tail' =? aio_nr a then 0 else tail' in
  refcount_release
    (set_ongoing_ops ongoing (set_ring (set_tail_events tail' evs r) a)).

(** *** Admission *)

(** [aio_avail_events]: the difference is taken in [unsigned], stored in
    an [int], corrected by [nr] when not positive, and returned as
    [unsigned]. *)
Definition aio_avail_events (a : aio) : Z :=
  let avail := to_int32 (ring_head (ring a) - ring_tail (ring a)) in
  let avail := if avail <=? 0 then to_int32 (avail + aio_nr a) else avail in
  wrap32 avail.

(** The locked section of [iocb_enqueue]: [None] is the [-EAGAIN] exit. *)
Definition aio_take_slot (a : aio) : option aio :=
  if wrap32 (aio_avail_events a - 1) <=? ongoing_ops a then None
  else Some (set_ongoing_ops (wrap32 (ongoing_ops a + 1)) a).

(** *** [iocb_enqueue] *)

(** Modelled from the spec: [struct iocb], the fields [iocb_enqueue]
    reads. *)
Record iocb : Type := mk_iocb {
  aio_data : Z;
  aio_reserved1 : Z;
  aio_lio_opcode : Z;
  aio_fildes : Z;
  aio_buf : Z;
  aio_nbytes : Z;
  aio_offset : Z;
  aio_reserved2 : Z;
  aio_flags : Z;
  aio_resfd : Z
}.

(** Modelled from the spec: a file descriptor as [iocb_enqueue] looks at
    it, with its read and write callables and its access mode. *)
Record fdesc : Type := mk_fdesc {
  fd_read : bool;
  fd_write : bool;
  fd_readable : bool;
  fd_writable : bool
}.

(** One submitted request: the user address of the control block, its
    content, and how the rest of the kernel behaves while it is enqueued:
    [req_valid] is the first memory check, [req_fdesc] the answer of
    [fdesc_get], [req_fault] a fault while the block is read again,
    [req_pc] and [req_closure] the two allocations, and [req_sync] the
    result when the descriptor completes the transfer before [apply]
    returns. *)
Record request : Type := mk_request {
  req_ptr : Z;
  req_iocb : iocb;
  req_valid : bool;
  req_fdesc : option fdesc;
  req_fault : bool;
  req_pc : bool;
  req_closure : bool;
  req_sync : option Z
}.

(** The [error:] label, after the context reference was taken. *)
Definition enqueue_error (rv : Z) (a : aio) : Z * aio :=
  (rv, refcount_release (set_ongoing_ops (wrap32 (ongoing_ops a - 1)) a)).

(** [apply(f->read / f->write, ..., completion)]. *)
Definition dispatch (q : request) (a : aio) : Z * aio :=
  match req_sync q with
  | Some rv => (0, aio_complete a (aio_data (req_iocb q)) (req_ptr q) rv)
  | None => (0, a)
  end.

(** The sanity test on the control block: a reserved field set, a null
    buffer, or a flag other than [IOCB_FLAG_RESFD]. *)
Definition iocb_malformed (cb : iocb) : bool :=
  negb (aio_reserved1 cb =? 0) || negb (aio_reserved2 cb =? 0)
  || (aio_buf cb =? 0)
  || negb (Z.land (aio_flags cb) (Z.lnot AIO_KNOWN_FLAGS) =? 0).

Definition iocb_enqueue (a : aio) (q : request) : Z * aio :=
  let cb := req_iocb q in
  if negb (req_valid q) then (- EFAULT, a)
  else if iocb_malformed cb then (- EINVAL, a)
  else
    match req_fdesc q with
    | None => (- EBADF, a)
    | Some f =>
        match aio_take_slot a with
        | None => (- EAGAIN, a)
        | Some a =>
            let a := refcount_reserve a in
            if req_fault q then enqueue_error (- EFAULT) a
            else if negb (req_pc q) then enqueue_error (- ENOMEM) a
            else if negb (req_closure q) then enqueue_error (- ENOMEM) a
            else if aio_lio_opcode cb =? IOCB_CMD_PREAD then
              if negb (fd_read f) then enqueue_error (- EINVAL) a
              else if negb (fd_readable f) then enqueue_error (- EBADF) a
              else dispatch q a
            else if aio_lio_opcode cb =? IOCB_CMD_PWRITE then
              if negb (fd_write f) then enqueue_error (- EINVAL) a
              else if negb (fd_writable f) then enqueue_error (- EBADF) a
              else dispatch q a
            else enqueue_error (- EINVAL) a
        end
    end.

(** *** [aio_from_ring_id], [io_submit] *)

(** [ptr != 0]. *)
Definition non_null {A : Type} (ptr : option A) : bool :=
  match ptr with Some _ => true | None => false end.

(** A kernel access through a pointer: the value, or a fault when the
    pointer is null. *)
Inductive access (A : Type) : Type :=
| Ok (a : A)
| NullAccess.
Arguments Ok {A} a.
Arguments NullAccess {A}.

(** [aio_from_ring_id]: [vector_get] yields the entry or the null pointer,
    and [refcount_reserve] is applied to [&aio->refcount] as it comes. *)
Definition aio_from_ring_id (p : process) (id : Z)
  : access (process * option Z) :=
  match p_aio p !! id with
  | Some a => Ok (mk_process (<[id := refcount_reserve a]> (p_aio p)), Some id)
  | None => NullAccess
  end.

(** The loop of [io_submit] with [n] iterations left; [iocbpp] is the
    user array, a slot that cannot be read faults. [io_ops] is an [int]. *)
Fixpoint submit_loop (n : nat) (iocbpp : list request) (io_ops : Z) (a : aio)
  : Z * aio :=
  match n with
  | O => (io_ops, a)
  | S n' =>
      let '(rv, a') :=
        match iocbpp !! Z.to_nat io_ops with
        | Some q => iocb_enqueue a q
        | None => (- EFAULT, a)
        end in
      if rv =? 0 then submit_loop n' iocbpp (to_int32 (io_ops + 1)) a'
      else (if io_ops =? 0 then to_int32 rv else io_ops, a')
  end.

Definition io_submit (mem_ok : bool) (p : process) (ctx_id : Z) (nr : Z)
    (iocbpp : list request) : sysres process :=
  if negb mem_ok then Ret (- EFAULT) p
  else
    match aio_from_ring_id p ctx_id with
    | NullAccess => NullDeref
    | Ok (p1, None) => Ret (- EINVAL) p1
    | Ok (p1, Some key) =>
        match p_aio p1 !! key with
        | None => NullDeref
        | Some a =>
            let '(io_ops, a') := submit_loop (Z.to_nat nr) iocbpp 0 a in
            Ret io_ops (mk_process (<[key := refcount_release a']> (p_aio p1)))
        end
    end.

(** *** [io_getevents_bh], [io_getevents] *)

Definition set_events (evs : list io_event) (r : aio_ring) : aio_ring :=
  mk_aio_ring (ring_id r) (ring_nr r) (ring_head r) (ring_tail r)
    (ring_magic r) (ring_compat_features r) (ring_incompat_features r)
    (ring_header_length r) evs.

(** The user pointer [events] of [io_getevents]. The ring is mapped
    writable into the process, so the pointer may name the ring itself
    as well as any other memory of the process: it is null (the drain of
    [io_destroy]), an array apart from the ring mapping, or
    [&ring->events[base]], a place at a whole number of events from the
    event area; [base = -1] is the ring header, which has the size of one
    event. A pointer into the ring mapping that is not at a multiple of
    32 bytes from its start has no counterpart here. *)
Inductive events_ptr : Type :=
| NullEvents
| Apart (out : list io_event)
| InRing (base : Z).

(** [events != 0]. *)
Definition events_non_null (dst : events_ptr) : bool :=
  match dst with NullEvents => false | _ => true end.

(** A store of one [struct io_event] at [&ring->events[i]]: slot [i] of
    the event area; for [i = -1] the eight 32-bit fields of the header,
    two for each 64-bit field of the event, low half first (x86 is
    little-endian); elsewhere memory outside the ring. *)
Definition ring_store (i : Z) (e : io_event) (r : aio_ring) : aio_ring :=
  if i =? -1 then
    mk_aio_ring (wrap32 (data e)) (wrap32 (Z.shiftr (data e) 32))
      (wrap32 (obj e)) (wrap32 (Z.shiftr (obj e) 32))
      (wrap32 (res e)) (wrap32 (Z.shiftr (res e) 32))
      (wrap32 (res2 e)) (wrap32 (Z.shiftr (res2 e) 32))
      (ring_events r)
  else if 0 <=? i then set_events (<[Z.to_nat i := e]> (ring_events r)) r
  else r.

(** [runtime_memcpy(&events[k], &ring->events[head],
    sizeof(struct io_event))] for a non-null [events]: the whole event,
    [res2] included, goes to the caller's array, which may be the ring. *)
Definition copy_event (head k : Z) (r : aio_ring) (dst : events_ptr)
  : aio_ring * events_ptr :=
  match dst, ring_events r !! Z.to_nat head with
  | Apart o, Some e => (r, Apart (<[Z.to_nat k := e]> o))
  | InRing base, Some e => (ring_store (base + k) e r, dst)
  | _, _ => (r, dst)
  end.

(** The copy loop of [io_getevents_bh] with [n] iterations left, on the
    ring [r] as user memory holds it and the user pointer [dst];
    [ufault k] tells whether the store to [events[k]] faults. The result
    is the new [head], the new [copied_evts], the ring, the caller's
    array, and whether a fault stopped the loop. *)
Fixpoint harvest (n : nat) (a_nr bound_nr : Z) (ufault : Z -> bool)
    (tail head copied : Z) (r : aio_ring) (dst : events_ptr)
  : Z * Z * aio_ring * events_ptr * bool :=
  match n with
  | O => (head, copied, r, dst, false)
  | S n' =>
      if head =? tail then (head, copied, r, dst, false)
      else if events_non_null dst && ufault copied
      then (head, copied, r, dst, true)
      else
        let '(r', dst') := copy_event head copied r dst in
        let head' := wrap32 (head + 1) in
        let head' := if head' =? a_nr then 0 else head' in
        let copied' := wrap32 (copied + 1) in
        if copied' =? bound_nr then (head', copied', r', dst', false)
        else harvest n' a_nr bound_nr ufault tail head' copied' r' dst'
  end.

Record bh_flags : Type := mk_bh_flags {
  BLOCKQ_ACTION_BLOCKED : bool;
  BLOCKQ_ACTION_NULLIFY : bool;
  BLOCKQ_ACTION_TIMEDOUT : bool
}.

(** Result of the block-queue action: finished with a value for the
    completion, or the thread has to block. *)
Inductive bh_result : Type :=
| BhDone (rv : Z) (a : aio) (dst : events_ptr)
| BhBlock (a : aio) (dst : events_ptr).

(** [io_getevents_bh]; [timeout = None] is [infinity]. *)
Definition io_getevents_bh (a : aio) (min_nr nr : Z) (dst : events_ptr)
    (ufault : Z -> bool) (timeout : option Z) (flags : bh_flags)
  : bh_result :=
  let finish rv a dst := BhDone rv (refcount_release (set_bq None a)) dst in
  if BLOCKQ_ACTION_NULLIFY flags then
    finish (match timeout with None => - ERESTARTSYS | Some _ => - EINTR end)
           a dst
  else
    let r := ring a in
    let head := if aio_nr a <=? ring_head r then 0 else ring_head r in
    let tail := if aio_nr a <=? ring_tail r then 0 else ring_tail r in
    let '(head', copied, r', dst', faulted) :=
      harvest (Z.to_nat (aio_nr a)) (aio_nr a) nr ufault tail head
        (copied_evts a) r dst in
    if faulted then finish (- EFAULT) (set_copied_evts copied (set_ring r' a)) dst'
    else
      let a := set_copied_evts copied (set_ring (set_head_tail head' tail r') a) in
      if (copied <? min_nr) && negb (match timeout with Some 0 => true | _ => false end)
         && negb (BLOCKQ_ACTION_TIMEDOUT flags)
      then BhBlock a dst'
      else finish copied a dst'.

(** [io_getevents] up to the hand-over to the block queue ([Wait]), which
    then runs [io_getevents_bh]. [mem_ok] is the outcome of the memory
    checks, [thread_bq] the caller's block queue. *)
Definition io_getevents (mem_ok : bool) (thread_bq : Z) (p : process)
    (ctx_id : Z) (min_nr nr : Z) : sysres process :=
  if negb mem_ok then Ret (- EFAULT) p
  else
    match aio_from_ring_id p ctx_id with
    | NullAccess => NullDeref
    | Ok (p1, aio) =>
        if (nr <=? 0) || (nr <? min_nr) || negb (non_null aio)
        then Ret (- EINVAL) p1
        else
          match aio with
          | None => NullDeref
          | Some key =>
              match p_aio p1 !! key with
              | None => NullDeref
              | Some a =>
                  let a := set_bq (Some thread_bq) (set_copied_evts 0 a) in
                  Wait (mk_process (<[key := a]> (p_aio p1)))
              end
          end
    end.

(** *** [io_destroy] *)

(** What the rest of the kernel answers during [io_destroy]: whether
    [vector_set] clears the entry of the table, and whether the closure
    for [io_destroy_complete] can be allocated. *)
Record destroy_env : Type := mk_destroy_env {
  vector_clear_ok : bool;
  destroy_closure : bool
}.

(** [io_destroy_internal] together with [io_destroy_complete]: the
    completion is allocated first and asserted ([None] is the failed
    [assert]); then, with nothing in flight, the table's reference is
    dropped, otherwise the caller starts a drain and parks ([true]). *)
Definition io_destroy_internal (closure_ok : bool) (a : aio) (thread_bq : Z)
  : option (aio * bool) :=
  if negb closure_ok then None
  else if ongoing_ops a =? 0 then Some (refcount_release a, false)
  else Some (refcount_reserve (set_bq (Some thread_bq) (set_copied_evts 0 a)),
             true).

(** [io_destroy]; [id] is [None] when [ctx_id->id] cannot be read. The
    context leaves the table, under an [assert] on [vector_set], and is
    returned next to it. *)
Definition io_destroy (env : destroy_env) (p : process) (id : option Z)
    (thread_bq : Z) : sysres (process * option aio) :=
  match id with
  | None => Ret (- EFAULT) (p, None)
  | Some id =>
      match p_aio p !! id with
      | None => Ret (- EINVAL) (p, None)
      | Some a =>
          if negb (vector_clear_ok env) then Halt
          else
            let p' := mk_process (delete id (p_aio p)) in
            match io_destroy_internal (destroy_closure env) a thread_bq with
            | None => Halt
            | Some (a', parked) =>
                if parked then Wait (p', Some a') else Ret 0 (p', Some a')
            end
      end
  end.

End Aio.

(** ** The virtio-net receive path ([src/virtio/virtio_net.c]) *)

Module Vnet.

Definition byte_val (b : byte) : Z := Z.of_N (Byte.to_N b).

Definition byte_of (z : Z) : byte :=
  match Byte.of_N (Z.to_N (z mod 256)) with
  | Some b => b
  | None => x00
  end.

(** A little-endian load of [length l] bytes (the target is x86). *)
Fixpoint le_val (l : list byte) : Z :=
  match l with
  | [] => 0
  | b :: t => byte_val b + 256 * le_val t
  end.

(** [sum += s; if (sum < s) sum++;] on [w]-bit unsigned objects. *)
Definition add_carry (w : Z) (sum s : Z) : Z :=
  let sum := wrap w (sum + s) in
  if sum <? s then wrap w (sum + 1) else sum.

(** The [while (len >= sizeof(u64))] loop of [vnet_csum]: the sum and the
    bytes left. *)
Fixpoint csum_u64 (buf : list byte) (sum : Z) : Z * list byte :=
  match buf with
  | b0 :: b1 :: b2 :: b3 :: b4 :: b5 :: b6 :: b7 :: rest =>
      csum_u64 rest (add_carry 64 sum (le_val [b0; b1; b2; b3; b4; b5; b6; b7]))
  | _ => (sum, buf)
  end.

Definition csum_u32 (buf : list byte) (sum : Z) : Z * list byte :=
  match buf with
  | b0 :: b1 :: b2 :: b3 :: rest => (add_carry 64 sum (le_val [b0; b1; b2; b3]), rest)
  | _ => (sum, buf)
  end.

Definition csum_u16 (buf : list byte) (sum : Z) : Z * list byte :=
  match buf with
  | b0 :: b1 :: rest => (add_carry 64 sum (le_val [b0; b1]), rest)
  | _ => (sum, buf)
  end.

Definition csum_u8 (buf : list byte) (sum : Z) : Z :=
  match buf with
  | b0 :: _ => add_carry 64 sum (byte_val b0)
  | [] => sum
  end.

(** The first half of [vnet_csum]: the 64-bit sum over the buffer. *)
Definition csum_accumulate (buf : list byte) : Z :=
  let '(sum, buf) := csum_u64 buf 0 in
  let '(sum, buf) := csum_u32 buf sum in
  let '(sum, buf) := csum_u16 buf sum in
  csum_u8 buf sum.

(** The second half, "fold down to 16 bits", and the final complement. *)
Definition csum_fold_down (sum : Z) : Z :=
  let s1 := wrap32 sum in
  let s2 := wrap32 (Z.shiftr sum 32) in
  let s1 := add_carry 32 s1 s2 in
  let s3 := wrap16 s1 in
  let s4 := wrap16 (Z.shiftr s1 16) in
  let s3 := add_carry 16 s3 s4 in
  wrap16 (Z.lnot s3).

(** [vnet_csum(buf, len)], where the list holds the [len] bytes at [buf]. *)
Definition vnet_csum (buf : list byte) : Z :=
  csum_fold_down (csum_accumulate buf).

(** Modelled from the spec: the [NEEDS_CSUM] flag of the header, declared
    in [virtio_net.h]; bit 0, as in the virtio standard. *)
Definition VIRTIO_NET_HDR_F_NEEDS_CSUM : Z := 1.

(** Modelled from the spec: [struct virtio_net_hdr], the legacy 10-byte
    header (the 12-byte variant appends a buffer count). *)

Record virtio_net_hdr : Type := mk_virtio_net_hdr {
  flags : Z;
  gso_type : Z;
  hdr_len : Z;
  gso_size : Z;
  csum_start : Z;
  csum_offset : Z
}.

(** A posted receive buffer when the device hands it back: [pbuf_len] is
    [x->p.pbuf.len], [hdr] the header the device wrote, and [mem] the
    bytes of the buffer that follow the header. *)
Record xpbuf : Type := mk_xpbuf {
  pbuf_len : Z;
  hdr : virtio_net_hdr;
  mem : list byte
}.

(** The [n] bytes at offset [off], when they lie inside the buffer. *)
Definition region (m : list byte) (off n : Z) : option (list byte) :=
  if (0 <=? off) && (0 <=? n) && (off + n <=? Z.of_nat (length m))
  then Some (take (Z.to_nat n) (drop (Z.to_nat off) m))
  else None.

(** A little-endian 16-bit store at offset [off]. *)
Definition store16 (m : list byte) (off v : Z) : option (list byte) :=
  if (0 <=? off) && (off + 2 <=? Z.of_nat (length m))
  then Some (<[S (Z.to_nat off) := byte_of (Z.shiftr v 8)]>
               (<[Z.to_nat off := byte_of v]> m))
  else None.

(** What [input] does with the buffer: it reaches the network stack with
    the given length and content ([accepted] is the stack's verdict, a
    refused buffer goes back to the pool), it is released without reaching
    the stack, the [assert] fails, or the code reaches past the buffer. *)
Inductive rx_result : Type :=
| ToStack (len : Z) (payload : list byte) (accepted : bool)
| Released
| AssertFail
| OutOfBuffer.

(** The completion [input] for a non-null [x]; [len] is the length the
    device reports, [stack_ok] whether [vn->n->input] returns [ERR_OK]. *)
Definition input (net_header_len : Z) (x : xpbuf) (len : Z) (stack_ok : bool)
  : rx_result :=
  let len := wrap64 (len - net_header_len) in
  if negb (len <=? pbuf_len x) then AssertFail
  else
    let h := hdr x in
    if negb (Z.land (flags h) VIRTIO_NET_HDR_F_NEEDS_CSUM =? 0) then
      if csum_start h + csum_offset h <=? wrap64 (len - 2) then
        match region (mem x) (csum_start h) (wrap64 (len - csum_start h)) with
        | None => OutOfBuffer
        | Some bytes =>
            match store16 (mem x) (csum_start h + csum_offset h)
                    (vnet_csum bytes) with
            | None => OutOfBuffer
            | Some m => ToStack len m stack_ok
            end
        end
      else Released
    else ToStack len (mem x) stack_ok.

End Vnet.

(** ** Reference definitions

    These follow the wording of the specification, not the code; the
    theorems below compare them with the embedding above. *)

Module Ref.

(** Free slots of the ring as the specification counts them:
    [(head - tail) mod nr], or [nr] when that is zero. *)
Definition available_slots (a : Aio.aio) : Z :=
  let d := (Aio.ring_head (Aio.ring a) - Aio.ring_tail (Aio.ring a))
             mod Aio.aio_nr a in
  if d =? 0 then Aio.aio_nr a else d.

(** The ring as the data model describes it: indices below the slot
    count, which a signed 32-bit difference can span. *)
Definition ring_in_range (a : Aio.aio) : Prop :=
  0 <= Aio.ring_head (Aio.ring a) < Aio.aio_nr a /\
  0 <= Aio.ring_tail (Aio.ring a) < Aio.aio_nr a /\
  Aio.aio_nr a <= 2 ^ 31 /\
  0 <= Aio.ongoing_ops a < 2 ^ 32.

(** End-around-carry addition on [w] bits: the carry out of the top bit
    is added back at the bottom. *)
Definition eac_add (w : Z) (x y : Z) : Z := (x + y) mod 2 ^ w + (x + y) / 2 ^ w.

(** The pieces [vnet_csum] adds up: the 64-bit words, then a trailing
    32-bit word, a trailing 16-bit word and a trailing byte. *)
Fixpoint chunks64 (buf : list byte) : list Z * list byte :=
  match buf with
  | b0 :: b1 :: b2 :: b3 :: b4 :: b5 :: b6 :: b7 :: rest =>
      let '(ws, tl) := chunks64 rest in
      (Vnet.le_val [b0; b1; b2; b3; b4; b5; b6; b7] :: ws, tl)
  | _ => ([], buf)
  end.

Definition chunks_tail (buf : list byte) : list Z :=
  match buf with
  | [b0; b1; b2; b3; b4; b5; b6] =>
      [Vnet.le_val [b0; b1; b2; b3]; Vnet.le_val [b4; b5]; Vnet.byte_val b6]
  | [b0; b1; b2; b3; b4; b5] => [Vnet.le_val [b0; b1; b2; b3]; Vnet.le_val [b4; b5]]
  | [b0; b1; b2; b3; b4] => [Vnet.le_val [b0; b1; b2; b3]; Vnet.byte_val b4]
  | [b0; b1; b2; b3] => [Vnet.le_val [b0; b1; b2; b3]]
  | [b0; b1; b2] => [Vnet.le_val [b0; b1]; Vnet.byte_val b2]
  | [b0; b1] => [Vnet.le_val [b0; b1]]
  | [b0] => [Vnet.byte_val b0]
  | _ => []
  end.

Definition chunks (buf : list byte) : list Z :=
  let '(ws, tl) := chunks64 buf in ws ++ chunks_tail tl.

(** The fold of the specification: accumulate on 64 bits, fold to 32 and
    then to 16 bits, each step with end-around carry. *)
Definition fold64 (buf : list byte) : Z := fold_left (eac_add 64) (chunks buf) 0.

Definition fold_down (sum : Z) : Z :=
  let s32 := eac_add 32 (sum mod 2 ^ 32) (sum / 2 ^ 32) in
  eac_add 16 (s32 mod 2 ^ 16) (s32 / 2 ^ 16).

(** Bitwise NOT of a 16-bit value. *)
Definition not16 (x : Z) : Z := Z.land (Z.lnot x) 0xffff.

(** Plain sum of a list of integers. *)
Definition zsum (l : list Z) : Z := fold_right Z.add 0 l.

Definition csum_fold (buf : list byte) : Z := not16 (fold_down (fold64 buf)).

(** The one's-complement sum of the buffer read as little-endian 16-bit
    words, an odd last byte being the low half of a word. *)
Fixpoint words16 (buf : list byte) : list Z :=
  match buf with
  | b0 :: b1 :: rest => Vnet.le_val [b0; b1] :: words16 rest
  | [b0] => [Vnet.byte_val b0]
  | [] => []
  end.

Definition ones_sum16 (buf : list byte) : Z := fold_left (eac_add 16) (words16 buf) 0.

(** Canonical representative of [n] in one's-complement arithmetic
    modulo [m]: zero only for [n = 0], otherwise in [1, m]. *)
Definition oc_norm (m n : Z) : Z := if n =? 0 then 0 else (n - 1) mod m + 1.






(** Events between [head] and [tail] on a ring of [nr] slots. *)
Definition pending (nr tail head : Z) : Z :=
  if head <=? tail then tail - head else tail - head + nr.

(** The slot [aio_complete] writes: the ring's tail, or 0 when the tail
    read from the ring is not below the slot count. *)
Definition clamp_tail (a : Aio.aio) : Z :=
  if Aio.aio_nr a <=? Aio.ring_tail (Aio.ring a) then 0
  else Aio.ring_tail (Aio.ring a).

End Ref.

(** ** Sample inputs *)

Module Samples.

Import Aio Vnet.

(** An environment that grants every request and maps pages holding
    [e] in every event slot. *)
Definition granting_env (e : io_event) : setup_env :=
  mk_setup_env true (fun _ => true)
    (fun size =>
       Some (mk_aio_ring 0 0 0 0 0 0 0 0
               (replicate (Z.to_nat ((size - sizeof_aio_ring) / sizeof_io_event)) e)))
    true 0 (Some 0) true.



(** A well-formed request on a descriptor that reads and writes, left
    in flight by the descriptor. *)
Definition sample_request (opcode : Z) : request :=
  mk_request 4096 (mk_iocb 77 0 opcode 3 8192 16 0 0 0 0)
    true (Some (mk_fdesc true true true true)) false true true None.

(** A receive buffer of a device with the 12-byte header: 1536 bytes,
    1524 of them after the header, the first payload byte 0x45. *)
Definition short_frame (start offset : Z) : xpbuf :=
  mk_xpbuf 1536 (mk_virtio_net_hdr 1 0 0 0 start offset)
    (x45 :: replicate 1523 x00).

(** A 60-byte frame in such a buffer, bytes 1 to 60, asking for a
    checksum from byte 14 on, to be stored 16 bytes further. *)
Definition frame60 : xpbuf :=
  mk_xpbuf 1536 (mk_virtio_net_hdr 1 0 0 0 14 16)
    ((byte_of <$> (Z.of_nat <$> seq 1 60)) ++ replicate 1464 x00).

End Samples.

(** ** Accounting of the ring *)

Module Inv.

Import Aio.

(** Events completed and not yet harvested. *)
Definition queued (a : aio) : Z :=
  Ref.pending (aio_nr a) (ring_tail (ring a)) (ring_head (ring a)).

(** What the slot test of [iocb_enqueue] maintains: the indices are in
    range and the requests in flight together with the events waiting in
    the ring leave one slot free. *)
Definition ring_inv (a : aio) : Prop :=
  Ref.ring_in_range a /\ ongoing_ops a + queued a <= aio_nr a - 1.

(** The mapping holds the [nr] slots of the ring. *)
Definition ring_mapped (a : aio) : Prop :=
  aio_nr a <= Z.of_nat (length (ring_events (ring a))).

(** The slot that is [i] events after [head]. *)
Definition slot_after (a : aio) (i : Z) : nat :=
  Z.to_nat ((ring_head (ring a) + i) mod aio_nr a).

(** [n] calls of [io_getevents] with the same arguments, each on the
    table the previous one left; [None] when a call does not return. *)
Fixpoint getevents_repeat (n : nat) (thread_bq : Z) (p : process)
    (ctx_id min_nr nr : Z) : option process :=
  match n with
  | O => Some p
  | S n' =>
      match io_getevents true thread_bq p ctx_id min_nr nr with
      | Ret _ p' => getevents_repeat n' thread_bq p' ctx_id min_nr nr
      | _ => None
      end
  end.

End Inv.

(** ** Queue layout of [virtio_net_attach] ([src/virtio/virtio_net.c]) *)

Module Attach.

(** The part of [struct vnet] that [virtio_net_attach] computes. The
    arrays [queues] and [txq_map] are maps from an index to the index of
    the virtqueue stored there; an index that was never written has no
    entry. [ctl] is the index of the control queue, when one is
    allocated. *)
Record vnet : Type := mk_vnet {
  net_header_len : Z;
  rxbuflen : Z;
  vq_pairs : Z;
  queues : gmap Z Z;
  txq_map : gmap Z Z;
  ctl : option Z
}.

(** Modelled from the spec: the sizes of the two headers of
    [virtio_net.h], 10 bytes for [struct virtio_net_hdr] and 12 for
    [struct virtio_net_hdr_mrg_rxbuf], of the Ethernet header (14) and of
    the VLAN header (4). *)
Definition SIZEOF_VIRTIO_NET_HDR : Z := 10.
Definition SIZEOF_VIRTIO_NET_HDR_MRG_RXBUF : Z := 12.
Definition SIZEOF_ETH_HDR : Z := 14.
Definition SIZEOF_ETH_VLAN_HDR : Z := 4.

(** The variables of the loop over the queue pairs. *)
Record pair_vars : Type := mk_pair_vars {
  first_cpu : Z;
  num_cpus : Z;
  pv_queues : gmap Z Z;
  pv_txq_map : gmap Z Z
}.

(** [for (u64 j = first_cpu; j < first_cpu + num_cpus; j++)
       vn->txq_map[j] = vq;] with [bound] the value of
    [first_cpu + num_cpus]. *)
Fixpoint txq_fill (n : nat) (j bound vq : Z) (m : gmap Z Z) : gmap Z Z :=
  match n with
  | O => m
  | S n =>
      if j <? bound then txq_fill n (j + 1) bound vq (<[j := vq]> m) else m
  end.

(** One turn of the loop, for the pair of index [i]: the next CPU range,
    the receive queue at [2 * i], the transmit queue at [2 * i + 1], and
    the CPUs of the range sent to the transmit queue. The affinity bitmap
    and the virtqueue allocations are calls out of this file that do not
    touch these variables. *)
Definition pair_step (cpus_per_vq excess_cpus i : Z) (s : pair_vars)
  : pair_vars :=
  let first := wrap64 (first_cpu s + num_cpus s) in
  let num := if i <? excess_cpus then wrap64 (cpus_per_vq + 1) else cpus_per_vq in
  let vq_index := to_int32 (2 * i) in
  let qs := <[vq_index := vq_index]> (pv_queues s) in
  let vq_index := to_int32 (vq_index + 1) in
  let qs := <[vq_index := vq_index]> qs in
  mk_pair_vars first num qs
    (txq_fill (Z.to_nat num) first (wrap64 (first + num)) vq_index
       (pv_txq_map s)).

(** [for (u64 i = 0; i < vn->vq_pairs; i++)], [n] turns from [i] on. *)
Fixpoint pair_loop (n : nat) (cpus_per_vq excess_cpus i : Z) (s : pair_vars)
  : pair_vars :=
  match n with
  | O => s
  | S n =>
      pair_loop n cpus_per_vq excess_cpus (i + 1)
        (pair_step cpus_per_vq excess_cpus i s)
  end.

(** [virtio_net_attach] up to the registration of the interface, for a
    device whose negotiated features hold [VIRTIO_F_VERSION_1],
    [VIRTIO_NET_F_MRG_RXBUF] and [VIRTIO_NET_F_MQ] as the three booleans
    say, whose configuration space gives [max_vq] (a 16-bit value) as the
    maximum number of queue pairs, on a machine of [total_processors]
    processors (a positive [int]). The allocations are taken to succeed.
    [None] is the division by zero at
    [total_processors / vn->vq_pairs]. *)
Definition virtio_net_attach (version_1 mrg_rxbuf mq : bool)
    (max_vq total_processors : Z) : option vnet :=
  let hdr_len := if version_1 || mrg_rxbuf
                 then SIZEOF_VIRTIO_NET_HDR_MRG_RXBUF
                 else SIZEOF_VIRTIO_NET_HDR in
  let buflen := pad (hdr_len + SIZEOF_ETH_HDR + SIZEOF_ETH_VLAN_HDR + 1500) 8 in
  let max_vq_pairs := if mq then max_vq else 1 in
  let pairs := if mq then Z.min max_vq_pairs total_processors else 1 in
  if pairs =? 0 then None
  else
    let cpus_per_vq := total_processors / pairs in
    let excess_cpus := total_processors - cpus_per_vq * pairs in
    let s := pair_loop (Z.to_nat pairs) cpus_per_vq excess_cpus 0
               (mk_pair_vars 0 0 ∅ ∅) in
    Some (mk_vnet hdr_len buflen pairs (pv_queues s) (pv_txq_map s)
            (if 1 <? pairs then Some (2 * max_vq_pairs) else None)).

(** [low_level_output] picks its queue as
    [vn->txq_map[current_cpu()->id]]. *)
Definition tx_queue_of (vn : vnet) (cpu : Z) : option Z := txq_map vn !! cpu.

(** First CPU of the range of pair [i] when [c] CPUs go to each pair and
    the first [e] pairs take one more. *)
Definition range_start (c e i : Z) : Z := i * c + Z.min i e.

End Attach.

Module AttachInv.

Import Attach.

(** The loop of [virtio_net_attach] once the pairs below [i] are done:
    the current range ends where the range of pair [i] starts, a CPU is
    sent to transmit queue [2 * k + 1] exactly when it lies in the range
    of a pair [k] below [i], and [queues] holds the indexes below
    [2 * i]. *)
Definition pairs_done (c e i : Z) (s : pair_vars) : Prop :=
  0 <= first_cpu s /\ 0 <= num_cpus s /\
  first_cpu s + num_cpus s = range_start c e i /\
  (forall cpu q,
     pv_txq_map s !! cpu = Some q <->
     exists k, 0 <= k < i /\ q = 2 * k + 1 /\
               range_start c e k <= cpu < range_start c e (k + 1)) /\
  (forall k, pv_queues s !! k
             = if (0 <=? k) && (k <? 2 * i) then Some k else None).

End AttachInv.

Module Batch.

Import Aio.

(** The completions of a run of requests in flight, in the order the
    descriptors finish; each is the triple [(data, obj, res)] the
    completion was bound to and called with. *)
Definition complete_all (cs : list (Z * Z * Z)) (a : aio) : aio :=
  fold_left (fun a c => let '(d, o, rv) := c in aio_complete a d o rv) cs a.

End Batch.

(** * Properties *)

(** ** Fixed-width arithmetic *)

Lemma wrap_small w x : 0 <= x < 2 ^ w -> wrap w x = x.
Proof. intros H. unfold wrap. apply Z.mod_small. exact H. Qed.

Lemma wrap_range w x : 0 <= w -> 0 <= wrap w x < 2 ^ w.
Proof.
  intros Hw. unfold wrap. apply Z.mod_pos_bound.
  apply Z.pow_pos_nonneg; lia.
Qed.

Lemma wrap32_small x : 0 <= x < 2 ^ 32 -> wrap32 x = x.
Proof. apply wrap_small. Qed.

Lemma wrap32_neg x : - 2 ^ 32 <= x < 0 -> wrap32 x = x + 2 ^ 32.
Proof.
  intros H. unfold wrap32, wrap.
  symmetry. apply (Z.mod_unique_pos x (2 ^ 32) (-1)); lia.
Qed.

Lemma wrap32_over x : 2 ^ 32 <= x < 2 * 2 ^ 32 -> wrap32 x = x - 2 ^ 32.
Proof.
  intros H. unfold wrap32, wrap.
  symmetry. apply (Z.mod_unique_pos x (2 ^ 32) 1); lia.
Qed.

Lemma to_int32_small x : - 2 ^ 31 <= x < 2 ^ 31 -> to_int32 x = x.
Proof.
  intros H. unfold to_int32.
  destruct (Z.neg_nonneg_cases x) as [Hn | Hp].
  - rewrite wrap32_neg by lia.
    destruct (Z.ltb_spec (x + 2 ^ 32) (2 ^ 31)); lia.
  - rewrite wrap32_small by lia.
    destruct (Z.ltb_spec x (2 ^ 31)); lia.
Qed.

Lemma land_3_mod reg : Z.land reg 3 = reg mod 4.
Proof. change 3 with (Z.ones 2). rewrite Z.land_ones by lia. reflexivity. Qed.

Lemma land_1_mod reg : Z.land reg 1 = reg mod 2.
Proof. change 1 with (Z.ones 1). rewrite Z.land_ones by lia. reflexivity. Qed.

(** ** PCI configuration accesses *)

Section PciFacts.

Import Pci.

Lemma cfg_guard_true dev reg bytes :
  cfg_guard dev reg bytes = true <->
  bus dev <= PCI_BUSMAX /\ slot dev <= PCI_SLOTMAX /\
  function dev <= PCI_FUNCMAX /\ wrap32 reg <= PCI_REGMAX /\
  bytes <> 3 /\ wrap32 bytes <= 4 /\ Z.land reg (bytes - 1) = 0.
Proof.
  unfold cfg_guard.
  rewrite !andb_true_iff, negb_true_iff, !Z.leb_le, Z.eqb_eq, Z.eqb_neq.
  tauto.
Qed.

(** The accesses the guard turns away: a register outside [0, 255], a
    width other than 0, 1, 2 or 4, a register not aligned to the width,
    and width 0 at any register but 0. Nothing reaches the bus. *)
Lemma pci_cfgenable_refused dev reg bytes :
  - 2 ^ 31 <= reg < 2 ^ 31 -> - 2 ^ 31 <= bytes < 2 ^ 31 ->
  reg < 0 \/ 255 < reg \/
  (bytes <> 0 /\ bytes <> 1 /\ bytes <> 2 /\ bytes <> 4) \/
  ((bytes = 1 \/ bytes = 2 \/ bytes = 4) /\ reg mod bytes <> 0) \/
  (bytes = 0 /\ reg <> 0) ->
  pci_cfgenable dev reg bytes = (0, []).
Proof.
  intros Hreg Hbytes Hbad. unfold pci_cfgenable.
  destruct (cfg_guard dev reg bytes) eqn:G; [exfalso | reflexivity].
  apply cfg_guard_true in G.
  destruct G as (_ & _ & _ & Hr & H3 & Hb & Hal).
  unfold PCI_REGMAX in Hr.
  assert (Hreg' : 0 <= reg <= 255).
  { destruct (Z.neg_nonneg_cases reg) as [Hn | Hp].
    - rewrite wrap32_neg in Hr by lia. lia.
    - rewrite wrap32_small in Hr by lia. lia. }
  assert (Hbytes' : 0 <= bytes <= 4).
  { destruct (Z.neg_nonneg_cases bytes) as [Hn | Hp].
    - rewrite wrap32_neg in Hb by lia. lia.
    - rewrite wrap32_small in Hb by lia. lia. }
  destruct Hbad as [H | [H | [H | [[Hw Hm] | [H0 Hn0]]]]]; try lia.
  - destruct Hw as [-> | [-> | ->]]; simpl in Hal.
    + apply Hm. apply Z.mod_1_r.
    + rewrite land_1_mod in Hal. contradiction.
    + rewrite land_3_mod in Hal. contradiction.
  - subst bytes. simpl in Hal. rewrite Z.land_m1_r in Hal. contradiction.
Qed.

(** The accesses the guard lets through: a device address in range, a
    register in [0, 255], width 1, 2 or 4, register aligned to the width.
    The address word goes to 0x0CF8 and the data port is returned. *)
Lemma pci_cfgenable_valid dev reg bytes :
  bus dev <= 255 -> slot dev <= 31 -> function dev <= 7 ->
  0 <= reg <= 255 ->
  bytes = 1 \/ bytes = 2 \/ bytes = 4 ->
  reg mod bytes = 0 ->
  pci_cfgenable dev reg bytes =
    (0x0cfc + Z.land reg 0x03,
     [Out32 0x0cf8
        (Z.lor (Z.lor (Z.lor (Z.lor (Z.shiftl 1 31) (Z.shiftl (bus dev) 16))
                                    (Z.shiftl (slot dev) 11))
                      (Z.shiftl (function dev) 8))
               (Z.land reg (Z.lnot 0x03)))]).
Proof.
  intros Hb Hs Hf Hreg Hw Hal. unfold pci_cfgenable.
  assert (G : cfg_guard dev reg bytes = true).
  { apply cfg_guard_true. unfold PCI_BUSMAX, PCI_SLOTMAX, PCI_FUNCMAX, PCI_REGMAX.
    rewrite (wrap32_small reg) by lia.
    destruct Hw as [-> | [-> | ->]]; rewrite wrap32_small by lia;
      repeat split; try lia; simpl.
    - apply Z.land_0_r.
    - rewrite land_1_mod. exact Hal.
    - rewrite land_3_mod. exact Hal. }
  rewrite G. reflexivity.
Qed.

(** C1. The specification has every width outside 1, 2 and 4 refused
    with 0.
    Width 0 at register 0 passes the guard of [pci_cfgenable]
    ([reg & (bytes - 1)] is [0 & -1]): for every device it is handled as
    the 4-byte access to register 0, so on device 0:0.0 the address word
    0x80000000 is written to 0x0CF8 and the data port 0x0CFC is returned
    instead of 0. [pci_cfgread] then still answers all-ones, after the
    address port was written. *)
Theorem pci_cfgenable_zero_width :
  (forall dev, pci_cfgenable dev 0 0 = pci_cfgenable dev 0 4) /\
  pci_cfgenable (mk_pci_dev 0 0 0) 0 0 = (0x0cfc, [Out32 0x0cf8 0x80000000]) /\
  (forall inp, pci_cfgread inp (mk_pci_dev 0 0 0) 0 0
               = (0xffffffff, [Out32 0x0cf8 0x80000000])).
Proof.
  split; [| split].
  - intros dev. unfold pci_cfgenable, cfg_guard. reflexivity.
  - reflexivity.
  - intros inp. reflexivity.
Qed.

End PciFacts.

(** ** Ring set-up *)

Section SetupFacts.

Import Aio Samples.

(** What [io_setup] does once the arguments are accepted and every
    allocation succeeds. *)
Lemma io_setup_success env p nr_events ctx aio_id :
  nr_events <> 0 ->
  ctx_idp_writable env = true ->
  alloc_phys env (ring_alloc_size (wrap32 (nr_events + 1))) = true ->
  map_phys env (ring_alloc_size (wrap32 (nr_events + 1))) = Some ctx ->
  aio_alloc env = Some aio_id ->
  io_setup env p nr_events =
    Ret 0
      (mk_process
         (<[aio_id :=
              mk_aio
                (mk_aio_ring (wrap32 aio_id) (wrap32 (nr_events + 1)) 0 0
                   AIO_RING_MAGIC 1 0 sizeof_aio_ring (ring_events ctx))
                None (wrap32 (nr_events + 1)) 0 (raw_copied_evts env) 1]>
            (p_aio p)),
       Some aio_id).
Proof.
  intros Hnz Hw Hphys Hmap Hid. unfold io_setup.
  rewrite Hw. simpl.
  destruct (Z.eqb_spec nr_events 0) as [E | _]; [contradiction |].
  rewrite Hphys, Hmap, Hid. reflexivity.
Qed.

(** A successful [io_setup] is one where everything was granted; the
    event area of the new ring is the content of the fresh mapping. *)
Lemma io_setup_inv env p nr_events p' key :
  io_setup env p nr_events = Ret 0 (p', Some key) ->
  exists ctx a,
    map_phys env (ring_alloc_size (wrap32 (nr_events + 1))) = Some ctx /\
    p_aio p' !! key = Some a /\
    ring_events (ring a) = ring_events ctx /\
    ring_nr (ring a) = wrap32 (nr_events + 1) /\
    aio_nr a = wrap32 (nr_events + 1).
Proof.
  unfold io_setup.
  destruct (ctx_idp_writable env); simpl; [| discriminate].
  destruct (nr_events =? 0); [discriminate |].
  destruct (alloc_phys env _); simpl; [| discriminate].
  destruct (map_phys env _) as [ctx |]; [| discriminate].
  destruct (aio_alloc env) as [aio_id |]; [| discriminate].
  intros H. injection H as <- <-.
  eexists ctx, _. split; [reflexivity |].
  split; [apply lookup_insert_eq |]. simpl. auto.
Qed.

(** C2, as stated, fails: [io_setup] does not store to the event area.
    With [nr_events = 1], a writable [ctx_idp], every allocation granted
    and pages that hold a stale event, the call returns 0 and the stale
    event is still in slot 0 of the ring. *)
Lemma io_setup_event_area_not_zeroed :
  let stale := mk_io_event 1 2 3 4 in
  exists a,
    ctx_idp_writable (granting_env stale) = true /\
    io_setup (granting_env stale) (mk_process ∅) 1
      = Ret 0 (mk_process (<[0 := a]> ∅), Some 0) /\
    ring_nr (ring a) = 2 /\
    ring_events (ring a) !! 0%nat = Some stale /\
    ~ Forall (fun e => e = mk_io_event 0 0 0 0) (ring_events (ring a)).
Proof.
  eexists. split; [reflexivity |]. split; [reflexivity |].
  split; [reflexivity |]. split; [reflexivity |].
  intros H. apply Forall_inv in H. discriminate H.
Qed.

(** C2, amended. For [nr_events > 0] and a writable [ctx_idp], when the
    physical allocation, the mapping and the context allocation succeed,
    [io_setup] returns 0 and the ring has [nr = (nr_events + 1) mod 2^32],
    [head = tail = 0], the magic number, [compat_features = 1],
    [incompat_features = 0] and [header_length = 0x20]; the event area is
    the content of the fresh mapping, unchanged. *)
Theorem io_setup_ring_header env p nr_events ctx aio_id :
  0 < nr_events < 2 ^ 32 ->
  ctx_idp_writable env = true ->
  alloc_phys env (ring_alloc_size ((nr_events + 1) mod 2 ^ 32)) = true ->
  map_phys env (ring_alloc_size ((nr_events + 1) mod 2 ^ 32)) = Some ctx ->
  aio_alloc env = Some aio_id ->
  exists a,
    io_setup env p nr_events
      = Ret 0 (mk_process (<[aio_id := a]> (p_aio p)), Some aio_id) /\
    ring_nr (ring a) = (nr_events + 1) mod 2 ^ 32 /\
    ring_head (ring a) = 0 /\
    ring_tail (ring a) = 0 /\
    ring_magic (ring a) = 0xA10A10A1 /\
    ring_compat_features (ring a) = 1 /\
    ring_incompat_features (ring a) = 0 /\
    ring_header_length (ring a) = 0x20 /\
    ring_events (ring a) = ring_events ctx.
Proof.
  intros Hn Hw Hphys Hmap Hid.
  eexists. split.
  - apply io_setup_success with (ctx := ctx); try assumption. lia.
  - simpl. repeat split; reflexivity.
Qed.

Lemma io_setup_ring_header_witness :
  exists a,
    io_setup (granting_env (mk_io_event 1 2 3 4)) (mk_process ∅) 5
      = Ret 0 (mk_process (<[0 := a]> (p_aio (mk_process ∅))), Some 0) /\
    ring_nr (ring a) = (5 + 1) mod 2 ^ 32 /\
    ring_head (ring a) = 0 /\
    ring_tail (ring a) = 0 /\
    ring_magic (ring a) = 0xA10A10A1 /\
    ring_compat_features (ring a) = 1 /\
    ring_incompat_features (ring a) = 0 /\
    ring_header_length (ring a) = 0x20 /\
    ring_events (ring a)
      = replicate 127 (mk_io_event 1 2 3 4).
Proof.
  apply (io_setup_ring_header (granting_env (mk_io_event 1 2 3 4)) (mk_process ∅) 5
           (mk_aio_ring 0 0 0 0 0 0 0 0 (replicate 127 (mk_io_event 1 2 3 4))) 0).
  - lia.
  - reflexivity.
  - reflexivity.
  - reflexivity.
  - reflexivity.
Defined.

(** C9. The slot count is [nr_events + 1] computed on 32 bits: whenever
    the allocations are granted, a non-zero [nr_events] gives a ring with
    [nr = (nr_events + 1) mod 2^32]. In particular [nr_events = 2^32 - 1]
    is accepted: one page is requested, and the call returns 0 with a
    ring (and a context) of [nr = 0]. *)
Theorem io_setup_nr_wraps env p ctx aio_id :
  ctx_idp_writable env = true ->
  aio_alloc env = Some aio_id ->
  (forall nr_events,
     0 < nr_events < 2 ^ 32 ->
     alloc_phys env (ring_alloc_size ((nr_events + 1) mod 2 ^ 32)) = true ->
     map_phys env (ring_alloc_size ((nr_events + 1) mod 2 ^ 32)) = Some ctx ->
     exists a,
       io_setup env p nr_events
         = Ret 0 (mk_process (<[aio_id := a]> (p_aio p)), Some aio_id) /\
       ring_nr (ring a) = (nr_events + 1) mod 2 ^ 32 /\
       aio_nr a = (nr_events + 1) mod 2 ^ 32) /\
  (alloc_phys env PAGESIZE = true ->
   map_phys env PAGESIZE = Some ctx ->
   exists a,
     io_setup env p (2 ^ 32 - 1)
       = Ret 0 (mk_process (<[aio_id := a]> (p_aio p)), Some aio_id) /\
     ring_nr (ring a) = 0 /\ aio_nr a = 0).
Proof.
  intros Hw Hid. split.
  - intros nr_events Hn Hphys Hmap. eexists. split.
    + apply io_setup_success with (ctx := ctx); try assumption. lia.
    + simpl. split; reflexivity.
  - intros Hphys Hmap. eexists. split.
    + apply io_setup_success with (ctx := ctx); try assumption; try lia.
    + simpl. split; reflexivity.
Qed.

Lemma io_setup_nr_wraps_witness :
  exists a,
    io_setup (granting_env (mk_io_event 0 0 0 0)) (mk_process ∅) (2 ^ 32 - 1)
      = Ret 0 (mk_process (<[0 := a]> ∅), Some 0) /\
    ring_nr (ring a) = 0 /\ aio_nr a = 0.
Proof.
  apply (io_setup_nr_wraps (granting_env (mk_io_event 0 0 0 0)) (mk_process ∅)
           (mk_aio_ring 0 0 0 0 0 0 0 0 (replicate 127 (mk_io_event 0 0 0 0))) 0);
    reflexivity.
Defined.

End SetupFacts.

(** ** Completion *)

Section CompleteFacts.

Import Aio Ref.

Lemma aio_complete_fields a d o rv :
  let a' := aio_complete a d o rv in
  ongoing_ops a' = wrap32 (ongoing_ops a - 1) /\
  aio_nr a' = aio_nr a /\
  refcount a' = refcount a - 1 /\
  ring_head (ring a') = ring_head (ring a) /\
  ring_events (ring a')
    = alter (fill_event d o rv) (Z.to_nat (clamp_tail a)) (ring_events (ring a)) /\
  ring_tail (ring a')
    = (if wrap32 (clamp_tail a + 1) =? aio_nr a then 0
       else wrap32 (clamp_tail a + 1)).
Proof. simpl. repeat split; reflexivity. Qed.

Lemma clamp_tail_range a :
  0 < aio_nr a -> 0 <= ring_tail (ring a) ->
  0 <= clamp_tail a < aio_nr a.
Proof.
  intros Hnr Ht. unfold clamp_tail.
  destruct (Z.leb_spec (aio_nr a) (ring_tail (ring a))); lia.
Qed.

Lemma next_tail_mod nr t :
  0 < nr < 2 ^ 32 -> 0 <= t < nr ->
  (if wrap32 (t + 1) =? nr then 0 else wrap32 (t + 1)) = (t + 1) mod nr.
Proof.
  intros Hnr Ht. rewrite wrap32_small by lia.
  destruct (Z.eqb_spec (t + 1) nr) as [E | NE].
  - rewrite E. symmetry. apply Z.mod_same. lia.
  - symmetry. apply Z.mod_small. lia.
Qed.

(** C4, as stated, fails on a context whose slot count is 0, which
    [io_setup] produces for [nr_events = 2^32 - 1] and into which
    [iocb_enqueue] lets requests: the completion writes slot 0 and
    stores tail 1, which is not in [0, nr). *)
Lemma aio_complete_tail_escapes_empty_ring :
  let a := mk_aio (mk_aio_ring 0 0 0 0 AIO_RING_MAGIC 1 0 32
                     (replicate 127 (mk_io_event 0 0 0 0)))
             None 0 1 0 2 in
  aio_take_slot (mk_aio (ring a) None 0 0 0 1) = Some (mk_aio (ring a) None 0 1 0 1) /\
  aio_nr a = 0 /\
  ring_tail (ring (aio_complete a 7 8 9)) = 1 /\
  ~ (0 <= ring_tail (ring (aio_complete a 7 8 9)) < aio_nr a).
Proof.
  simpl. split; [reflexivity |]. split; [reflexivity |].
  split; [reflexivity |]. vm_compute. intros [_ H]. discriminate H.
Qed.

(** C4, amended. On a context with at least one slot, [aio_complete]
    with result [rv] decrements [ongoing_ops] by one (on 32 bits), takes
    the ring's tail with any value not below [nr] replaced by 0, writes
    [data], [obj] and [res = rv] into that slot and nothing into the
    others, and stores [(tail + 1) mod nr] as the new tail, which lies in
    [0, nr) whatever the ring held as tail. *)
Theorem aio_complete_advances_tail a d o rv :
  0 < aio_nr a < 2 ^ 32 ->
  0 <= ring_tail (ring a) < 2 ^ 32 ->
  let t := if aio_nr a <=? ring_tail (ring a) then 0 else ring_tail (ring a) in
  let a' := aio_complete a d o rv in
  ongoing_ops a' = (ongoing_ops a - 1) mod 2 ^ 32 /\
  (0 < ongoing_ops a < 2 ^ 32 -> ongoing_ops a' = ongoing_ops a - 1) /\
  0 <= t < aio_nr a /\
  (forall e, ring_events (ring a) !! Z.to_nat t = Some e ->
             ring_events (ring a') !! Z.to_nat t
               = Some (mk_io_event d o rv (res2 e))) /\
  (forall i, i <> Z.to_nat t ->
             ring_events (ring a') !! i = ring_events (ring a) !! i) /\
  ring_tail (ring a') = (t + 1) mod aio_nr a /\
  0 <= ring_tail (ring a') < aio_nr a.
Proof.
  intros Hnr Htail t a'.
  destruct (aio_complete_fields a d o rv) as (Hops & _ & _ & _ & Hevs & Hnew).
  fold a' in Hops, Hevs, Hnew.
  assert (Ht : 0 <= t < aio_nr a) by (apply clamp_tail_range; lia).
  assert (Hmod : ring_tail (ring a') = (t + 1) mod aio_nr a).
  { rewrite Hnew. apply next_tail_mod; assumption. }
  split; [exact Hops |].
  split; [intros Hpos; rewrite Hops; apply wrap32_small; lia |].
  split; [exact Ht |].
  split; [| split; [| split]].
  - intros e He. rewrite Hevs. unfold clamp_tail. fold t.
    rewrite list_lookup_alter_eq, He. reflexivity.
  - intros i Hi. rewrite Hevs. unfold clamp_tail. fold t.
    apply list_lookup_alter_ne. congruence.
  - exact Hmod.
  - rewrite Hmod. apply Z.mod_pos_bound. lia.
Qed.

Lemma aio_complete_advances_tail_witness :
  let a := mk_aio (mk_aio_ring 0 4 1 9 AIO_RING_MAGIC 1 0 32
                     (replicate 127 (mk_io_event 5 5 5 5)))
             None 4 1 0 2 in
  ring_tail (ring (aio_complete a 7 8 (-14))) = 1 /\
  ring_events (ring (aio_complete a 7 8 (-14))) !! 0%nat
    = Some (mk_io_event 7 8 (-14) 5).
Proof.
  intros a.
  destruct (aio_complete_advances_tail a 7 8 (-14)) as (_ & _ & _ & Hslot & _ & Ht & _).
  - simpl. lia.
  - simpl. lia.
  - split.
    + rewrite Ht. reflexivity.
    + apply (Hslot (mk_io_event 5 5 5 5)). reflexivity.
Defined.


End CompleteFacts.

(** ** Admission *)

Section SlotFacts.

Import Aio.

Lemma wrap32_to_int32 x : wrap32 (to_int32 x) = wrap32 x.
Proof.
  unfold to_int32. destruct (wrap32 x <? 2 ^ 31).
  - unfold wrap32, wrap. apply Z.mod_mod. lia.
  - unfold wrap32, wrap.
    replace (x mod 2 ^ 32 - 2 ^ 32) with (x mod 2 ^ 32 + (-1) * 2 ^ 32) by lia.
    rewrite Z_mod_plus_full. apply Z.mod_mod. lia.
Qed.

(** On a ring whose indices are in range the code's count of free slots
    is the specification's. *)
Lemma aio_avail_events_in_range a :
  Ref.ring_in_range a ->
  aio_avail_events a = Ref.available_slots a /\
  1 <= Ref.available_slots a <= aio_nr a.
Proof.
  intros (Hh & Ht & Hnr & _).
  unfold aio_avail_events, Ref.available_slots.
  set (h := ring_head (ring a)) in *. set (t := ring_tail (ring a)) in *.
  set (n := aio_nr a) in *.
  rewrite (to_int32_small (h - t)) by lia.
  destruct (Z.leb_spec (h - t) 0) as [Hle | Hgt].
  - rewrite wrap32_to_int32, wrap32_small by lia.
    destruct (Z.eq_dec (h - t) 0) as [E | NE].
    + rewrite E, Z.mod_0_l by lia. simpl. lia.
    + assert (Hm : (h - t) mod n = h - t + n).
      { symmetry. apply (Z.mod_unique_pos (h - t) n (-1)); lia. }
      rewrite Hm. destruct (Z.eqb_spec (h - t + n) 0); lia.
  - rewrite wrap32_small by lia.
    rewrite (Z.mod_small (h - t) n) by lia.
    destruct (Z.eqb_spec (h - t) 0); lia.
Qed.

Lemma aio_take_slot_in_range a :
  Ref.ring_in_range a ->
  (aio_take_slot a = None <-> ongoing_ops a >= Ref.available_slots a - 1) /\
  (forall a', aio_take_slot a = Some a' ->
     a' = set_ongoing_ops (ongoing_ops a + 1) a /\
     ongoing_ops a + 1 <= Ref.available_slots a - 1).
Proof.
  intros Hr. destruct (aio_avail_events_in_range a Hr) as [Heq Hav].
  destruct Hr as (_ & _ & Hnr & Hops).
  unfold aio_take_slot. rewrite Heq.
  rewrite (wrap32_small (Ref.available_slots a - 1)) by lia.
  destruct (Z.leb_spec (Ref.available_slots a - 1) (ongoing_ops a)) as [Hle | Hgt].
  - split; [split; [lia | reflexivity] | discriminate].
  - split; [split; [discriminate | lia] |].
    intros a' H. injection H as <-.
    rewrite wrap32_small by lia. split; [reflexivity | lia].
Qed.

(** [iocb_enqueue] returns [-EAGAIN] from the admission test only. *)
Lemma iocb_enqueue_eagain a q :
  fst (iocb_enqueue a q) = - EAGAIN <->
  req_valid q = true /\ iocb_malformed (req_iocb q) = false /\
  is_Some (req_fdesc q) /\ aio_take_slot a = None.
Proof.
  unfold iocb_enqueue.
  destruct (req_valid q); simpl;
    [| split; [discriminate | intros (H & _); discriminate H]].
  destruct (iocb_malformed (req_iocb q)); simpl;
    [split; [discriminate | intros (_ & H & _); discriminate H] |].
  destruct (req_fdesc q) as [f |]; simpl;
    [| split; [discriminate | intros (_ & _ & [x H] & _); discriminate H]].
  destruct (aio_take_slot a) as [a1 |]; simpl.
  - split; [| intros (_ & _ & _ & H); discriminate H].
    unfold enqueue_error, dispatch.
    destruct (req_fault q), (req_pc q), (req_closure q),
      (aio_lio_opcode (req_iocb q) =? IOCB_CMD_PREAD),
      (aio_lio_opcode (req_iocb q) =? IOCB_CMD_PWRITE),
      (fd_read f), (fd_readable f), (fd_write f), (fd_writable f),
      (req_sync q); simpl; discriminate.
  - split; [intros _; repeat split; eauto | reflexivity].
Qed.

(** C3, as stated, fails outside the data model's ring. With the head
    overwritten by user space ([nr = 2], [head = 5], [tail = 0], one
    request in flight) the formula gives one free slot and asks for
    [-EAGAIN], while the code counts five and lets the request in. On the context of
    zero slots that [io_setup] builds for [nr_events = 2^32 - 1] the
    formula gives zero free slots, while the code lets the request in and
    leaves [ongoing_ops = 1 > available_slots - 1]. And with indices in
    range on a ring of more than [2^31] slots ([nr = 2^31 + 1],
    [head = 2^31], [tail = 0], nothing in flight) the difference does not
    fit the [int] it is stored in: the formula gives [2^31] free slots
    and lets the request in, while the code counts one and answers
    [-EAGAIN]. *)
Lemma slot_count_differs_from_formula :
  let ring1 := mk_aio_ring 0 2 5 0 AIO_RING_MAGIC 1 0 32
                 (replicate 127 (mk_io_event 0 0 0 0)) in
  let a1 := mk_aio ring1 None 2 1 0 1 in
  let ring2 := mk_aio_ring 0 0 0 0 AIO_RING_MAGIC 1 0 32
                 (replicate 127 (mk_io_event 0 0 0 0)) in
  let a2 := mk_aio ring2 None 0 0 0 1 in
  let ring3 := mk_aio_ring 0 (2 ^ 31 + 1) (2 ^ 31) 0 AIO_RING_MAGIC 1 0 32
                 (replicate 127 (mk_io_event 0 0 0 0)) in
  let a3 := mk_aio ring3 None (2 ^ 31 + 1) 0 0 1 in
  (Ref.available_slots a1 = 1 /\ ongoing_ops a1 >= Ref.available_slots a1 - 1 /\
   aio_take_slot a1 = Some (mk_aio ring1 None 2 2 0 1)) /\
  (Ref.available_slots a2 = 0 /\ ongoing_ops a2 >= Ref.available_slots a2 - 1 /\
   aio_take_slot a2 = Some (mk_aio ring2 None 0 1 0 1) /\
   ~ (1 <= Ref.available_slots (mk_aio ring2 None 0 1 0 1) - 1)) /\
  (0 <= ring_head ring3 < aio_nr a3 /\ 0 <= ring_tail ring3 < aio_nr a3 /\
   Ref.available_slots a3 = 2 ^ 31 /\
   ~ (ongoing_ops a3 >= Ref.available_slots a3 - 1) /\
   aio_avail_events a3 = 1 /\ aio_take_slot a3 = None /\
   fst (iocb_enqueue a3 (Samples.sample_request 0)) = - EAGAIN).
Proof.
  simpl. split; [| split].
  - split; [reflexivity |]. split; [vm_compute; discriminate | reflexivity].
  - split; [reflexivity |]. split; [vm_compute; discriminate |].
    split; [reflexivity |]. vm_compute. intros H. apply H. reflexivity.
  - split; [vm_compute; split; [discriminate | reflexivity] |].
    split; [vm_compute; split; [discriminate | reflexivity] |].
    split; [reflexivity |].
    split; [vm_compute; intros H; apply H; reflexivity |].
    split; [reflexivity |]. split; reflexivity.
Qed.

(** C3, amended. On a context whose ring indices are in range
    ([head, tail < nr <= 2^31]), an enqueue attempt fails with [-EAGAIN]
    exactly when it reaches the admission test with
    [ongoing_ops >= available_slots - 1], where [available_slots] is
    [(head - tail) mod nr], or [nr] when that is zero; otherwise the
    locked section adds exactly one to [ongoing_ops], touches nothing
    else of the context (ring, slot count, block queue, [copied_evts]
    and reference count are as before), and
    [ongoing_ops <= available_slots - 1] holds afterwards. *)
Theorem iocb_enqueue_admission a :
  Ref.ring_in_range a ->
  (aio_take_slot a = None <-> ongoing_ops a >= Ref.available_slots a - 1) /\
  (forall q,
     fst (iocb_enqueue a q) = - EAGAIN <->
     req_valid q = true /\ iocb_malformed (req_iocb q) = false /\
     is_Some (req_fdesc q) /\
     ongoing_ops a >= Ref.available_slots a - 1) /\
  (forall a',
     aio_take_slot a = Some a' ->
     a' = mk_aio (ring a) (bq a) (aio_nr a) (ongoing_ops a + 1)
            (copied_evts a) (refcount a) /\
     ongoing_ops a' = ongoing_ops a + 1 /\
     ring a' = ring a /\ aio_nr a' = aio_nr a /\
     bq a' = bq a /\ copied_evts a' = copied_evts a /\
     refcount a' = refcount a /\
     ongoing_ops a' <= Ref.available_slots a' - 1).
Proof.
  intros Hr. destruct (aio_take_slot_in_range a Hr) as [Hnone Hsome].
  split; [exact Hnone |]. split.
  - intros q. rewrite iocb_enqueue_eagain, Hnone. reflexivity.
  - intros a' Ha. destruct (Hsome a' Ha) as [-> Hle].
    simpl. repeat split; try reflexivity.
    unfold Ref.available_slots in *. simpl. exact Hle.
Qed.

Lemma iocb_enqueue_admission_witness :
  let r := mk_aio_ring 0 4 1 3 AIO_RING_MAGIC 1 0 32
             (replicate 127 (mk_io_event 0 0 0 0)) in
  Ref.available_slots (mk_aio r None 4 1 0 1) = 2 /\
  (aio_take_slot (mk_aio r None 4 1 0 1) = None <-> 1 >= 2 - 1).
Proof.
  intros r. split; [reflexivity |].
  destruct (iocb_enqueue_admission (mk_aio r None 4 1 0 1)) as (H & _).
  - unfold Ref.ring_in_range. simpl. lia.
  - exact H.
Defined.

End SlotFacts.

(** ** Undoing a refused request *)

Section UndoFacts.

Import Aio.

Lemma wrap32_succ_pred o : 0 <= o < 2 ^ 32 -> wrap32 (wrap32 (o + 1) - 1) = o.
Proof.
  intros Ho. destruct (Z.eq_dec o (2 ^ 32 - 1)) as [-> | Hne].
  - reflexivity.
  - rewrite (wrap32_small (o + 1)) by lia.
    replace (o + 1 - 1) with o by lia. apply wrap32_small. lia.
Qed.

Lemma aio_eta a :
  mk_aio (ring a) (bq a) (aio_nr a) (ongoing_ops a) (copied_evts a) (refcount a) = a.
Proof. destruct a. reflexivity. Qed.

Lemma aio_take_slot_some a a1 :
  aio_take_slot a = Some a1 ->
  a1 = set_ongoing_ops (wrap32 (ongoing_ops a + 1)) a /\
  ongoing_ops a < wrap32 (aio_avail_events a - 1).
Proof.
  unfold aio_take_slot.
  destruct (Z.leb_spec (wrap32 (aio_avail_events a - 1)) (ongoing_ops a));
    [discriminate |].
  intros E. injection E as <-. split; [reflexivity | assumption].
Qed.

(** The [error:] path gives back the slot and the reference. *)
Lemma enqueue_error_undo a a1 rv :
  0 <= ongoing_ops a < 2 ^ 32 ->
  aio_take_slot a = Some a1 ->
  enqueue_error rv (refcount_reserve a1) = (rv, a).
Proof.
  intros Ho Hs. apply aio_take_slot_some in Hs. destruct Hs as [-> _].
  unfold enqueue_error, refcount_release, refcount_reserve, set_refcount,
    set_ongoing_ops. simpl.
  rewrite wrap32_succ_pred by exact Ho.
  replace (refcount a + 1 - 1) with (refcount a) by lia.
  rewrite aio_eta. reflexivity.
Qed.

(** The shape of every outcome of [iocb_enqueue]: an error with the
    context as it was, or 0 with the slot and the reference taken, and
    the completion applied when the descriptor finished at once. *)
Lemma iocb_enqueue_cases a q :
  0 <= ongoing_ops a < 2 ^ 32 ->
  (fst (iocb_enqueue a q) <> 0 /\ snd (iocb_enqueue a q) = a) \/
  (exists a1,
     aio_take_slot a = Some a1 /\
     iocb_enqueue a q = dispatch q (refcount_reserve a1)).
Proof.
  intros Ho. unfold iocb_enqueue.
  destruct (req_valid q); cbn [negb]; [| left; split; [discriminate | reflexivity]].
  destruct (iocb_malformed (req_iocb q));
    [left; split; [discriminate | reflexivity] |].
  destruct (req_fdesc q) as [f |];
    [| left; split; [discriminate | reflexivity]].
  destruct (aio_take_slot a) as [a1 |] eqn:Hs;
    [| left; split; [discriminate | reflexivity]].
  assert (Hundo : forall rv, rv <> 0 ->
            fst (enqueue_error rv (refcount_reserve a1)) <> 0 /\
            snd (enqueue_error rv (refcount_reserve a1)) = a).
  { intros rv Hrv. rewrite (enqueue_error_undo a a1 rv Ho Hs). auto. }
  destruct (req_fault q); cbn [negb]; [left; apply Hundo; discriminate |].
  destruct (req_pc q); cbn [negb]; [| left; apply Hundo; discriminate].
  destruct (req_closure q); cbn [negb]; [| left; apply Hundo; discriminate].
  destruct (aio_lio_opcode (req_iocb q) =? IOCB_CMD_PREAD).
  - destruct (fd_read f); cbn [negb]; [| left; apply Hundo; discriminate].
    destruct (fd_readable f); cbn [negb]; [| left; apply Hundo; discriminate].
    right. exists a1. auto.
  - destruct (aio_lio_opcode (req_iocb q) =? IOCB_CMD_PWRITE);
      [| left; apply Hundo; discriminate].
    destruct (fd_write f); cbn [negb]; [| left; apply Hundo; discriminate].
    destruct (fd_writable f); cbn [negb]; [| left; apply Hundo; discriminate].
    right. exists a1. auto.
Qed.

(** A refused request gives back what it took. *)
Lemma iocb_enqueue_undo a q :
  0 <= ongoing_ops a < 2 ^ 32 ->
  fst (iocb_enqueue a q) <> 0 ->
  snd (iocb_enqueue a q) = a.
Proof.
  intros Ho Hrv.
  destruct (iocb_enqueue_cases a q Ho) as [[_ H] | (a1 & _ & H)]; [exact H |].
  rewrite H in Hrv. unfold dispatch in Hrv.
  destruct (req_sync q); simpl in Hrv; contradiction.
Qed.

End UndoFacts.

(** ** Submission *)

Section SubmitFacts.

Import Aio Samples.




Lemma aio_from_ring_id_live p id a :
  p_aio p !! id = Some a ->
  aio_from_ring_id p id
    = Ok (mk_process (<[id := refcount_reserve a]> (p_aio p)), Some id).
Proof. intros H. unfold aio_from_ring_id. rewrite H. reflexivity. Qed.





End SubmitFacts.

(** ** Harvesting *)

Section GeteventsFacts.

Import Aio.

(** On a live context, [nr <= 0] or [nr < min_nr] makes [io_getevents]
    return [-EINVAL] without starting a wait; the context is left as it
    was but for the reference taken by [aio_from_ring_id], which this
    path does not give back. *)
Lemma io_getevents_bad_count thread_bq p ctx_id a min_nr nr :
  p_aio p !! ctx_id = Some a ->
  nr <= 0 \/ nr < min_nr ->
  io_getevents true thread_bq p ctx_id min_nr nr
    = Ret (- EINVAL)
        (mk_process (<[ctx_id := refcount_reserve a]> (p_aio p))) /\
  ring (refcount_reserve a) = ring a.
Proof.
  intros Hlive Hbad. unfold io_getevents. simpl.
  rewrite (aio_from_ring_id_live p ctx_id a Hlive).
  assert (E : (nr <=? 0) || (nr <? min_nr) = true).
  { apply orb_true_iff. rewrite Z.leb_le, Z.ltb_lt. exact Hbad. }
  rewrite E. simpl. split; reflexivity.
Qed.

(** With sound arguments on a live context the call resets
    [copied_evts], records the caller's block queue and hands over to it. *)
Lemma io_getevents_waits thread_bq p ctx_id a min_nr nr :
  p_aio p !! ctx_id = Some a ->
  0 < nr -> min_nr <= nr ->
  io_getevents true thread_bq p ctx_id min_nr nr
    = Wait (mk_process
              (<[ctx_id := set_bq (Some thread_bq)
                             (set_copied_evts 0 (refcount_reserve a))]>
                 (<[ctx_id := refcount_reserve a]> (p_aio p)))).
Proof.
  intros Hlive Hnr Hmin. unfold io_getevents. simpl.
  rewrite (aio_from_ring_id_live p ctx_id a Hlive).
  destruct (Z.leb_spec nr 0); [lia |].
  destruct (Z.ltb_spec nr min_nr); [lia |]. simpl.
  rewrite lookup_insert_eq. reflexivity.
Qed.

Lemma aio_from_ring_id_unknown p id :
  p_aio p !! id = None -> aio_from_ring_id p id = NullAccess.
Proof. intros H. unfold aio_from_ring_id. rewrite H. reflexivity. Qed.

(** C5. The specification asks for [-EINVAL] when the context id names
    no live context. [aio_from_ring_id] applies [refcount_reserve] to the result
    of [vector_get] before [io_getevents] tests it, so for an id that is
    not (or no longer) in the table the call goes through the null
    pointer and never reaches the [-EINVAL] return: for every process,
    once an id is out of the table, [io_getevents] on it ends in the
    null access, whatever [min_nr] and [nr] are. *)
Theorem io_getevents_unknown_context thread_bq p ctx_id min_nr nr :
  io_getevents true thread_bq (mk_process (delete ctx_id (p_aio p)))
    ctx_id min_nr nr = NullDeref /\
  io_getevents true thread_bq (mk_process ∅) ctx_id min_nr nr
    <> Ret (- EINVAL) (mk_process ∅).
Proof.
  unfold io_getevents. simpl. split.
  - rewrite aio_from_ring_id_unknown; [reflexivity |].
    simpl. apply lookup_delete_eq.
  - rewrite aio_from_ring_id_unknown; [discriminate |].
    simpl. apply lookup_empty.
Qed.




End GeteventsFacts.

(** ** The [res2] field over the life of a context *)

Section LifetimeFacts.

Import Aio Samples.








End LifetimeFacts.

(** ** One's-complement arithmetic *)

Section OnesComplement.

Import Ref.

Lemma mod_once n z : 0 < n -> n <= z < 2 * n -> z mod n = z - n.
Proof.
  intros Hn Hz. symmetry. apply (Z.mod_unique_pos z n 1); lia.
Qed.

Lemma oc_norm_range m n : 0 < m -> 0 <= n -> 0 <= oc_norm m n <= m.
Proof.
  intros Hm Hn. unfold oc_norm. destruct (Z.eqb_spec n 0); [lia |].
  pose proof (Z.mod_pos_bound (n - 1) m Hm). lia.
Qed.

Lemma oc_norm_small m n : 0 <= n <= m -> oc_norm m n = n.
Proof.
  intros Hn. unfold oc_norm. destruct (Z.eqb_spec n 0); [lia |].
  rewrite Z.mod_small by lia. lia.
Qed.

Lemma oc_norm_zero m n : 0 < m -> 0 <= n -> (oc_norm m n = 0 <-> n = 0).
Proof.
  intros Hm Hn. unfold oc_norm. destruct (Z.eqb_spec n 0); [tauto |].
  pose proof (Z.mod_pos_bound (n - 1) m Hm). lia.
Qed.

(** Equal residues and equal zero-ness give the same representative. *)
Lemma oc_norm_congr m a b :
  0 < m -> (a = 0 <-> b = 0) -> (a - b) mod m = 0 -> oc_norm m a = oc_norm m b.
Proof.
  intros Hm Hz Hc. unfold oc_norm.
  destruct (Z.eqb_spec a 0) as [Ea | Na], (Z.eqb_spec b 0) as [Eb | Nb];
    try tauto. f_equal.
  apply Z.mod_divide in Hc; [| lia]. destruct Hc as [k Hk].
  replace (a - 1) with (b - 1 + k * m) by lia.
  apply Z_mod_plus_full.
Qed.

Lemma oc_norm_add_l m a b :
  0 < m -> 0 <= a -> 0 <= b ->
  oc_norm m (oc_norm m a + b) = oc_norm m (a + b).
Proof.
  intros Hm Ha Hb.
  pose proof (oc_norm_range m a Hm Ha) as Hr.
  pose proof (oc_norm_zero m a Hm Ha) as Hz.
  apply oc_norm_congr; [exact Hm | lia |].
  unfold oc_norm in *. destruct (Z.eqb_spec a 0) as [-> | Na].
  - rewrite Z.sub_diag. apply Z.mod_0_l. lia.
  - replace ((a - 1) mod m + 1 + b - (a + b)) with ((a - 1) mod m - (a - 1)) by lia.
    rewrite (Z.mod_eq (a - 1) m) by lia.
    replace (a - 1 - m * ((a - 1) / m) - (a - 1)) with ((- ((a - 1) / m)) * m) by lia.
    apply Z_mod_mult.
Qed.

Lemma oc_norm_divide m1 m2 n :
  0 < m1 -> 0 < m2 -> (m1 | m2) -> 0 <= n ->
  oc_norm m1 (oc_norm m2 n) = oc_norm m1 n.
Proof.
  intros H1 H2 [c Hc] Hn.
  pose proof (oc_norm_zero m2 n H2 Hn) as Hz.
  apply oc_norm_congr; [exact H1 | exact Hz |].
  unfold oc_norm. destruct (Z.eqb_spec n 0) as [-> | Nn].
  - apply Z.mod_0_l. lia.
  - rewrite (Z.mod_eq (n - 1) m2) by lia. subst m2.
    replace (n - 1 - c * m1 * ((n - 1) / (c * m1)) + 1 - n)
      with ((- (c * ((n - 1) / (c * m1)))) * m1) by lia.
    apply Z_mod_mult.
Qed.

(** Both ways of adding with the carry brought round give the canonical
    representative of the sum. *)
Lemma eac_add_norm w x y :
  0 < w -> 0 <= x < 2 ^ w -> 0 <= y < 2 ^ w ->
  eac_add w x y = oc_norm (2 ^ w - 1) (x + y).
Proof.
  intros Hw Hx Hy. unfold eac_add, oc_norm.
  assert (Hb : 2 <= 2 ^ w).
  { change 2 with (2 ^ 1) at 1. apply Z.pow_le_mono_r; lia. }
  destruct (Z.eqb_spec (x + y) 0) as [E | NE].
  - rewrite E. rewrite Z.mod_0_l, Z.div_0_l by lia. reflexivity.
  - destruct (Z.lt_ge_cases (x + y) (2 ^ w)) as [Hlt | Hge].
    + rewrite (Z.mod_small (x + y)), (Z.div_small (x + y)) by lia.
      rewrite Z.mod_small by lia. lia.
    + rewrite (mod_once (2 ^ w) (x + y)) by lia.
      assert (Hd : (x + y) / 2 ^ w = 1).
      { symmetry. apply (Z.div_unique_pos (x + y) (2 ^ w) 1 (x + y - 2 ^ w)); lia. }
      rewrite Hd. rewrite (mod_once (2 ^ w - 1) (x + y - 1)) by lia. lia.
Qed.

Lemma add_carry_norm w x y :
  0 < w -> 0 <= x < 2 ^ w -> 0 <= y < 2 ^ w ->
  Vnet.add_carry w x y = oc_norm (2 ^ w - 1) (x + y).
Proof.
  intros Hw Hx Hy. unfold Vnet.add_carry, wrap, oc_norm.
  assert (Hb : 2 <= 2 ^ w).
  { change 2 with (2 ^ 1) at 1. apply Z.pow_le_mono_r; lia. }
  destruct (Z.lt_ge_cases (x + y) (2 ^ w)) as [Hlt | Hge].
  - rewrite (Z.mod_small (x + y)) by lia.
    destruct (Z.ltb_spec (x + y) y); [lia |].
    destruct (Z.eqb_spec (x + y) 0); [lia |].
    rewrite Z.mod_small by lia. lia.
  - rewrite (mod_once (2 ^ w) (x + y)) by lia.
    destruct (Z.ltb_spec (x + y - 2 ^ w) y); [| lia].
    destruct (Z.eqb_spec (x + y) 0); [lia |].
    rewrite Z.mod_small by lia.
    rewrite (mod_once (2 ^ w - 1) (x + y - 1)) by lia. lia.
Qed.

Lemma add_carry_eac w x y :
  0 < w -> 0 <= x < 2 ^ w -> 0 <= y < 2 ^ w ->
  Vnet.add_carry w x y = eac_add w x y.
Proof.
  intros. rewrite add_carry_norm, eac_add_norm by assumption. reflexivity.
Qed.

(** Folding a list of words into a canonical sum. *)
Lemma fold_eac_norm w l :
  0 < w -> Forall (fun y => 0 <= y < 2 ^ w) l ->
  forall s0, 0 <= s0 ->
    fold_left (eac_add w) l (oc_norm (2 ^ w - 1) s0)
      = oc_norm (2 ^ w - 1) (s0 + zsum l) /\
    0 <= zsum l.
Proof.
  intros Hw Hl.
  assert (Hb : 2 <= 2 ^ w).
  { change 2 with (2 ^ 1) at 1. apply Z.pow_le_mono_r; lia. }
  induction Hl as [| y l Hy Hl IH]; intros s0 Hs0; simpl.
  - rewrite Z.add_0_r. split; [reflexivity | lia].
  - pose proof (oc_norm_range (2 ^ w - 1) s0 ltac:(lia) Hs0) as Hr.
    rewrite eac_add_norm by lia.
    rewrite oc_norm_add_l by lia.
    destruct (IH (s0 + y) ltac:(lia)) as [IH1 IH2].
    rewrite IH1. split; [f_equal; lia | lia].
Qed.

Lemma fold_add_carry_eac w l :
  0 < w -> Forall (fun y => 0 <= y < 2 ^ w) l ->
  forall s, 0 <= s < 2 ^ w ->
    fold_left (Vnet.add_carry w) l s = fold_left (eac_add w) l s.
Proof.
  intros Hw Hl. induction Hl as [| y l Hy Hl IH]; intros s Hs; simpl.
  - reflexivity.
  - rewrite add_carry_eac by assumption. apply IH.
    rewrite eac_add_norm by assumption.
    assert (Hb : 2 <= 2 ^ w).
    { change 2 with (2 ^ 1) at 1. apply Z.pow_le_mono_r; lia. }
    pose proof (oc_norm_range (2 ^ w - 1) (s + y) ltac:(lia) ltac:(lia)) as Hr.
    lia.
Qed.

End OnesComplement.

(** ** The checksum of the receive path *)

Section CsumFacts.

Import Vnet Ref.

Lemma byte_val_range b : 0 <= byte_val b < 256.
Proof.
  unfold byte_val. pose proof (Byte.to_N_bounded b). lia.
Qed.

Lemma byte_val_of z : byte_val (byte_of z) = z mod 256.
Proof.
  unfold byte_val, byte_of.
  assert (H : 0 <= z mod 256 < 256) by (apply Z.mod_pos_bound; lia).
  destruct (Byte.of_N (Z.to_N (z mod 256))) as [b |] eqn:E.
  - apply Byte.to_of_N in E. rewrite E. lia.
  - apply Byte.of_N_None_iff in E. lia.
Qed.

Lemma le_val_range l : 0 <= le_val l < 2 ^ (8 * Z.of_nat (length l)).
Proof.
  induction l as [| b t IH].
  - simpl. lia.
  - cbn [le_val length]. pose proof (byte_val_range b).
    replace (8 * Z.of_nat (S (length t))) with (8 + 8 * Z.of_nat (length t)) by lia.
    rewrite Z.pow_add_r by lia. change (2 ^ 8) with 256. lia.
Qed.

Lemma le_val_app l1 l2 :
  le_val (l1 ++ l2) = le_val l1 + 2 ^ (8 * Z.of_nat (length l1)) * le_val l2.
Proof.
  induction l1 as [| b t IH].
  - simpl. lia.
  - cbn [app le_val length]. rewrite IH.
    replace (8 * Z.of_nat (S (length t))) with (8 + 8 * Z.of_nat (length t)) by lia.
    rewrite Z.pow_add_r by lia. change (2 ^ 8) with 256. lia.
Qed.

(** Induction on a buffer eight bytes at a time. *)
Lemma list_ind8 (P : list byte -> Prop) :
  (forall l, (length l < 8)%nat -> P l) ->
  (forall b0 b1 b2 b3 b4 b5 b6 b7 rest,
     P rest -> P (b0 :: b1 :: b2 :: b3 :: b4 :: b5 :: b6 :: b7 :: rest)) ->
  forall l, P l.
Proof.
  intros Hshort Hstep l.
  assert (H : forall n l, (length l <= n)%nat -> P l).
  { clear l. induction n as [| n IH]; intros l Hl.
    - apply Hshort. lia.
    - destruct l as [| b0 [| b1 [| b2 [| b3 [| b4 [| b5 [| b6 [| b7 rest]]]]]]]];
        try (apply Hshort; simpl; lia).
      apply Hstep. apply IH. simpl in Hl. lia. }
  apply (H (length l)). lia.
Qed.

(** Induction on a buffer two bytes at a time. *)
Lemma list_ind2 (P : list byte -> Prop) :
  P [] -> (forall b, P [b]) ->
  (forall b0 b1 rest, P rest -> P (b0 :: b1 :: rest)) ->
  forall l, P l.
Proof.
  intros H0 H1 Hstep l.
  assert (H : forall n l, (length l <= n)%nat -> P l).
  { clear l. induction n as [| n IH]; intros l Hl.
    - destruct l; [exact H0 | simpl in Hl; lia].
    - destruct l as [| b0 [| b1 rest]]; [exact H0 | apply H1 |].
      apply Hstep. apply IH. simpl in Hl. lia. }
  apply (H (length l)). lia.
Qed.

Lemma chunks64_short l : (length l < 8)%nat -> chunks64 l = ([], l).
Proof.
  intros H.
  destruct l as [| b0 [| b1 [| b2 [| b3 [| b4 [| b5 [| b6 [| b7 rest]]]]]]]];
    try reflexivity. simpl in H. lia.
Qed.

Lemma chunks64_tail_short l : (length (snd (chunks64 l)) < 8)%nat.
Proof.
  induction l as [l Hl | b0 b1 b2 b3 b4 b5 b6 b7 rest IH] using list_ind8.
  - rewrite chunks64_short by exact Hl. exact Hl.
  - cbn [chunks64]. destruct (chunks64 rest) as [ws tl]. exact IH.
Qed.

(** The loop of [vnet_csum] adds up the 64-bit words of [chunks64]. *)
Lemma csum_u64_chunks l :
  forall sum,
    csum_u64 l sum
      = (fold_left (add_carry 64) (fst (chunks64 l)) sum, snd (chunks64 l)).
Proof.
  induction l as [l Hl | b0 b1 b2 b3 b4 b5 b6 b7 rest IH] using list_ind8;
    intros sum.
  - rewrite chunks64_short by exact Hl.
    destruct l as [| b0 [| b1 [| b2 [| b3 [| b4 [| b5 [| b6 [| b7 rest]]]]]]]];
      try reflexivity. simpl in Hl. lia.
  - cbn [csum_u64 chunks64]. rewrite IH.
    destruct (chunks64 rest) as [ws tl]. reflexivity.
Qed.

(** The three conditionals after the loop add up [chunks_tail]. *)
Lemma csum_tail_chunks l sum :
  (length l < 8)%nat ->
  (let '(s, b) := csum_u32 l sum in
   let '(s, b) := csum_u16 b s in csum_u8 b s)
  = fold_left (add_carry 64) (chunks_tail l) sum.
Proof.
  intros Hl.
  destruct l as [| b0 [| b1 [| b2 [| b3 [| b4 [| b5 [| b6 [| b7 rest]]]]]]]];
    try reflexivity. simpl in Hl. lia.
Qed.

Lemma csum_accumulate_chunks buf :
  csum_accumulate buf = fold_left (add_carry 64) (chunks buf) 0.
Proof.
  unfold csum_accumulate, chunks. rewrite csum_u64_chunks.
  pose proof (chunks64_tail_short buf) as Hshort.
  destruct (chunks64 buf) as [ws tl]. cbn [fst snd] in *.
  rewrite fold_left_app. apply csum_tail_chunks. exact Hshort.
Qed.

Lemma chunks_tail_range l :
  Forall (fun y => 0 <= y < 2 ^ 64) (chunks_tail l).
Proof.
  assert (H8 : forall b, 0 <= byte_val b < 2 ^ 64).
  { intros b. pose proof (byte_val_range b). lia. }
  assert (H16 : forall b0 b1, 0 <= le_val [b0; b1] < 2 ^ 64).
  { intros. pose proof (le_val_range [b0; b1]) as H. simpl length in H.
    change (8 * Z.of_nat 2) with 16 in H. lia. }
  assert (H32 : forall b0 b1 b2 b3, 0 <= le_val [b0; b1; b2; b3] < 2 ^ 64).
  { intros. pose proof (le_val_range [b0; b1; b2; b3]) as H. simpl length in H.
    change (8 * Z.of_nat 4) with 32 in H. lia. }
  destruct l as [| b0 [| b1 [| b2 [| b3 [| b4 [| b5 [| b6 [| b7 rest]]]]]]]];
    cbn [chunks_tail];
    repeat first [apply List.Forall_nil | apply List.Forall_cons; [solve [auto] |]].
Qed.

Lemma chunks_range buf : Forall (fun y => 0 <= y < 2 ^ 64) (chunks buf).
Proof.
  unfold chunks.
  induction buf as [l Hl | b0 b1 b2 b3 b4 b5 b6 b7 rest IH] using list_ind8.
  - rewrite chunks64_short by exact Hl. apply chunks_tail_range.
  - cbn [chunks64]. destruct (chunks64 rest) as [ws tl].
    cbn [app]. constructor; [| exact IH].
    pose proof (le_val_range [b0; b1; b2; b3; b4; b5; b6; b7]) as H.
    exact H.
Qed.

End CsumFacts.

Section CsumCongruence.

Import Vnet Ref.

Lemma chunks_cons8 b0 b1 b2 b3 b4 b5 b6 b7 rest :
  chunks (b0 :: b1 :: b2 :: b3 :: b4 :: b5 :: b6 :: b7 :: rest)
    = le_val [b0; b1; b2; b3; b4; b5; b6; b7] :: chunks rest.
Proof.
  unfold chunks. cbn [chunks64]. destruct (chunks64 rest) as [ws tl].
  reflexivity.
Qed.

Lemma le_val_cons8 b0 b1 b2 b3 b4 b5 b6 b7 rest :
  le_val (b0 :: b1 :: b2 :: b3 :: b4 :: b5 :: b6 :: b7 :: rest)
    = le_val [b0; b1; b2; b3; b4; b5; b6; b7] + 2 ^ 64 * le_val rest.
Proof.
  change (b0 :: b1 :: b2 :: b3 :: b4 :: b5 :: b6 :: b7 :: rest)
    with ([b0; b1; b2; b3; b4; b5; b6; b7] ++ rest).
  rewrite le_val_app. reflexivity.
Qed.

(** The words [vnet_csum] adds up and the buffer read as one
    little-endian number agree modulo [2^16 - 1], and vanish together. *)
Lemma chunks_le_val buf :
  0 <= zsum (chunks buf) /\
  (zsum (chunks buf) = 0 <-> le_val buf = 0) /\
  (zsum (chunks buf) - le_val buf) mod 65535 = 0.
Proof.
  induction buf as [l Hl | b0 b1 b2 b3 b4 b5 b6 b7 rest IH] using list_ind8.
  - unfold chunks. rewrite chunks64_short by exact Hl. cbn [app].
    destruct l as [| b0 [| b1 [| b2 [| b3 [| b4 [| b5 [| b6 [| b7 rest]]]]]]]];
      [| | | | | | | | simpl in Hl; lia];
      cbn [chunks_tail zsum fold_right le_val];
      try pose proof (byte_val_range b0); try pose proof (byte_val_range b1);
      try pose proof (byte_val_range b2); try pose proof (byte_val_range b3);
      try pose proof (byte_val_range b4); try pose proof (byte_val_range b5);
      try pose proof (byte_val_range b6);
      (split; [lia |]); (split; [lia |]);
      Z.div_mod_to_equations; lia.
  - rewrite le_val_cons8, chunks_cons8. cbn [zsum fold_right].
    fold (zsum (chunks rest)).
    destruct IH as (Hnn & Hz & Hc).
    pose proof (le_val_range [b0; b1; b2; b3; b4; b5; b6; b7]) as Hw.
    pose proof (le_val_range rest) as Hr.
    set (c := le_val [b0; b1; b2; b3; b4; b5; b6; b7]) in *.
    set (Sm := zsum (chunks rest)) in *. set (L := le_val rest) in *.
    change (2 ^ 64) with 18446744073709551616.
    split; [lia |]. split; [lia |].
    apply Z.mod_divide in Hc; [| lia]. destruct Hc as [k Hk].
    apply Z.mod_divide; [lia |].
    exists (k - 281479271743489 * L). lia.
Qed.

(** The same for the 16-bit words. *)
Lemma words16_le_val buf :
  0 <= zsum (words16 buf) /\
  (zsum (words16 buf) = 0 <-> le_val buf = 0) /\
  (zsum (words16 buf) - le_val buf) mod 65535 = 0.
Proof.
  induction buf as [| b | b0 b1 rest IH] using list_ind2.
  - simpl. split; [lia |]. split; [tauto | reflexivity].
  - cbn [words16 zsum fold_right le_val]. pose proof (byte_val_range b).
    split; [lia |]. split; [lia |]. Z.div_mod_to_equations; lia.
  - cbn [words16 zsum fold_right le_val]. fold (zsum (words16 rest)).
    destruct IH as (Hnn & Hz & Hc).
    pose proof (byte_val_range b0). pose proof (byte_val_range b1).
    pose proof (le_val_range rest) as Hr.
    set (Sm := zsum (words16 rest)) in *. set (L := le_val rest) in *.
    split; [lia |]. split; [lia |].
    apply Z.mod_divide in Hc; [| lia]. destruct Hc as [k Hk].
    apply Z.mod_divide; [lia |].
    exists (k - L). lia.
Qed.

Lemma words16_range buf : Forall (fun y => 0 <= y < 2 ^ 16) (words16 buf).
Proof.
  induction buf as [| b | b0 b1 rest IH] using list_ind2.
  - apply List.Forall_nil.
  - apply List.Forall_cons; [| apply List.Forall_nil].
    pose proof (byte_val_range b). lia.
  - cbn [words16]. apply List.Forall_cons; [| exact IH].
    pose proof (le_val_range [b0; b1]) as H. exact H.
Qed.

(** Folding a double-width value once, with end-around carry. *)
Lemma eac_fold_step w s :
  0 < w -> 0 <= s < 2 ^ w * 2 ^ w ->
  eac_add w (s mod 2 ^ w) (s / 2 ^ w) = oc_norm (2 ^ w - 1) s.
Proof.
  intros Hw Hs.
  assert (Hb : 2 <= 2 ^ w).
  { change 2 with (2 ^ 1) at 1. apply Z.pow_le_mono_r; lia. }
  pose proof (Z.mod_pos_bound s (2 ^ w) ltac:(lia)) as Hm.
  assert (Hd : 0 <= s / 2 ^ w < 2 ^ w).
  { split; [apply Z.div_pos; lia | apply Z.div_lt_upper_bound; lia]. }
  rewrite eac_add_norm by lia.
  pose proof (Z.div_mod s (2 ^ w) ltac:(lia)) as Hdm.
  apply oc_norm_congr; [lia | nia |].
  replace (s mod 2 ^ w + s / 2 ^ w - s) with ((- (s / 2 ^ w)) * (2 ^ w - 1)) by lia.
  apply Z_mod_mult.
Qed.

Lemma shiftr_div s n : 0 <= n -> Z.shiftr s n = s / 2 ^ n.
Proof. intros. apply Z.shiftr_div_pow2. assumption. Qed.

Lemma not16_sub x : 0 <= x <= 65535 -> not16 x = 65535 - x.
Proof.
  intros Hx. unfold not16. change 0xffff with (Z.ones 16).
  rewrite Z.land_ones by lia. change (Z.ones 16) with 65535.
  unfold Z.lnot, Z.pred.
  symmetry. apply (Z.mod_unique_pos (- x + -1) (2 ^ 16) (-1)); lia.
Qed.

(** The code's fold-down is the specification's. *)
Lemma csum_fold_down_spec s :
  0 <= s < 2 ^ 64 -> csum_fold_down s = not16 (fold_down s).
Proof.
  intros Hs. unfold csum_fold_down, fold_down, wrap32, wrap16, wrap.
  rewrite !shiftr_div by lia.
  pose proof (Z.mod_pos_bound s (2 ^ 32) ltac:(lia)) as Hm.
  assert (Hd : 0 <= s / 2 ^ 32 < 2 ^ 32).
  { split; [apply Z.div_pos; lia | apply Z.div_lt_upper_bound; lia]. }
  rewrite (Z.mod_small (s / 2 ^ 32)) by lia.
  rewrite (add_carry_eac 32) by lia.
  set (s32 := eac_add 32 (s mod 2 ^ 32) (s / 2 ^ 32)).
  assert (H32 : 0 <= s32 < 2 ^ 32).
  { unfold s32. rewrite eac_add_norm by lia.
    pose proof (oc_norm_range (2 ^ 32 - 1) (s mod 2 ^ 32 + s / 2 ^ 32)
                  ltac:(lia) ltac:(lia)). lia. }
  pose proof (Z.mod_pos_bound s32 (2 ^ 16) ltac:(lia)) as Hm16.
  assert (Hd16 : 0 <= s32 / 2 ^ 16 < 2 ^ 16).
  { split; [apply Z.div_pos; lia | apply Z.div_lt_upper_bound; lia]. }
  rewrite (Z.mod_small (s32 / 2 ^ 16)) by lia.
  rewrite (add_carry_eac 16) by lia.
  unfold not16. change 0xffff with (Z.ones 16).
  rewrite Z.land_ones by lia. reflexivity.
Qed.

(** Folded down, a 64-bit one's-complement sum is the 16-bit one. *)
Lemma fold_down_norm n :
  0 <= n -> fold_down (oc_norm (2 ^ 64 - 1) n) = oc_norm 65535 n.
Proof.
  intros Hn. unfold fold_down.
  pose proof (oc_norm_range (2 ^ 64 - 1) n ltac:(lia) Hn) as Hr.
  set (s := oc_norm (2 ^ 64 - 1) n) in *.
  rewrite (eac_fold_step 32 s) by lia.
  pose proof (oc_norm_range (2 ^ 32 - 1) s ltac:(lia) ltac:(lia)) as Hr32.
  rewrite (eac_fold_step 16 (oc_norm (2 ^ 32 - 1) s)) by lia.
  change (2 ^ 16 - 1) with 65535.
  rewrite (oc_norm_divide 65535 (2 ^ 32 - 1) s); try lia.
  - unfold s. apply oc_norm_divide; try lia.
    exists 281479271743489. reflexivity.
  - exists 65537. reflexivity.
Qed.

End CsumCongruence.

Section ReceiveFacts.

Import Vnet Ref Samples.

Lemma fold64_norm buf :
  fold64 buf = oc_norm (2 ^ 64 - 1) (zsum (chunks buf)).
Proof.
  destruct (fold_eac_norm 64 (chunks buf) ltac:(lia) (chunks_range buf) 0 ltac:(lia))
    as [H _].
  exact H.
Qed.

Lemma csum_accumulate_fold64 buf : csum_accumulate buf = fold64 buf.
Proof.
  rewrite csum_accumulate_chunks. unfold fold64.
  apply fold_add_carry_eac; [lia | apply chunks_range | lia].
Qed.

(** [vnet_csum] is the fold the specification describes. *)
Lemma vnet_csum_fold buf : vnet_csum buf = csum_fold buf.
Proof.
  unfold vnet_csum, csum_fold. rewrite csum_accumulate_fold64.
  apply csum_fold_down_spec. rewrite fold64_norm.
  destruct (chunks_le_val buf) as (Hnn & _ & _).
  pose proof (oc_norm_range (2 ^ 64 - 1) (zsum (chunks buf)) ltac:(lia) Hnn).
  lia.
Qed.

Lemma ones_sum16_norm buf :
  ones_sum16 buf = oc_norm 65535 (zsum (words16 buf)).
Proof.
  destruct (fold_eac_norm 16 (words16 buf) ltac:(lia) (words16_range buf) 0 ltac:(lia))
    as [H _].
  exact H.
Qed.

(** That fold is the one's-complement sum of the buffer's 16-bit words. *)
Lemma fold_down_ones_sum16 buf : fold_down (fold64 buf) = ones_sum16 buf.
Proof.
  destruct (chunks_le_val buf) as (Hc0 & Hcz & Hcm).
  destruct (words16_le_val buf) as (Hw0 & Hwz & Hwm).
  rewrite fold64_norm, fold_down_norm by exact Hc0.
  rewrite ones_sum16_norm.
  apply oc_norm_congr; [lia | tauto |].
  apply Z.mod_divide in Hcm; [| lia]. apply Z.mod_divide in Hwm; [| lia].
  destruct Hcm as [k1 H1], Hwm as [k2 H2].
  apply Z.mod_divide; [lia |]. exists (k1 - k2). lia.
Qed.

Lemma vnet_csum_range buf : 0 <= vnet_csum buf < 2 ^ 16.
Proof. unfold vnet_csum, csum_fold_down. apply wrap_range. lia. Qed.

Lemma region_inside m off n :
  0 <= off -> 0 <= n -> off + n <= Z.of_nat (length m) ->
  region m off n = Some (take (Z.to_nat n) (drop (Z.to_nat off) m)).
Proof.
  intros Ho Hn Hl. unfold region.
  destruct (Z.leb_spec 0 off); [| lia].
  destruct (Z.leb_spec 0 n); [| lia].
  destruct (Z.leb_spec (off + n) (Z.of_nat (length m))); [| lia].
  reflexivity.
Qed.

(** A 16-bit store inside the buffer, read back. *)
Lemma store16_inside m off v :
  0 <= off -> off + 2 <= Z.of_nat (length m) -> 0 <= v < 2 ^ 16 ->
  exists m' lo hi,
    store16 m off v = Some m' /\
    m' !! Z.to_nat off = Some lo /\ m' !! S (Z.to_nat off) = Some hi /\
    le_val [lo; hi] = v /\
    (forall i, i <> Z.to_nat off -> i <> S (Z.to_nat off) -> m' !! i = m !! i).
Proof.
  intros Ho Hl Hv. unfold store16.
  destruct (Z.leb_spec 0 off); [| lia].
  destruct (Z.leb_spec (off + 2) (Z.of_nat (length m))); [| lia].
  simpl. eexists _, (byte_of v), (byte_of (Z.shiftr v 8)).
  split; [reflexivity |]. split; [| split; [| split]].
  - rewrite list_lookup_insert_ne by lia.
    apply list_lookup_insert_eq. lia.
  - apply list_lookup_insert_eq. rewrite length_insert. lia.
  - cbn [le_val]. rewrite !byte_val_of, shiftr_div by lia.
    change (2 ^ 8) with 256.
    assert (Hd : 0 <= v / 256 < 256).
    { split; [apply Z.div_pos; lia | apply Z.div_lt_upper_bound; lia]. }
    rewrite (Z.mod_small (v / 256)) by lia.
    pose proof (Z.div_mod v 256 ltac:(lia)). lia.
  - intros i H1 H2. rewrite !list_lookup_insert_ne by lia. reflexivity.
Qed.

(** With at least two bytes of payload the bounds test of [input] is the
    one the specification states: in bounds, the checksum from
    [csum_start] on is stored at [csum_start + csum_offset] and the
    buffer goes to the stack. *)
Lemma input_csum_in_bounds net_header_len x len stack_ok :
  Z.land (flags (hdr x)) VIRTIO_NET_HDR_F_NEEDS_CSUM <> 0 ->
  2 <= len -> len <= pbuf_len x -> len <= Z.of_nat (length (mem x)) ->
  len < 2 ^ 64 ->
  0 <= csum_start (hdr x) -> 0 <= csum_offset (hdr x) ->
  csum_start (hdr x) + csum_offset (hdr x) <= len - 2 ->
  exists m lo hi,
    input net_header_len x (net_header_len + len) stack_ok
      = ToStack len m stack_ok /\
    m !! Z.to_nat (csum_start (hdr x) + csum_offset (hdr x)) = Some lo /\
    m !! S (Z.to_nat (csum_start (hdr x) + csum_offset (hdr x))) = Some hi /\
    le_val [lo; hi]
      = vnet_csum (take (Z.to_nat (len - csum_start (hdr x)))
                     (drop (Z.to_nat (csum_start (hdr x))) (mem x))) /\
    (forall i,
       i <> Z.to_nat (csum_start (hdr x) + csum_offset (hdr x)) ->
       i <> S (Z.to_nat (csum_start (hdr x) + csum_offset (hdr x))) ->
       m !! i = mem x !! i).
Proof.
  intros Hflag H2 Hp Hm H64 Hs Ho Hb. unfold input.
  replace (net_header_len + len - net_header_len) with len by lia.
  unfold wrap64. rewrite !wrap_small by lia.
  destruct (Z.leb_spec len (pbuf_len x)); [| lia]. simpl.
  destruct (Z.eqb_spec (Z.land (flags (hdr x)) VIRTIO_NET_HDR_F_NEEDS_CSUM) 0);
    [contradiction |]. simpl.
  destruct (Z.leb_spec (csum_start (hdr x) + csum_offset (hdr x)) (len - 2));
    [| lia].
  rewrite region_inside by lia.
  set (bytes := take _ _).
  destruct (store16_inside (mem x) (csum_start (hdr x) + csum_offset (hdr x))
              (vnet_csum bytes) ltac:(lia) ltac:(lia) (vnet_csum_range bytes))
    as (m & lo & hi & Hst & Hlo & Hhi & Hval & Hrest).
  rewrite Hst. exists m, lo, hi. auto.
Qed.

(** ...and out of bounds the buffer is released without reaching it. *)
Lemma input_csum_out_of_bounds net_header_len x len stack_ok :
  Z.land (flags (hdr x)) VIRTIO_NET_HDR_F_NEEDS_CSUM <> 0 ->
  2 <= len -> len <= pbuf_len x -> len < 2 ^ 64 ->
  len - 2 < csum_start (hdr x) + csum_offset (hdr x) ->
  input net_header_len x (net_header_len + len) stack_ok = Released.
Proof.
  intros Hflag H2 Hp H64 Hb. unfold input.
  replace (net_header_len + len - net_header_len) with len by lia.
  unfold wrap64. rewrite !wrap_small by lia.
  destruct (Z.leb_spec len (pbuf_len x)); [| lia]. simpl.
  destruct (Z.eqb_spec (Z.land (flags (hdr x)) VIRTIO_NET_HDR_F_NEEDS_CSUM) 0);
    [contradiction |]. simpl.
  destruct (Z.leb_spec (csum_start (hdr x) + csum_offset (hdr x)) (len - 2));
    [lia | reflexivity].
Qed.

(** C6. The specification's bounds rule covers payloads shorter than
    two bytes. There
    [len - sizeof(u16)] wraps round in 64 bits and the bounds test of
    [input] lets every offset through: for a one-byte payload with
    [NEEDS_CSUM], [csum_start = 0] and [csum_offset = 0], two bytes are
    stored at offset 0 (one of them past the payload) and the buffer is
    handed to the stack; with [csum_offset = 1000] the store lands a
    thousand bytes past the payload; with [csum_start = 100] the sum is
    taken over [2^64 - 99] bytes, past the end of the buffer. In none of
    the three cases is the buffer released. *)
Theorem input_short_payload_not_dropped :
  input 12 (short_frame 0 0) 13 true
    = ToStack 1 (xba :: xff :: replicate 1522 x00) true /\
  (exists m, input 12 (short_frame 0 1000) 13 true = ToStack 1 m true /\
             m !! 1000%nat = Some xba /\ m !! 1001%nat = Some xff) /\
  input 12 (short_frame 100 0) 13 true = OutOfBuffer /\
  ~ (0 + 0 <= 1 - 2).
Proof.
  split; [vm_compute; reflexivity |].
  split; [eexists; split; [vm_compute; reflexivity | split; reflexivity] |].
  split; [vm_compute; reflexivity | lia].
Qed.

(** C7. [vnet_csum] is the bitwise NOT of the fold the specification
    describes (64-bit accumulation of the 64-bit words and of a trailing
    32-bit word, 16-bit word and byte, then folds to 32 and to 16 bits,
    every addition with end-around carry), which in turn is the
    one's-complement sum of the buffer's little-endian 16-bit words. On
    a 60-byte frame with [NEEDS_CSUM], [csum_start = 14] and
    [csum_offset = 16], the 16-bit word that [input] leaves at offset 30
    is that checksum of bytes 14 to 59, and no other byte changes. *)
Theorem vnet_csum_ones_complement :
  (forall buf,
     vnet_csum buf = csum_fold buf /\
     vnet_csum buf = not16 (ones_sum16 buf) /\
     vnet_csum buf = 65535 - ones_sum16 buf) /\
  (forall net_header_len x stack_ok,
     Z.land (flags (hdr x)) VIRTIO_NET_HDR_F_NEEDS_CSUM <> 0 ->
     csum_start (hdr x) = 14 -> csum_offset (hdr x) = 16 ->
     60 <= pbuf_len x -> 60 <= Z.of_nat (length (mem x)) ->
     exists m lo hi,
       input net_header_len x (net_header_len + 60) stack_ok
         = ToStack 60 m stack_ok /\
       m !! 30%nat = Some lo /\ m !! 31%nat = Some hi /\
       le_val [lo; hi] = not16 (ones_sum16 (take 46 (drop 14 (mem x)))) /\
       (forall i, i <> 30%nat -> i <> 31%nat -> m !! i = mem x !! i)).
Proof.
  split.
  - intros buf.
    assert (H : vnet_csum buf = not16 (ones_sum16 buf)).
    { rewrite vnet_csum_fold. unfold csum_fold.
      rewrite fold_down_ones_sum16. reflexivity. }
    split; [apply vnet_csum_fold |]. split; [exact H |].
    rewrite H. apply not16_sub.
    destruct (words16_le_val buf) as (Hw0 & _ & _).
    rewrite ones_sum16_norm.
    pose proof (oc_norm_range 65535 (zsum (words16 buf)) ltac:(lia) Hw0).
    lia.
  - intros net_header_len x stack_ok Hflag Hs Ho Hp Hm.
    destruct (input_csum_in_bounds net_header_len x 60 stack_ok)
      as (m & lo & hi & Hin & Hlo & Hhi & Hval & Hrest); try lia; try assumption.
    rewrite Hs, Ho in *. exists m, lo, hi.
    split; [exact Hin |]. split; [exact Hlo |]. split; [exact Hhi |].
    split; [| exact Hrest].
    rewrite Hval. change (Z.to_nat (60 - 14)) with 46%nat.
    change (Z.to_nat 14) with 14%nat.
    rewrite vnet_csum_fold. unfold csum_fold.
    rewrite fold_down_ones_sum16. reflexivity.
Qed.

Lemma vnet_csum_ones_complement_witness :
  exists m lo hi,
    input 12 frame60 (12 + 60) true = ToStack 60 m true /\
    m !! 30%nat = Some lo /\ m !! 31%nat = Some hi /\
    le_val [lo; hi] = not16 (ones_sum16 (take 46 (drop 14 (mem frame60)))) /\
    (forall i, i <> 30%nat -> i <> 31%nat -> m !! i = mem frame60 !! i).
Proof.
  apply (proj2 vnet_csum_ones_complement 12 frame60 true).
  - vm_compute. discriminate.
  - reflexivity.
  - reflexivity.
  - vm_compute. discriminate.
  - vm_compute. discriminate.
Defined.

Example vnet_csum_empty : vnet_csum [] = 0xffff.
Proof. reflexivity. Qed.

Example vnet_csum_all_ones : vnet_csum (replicate 15 xff) = 0xff00.
Proof. vm_compute. reflexivity. Qed.

Example vnet_csum_fifteen :
  vnet_csum [x01; x02; x03; x04; x05; x06; x07; x08;
             x09; x0a; x0b; x0c; x0d; x0e; x0f] = 65535 - 14400.
Proof. vm_compute. reflexivity. Qed.

Example frame60_checksum :
  exists m, input 12 frame60 72 true = ToStack 60 m true /\
            m !! 30%nat = Some xa9 /\ m !! 31%nat = Some x92.
Proof.
  eexists. split; [vm_compute; reflexivity |]. split; reflexivity.
Qed.

End ReceiveFacts.

(** ** The copy loop of the harvest *)

Section HarvestFacts.

Import Aio Ref.

(** [aio_nr] iterations are enough: the loop of [io_getevents_bh] stops
    because the ring is drained, because [nr] events were copied, or on
    a fault, never because the bound of the model ran out. *)
Lemma harvest_exits a_nr bound_nr ufault tail n :
  0 < a_nr < 2 ^ 32 -> 0 <= tail < a_nr ->
  forall head copied r dst,
    0 <= head < a_nr ->
    pending a_nr tail head <= Z.of_nat n ->
    let '(head', copied', _, _, faulted) :=
      harvest n a_nr bound_nr ufault tail head copied r dst in
    faulted = true \/ head' = tail \/ copied' = bound_nr.
Proof.
  intros Hnr Ht. unfold pending.
  induction n as [| n IH]; intros head copied r dst Hh Hp.
  - simpl. right. left.
    destruct (Z.leb_spec head tail); lia.
  - cbn [harvest].
    destruct (Z.eqb_spec head tail) as [E | NE]; [right; left; exact E |].
    destruct (events_non_null dst && ufault copied); [left; reflexivity |].
    destruct (copy_event head copied r dst) as [r1 dst1].
    rewrite (wrap32_small (head + 1)) by lia.
    destruct (Z.eqb_spec (wrap32 (copied + 1)) bound_nr) as [Eb | NEb];
      [right; right; exact Eb |].
    apply IH.
    + destruct (Z.eqb_spec (head + 1) a_nr); lia.
    + destruct (Z.eqb_spec (head + 1) a_nr);
        destruct (Z.leb_spec head tail);
        repeat match goal with
               | |- context [?x <=? ?y] => destruct (Z.leb_spec x y)
               end; lia.
Qed.

Lemma harvest_exits_clamped a nr_max ufault copied dst :
  0 <= aio_nr a < 2 ^ 32 ->
  0 <= ring_head (ring a) -> 0 <= ring_tail (ring a) ->
  let head := if aio_nr a <=? ring_head (ring a) then 0 else ring_head (ring a) in
  let tail := if aio_nr a <=? ring_tail (ring a) then 0 else ring_tail (ring a) in
  let '(head', copied', _, _, faulted) :=
    harvest (Z.to_nat (aio_nr a)) (aio_nr a) nr_max ufault tail head copied
      (ring a) dst in
  faulted = true \/ head' = tail \/ copied' = nr_max.
Proof.
  intros Hnr Hh Ht head tail.
  destruct (Z.eq_dec (aio_nr a) 0) as [E0 | N0].
  - rewrite E0. simpl. right. left. unfold head, tail. rewrite E0.
    destruct (Z.leb_spec 0 (ring_head (ring a))); [| lia].
    destruct (Z.leb_spec 0 (ring_tail (ring a))); [| lia]. reflexivity.
  - assert (Hhr : 0 <= head < aio_nr a).
    { unfold head. destruct (Z.leb_spec (aio_nr a) (ring_head (ring a))); lia. }
    assert (Htr : 0 <= tail < aio_nr a).
    { unfold tail. destruct (Z.leb_spec (aio_nr a) (ring_tail (ring a))); lia. }
    apply harvest_exits; try lia.
    unfold pending. destruct (Z.leb_spec head tail); lia.
Qed.

End HarvestFacts.

(** * Further properties of the modelled code *)

(** ** Enqueue, completion and the in-flight count *)

Section EnqueueFacts.

Import Aio Inv.

(** A request that [iocb_enqueue] turns down, for whatever reason and at
    whatever stage, leaves the context exactly as it was: the slot and
    the reference taken before a late failure are given back. *)
Theorem iocb_enqueue_failure_restores a q :
  0 <= ongoing_ops a < 2 ^ 32 ->
  fst (iocb_enqueue a q) <> 0 ->
  snd (iocb_enqueue a q) = a.
Proof.
  exact (iocb_enqueue_undo a q).
Qed.

Lemma iocb_enqueue_failure_restores_witness :
  let r := mk_aio_ring 0 4 0 0 AIO_RING_MAGIC 1 0 32
             (replicate 127 (mk_io_event 0 0 0 0)) in
  let a := mk_aio r None 4 1 0 1 in
  let q := mk_request 4096 (mk_iocb 77 0 9 3 8192 16 0 0 0 0)
             true (Some (mk_fdesc true true true true)) false true true None in
  fst (iocb_enqueue a q) = - EINVAL /\ snd (iocb_enqueue a q) = a.
Proof.
  intros r a q. split; [reflexivity |].
  apply (iocb_enqueue_failure_restores a q).
  - simpl. lia.
  - vm_compute. discriminate.
Defined.

(** A request taken and left in flight costs one slot and one
    reference; its completion gives both back, whatever the result. *)
Theorem enqueue_complete_balance a q d o rv :
  0 <= ongoing_ops a < 2 ^ 32 ->
  fst (iocb_enqueue a q) = 0 ->
  req_sync q = None ->
  let a1 := snd (iocb_enqueue a q) in
  let a2 := aio_complete a1 d o rv in
  ongoing_ops a1 = ongoing_ops a + 1 /\ refcount a1 = refcount a + 1 /\
  ring a1 = ring a /\
  ongoing_ops a2 = ongoing_ops a /\ refcount a2 = refcount a /\
  aio_nr a2 = aio_nr a /\ ring_head (ring a2) = ring_head (ring a).
Proof.
  intros Ho Hrv Hsync a1 a2.
  destruct (iocb_enqueue_cases a q Ho) as [[Hne _] | (a' & Hs & H)];
    [contradiction |].
  unfold a2, a1. rewrite H. unfold dispatch. rewrite Hsync. cbn [snd].
  destruct (aio_take_slot_some a a' Hs) as [-> Hlt].
  pose proof (wrap_range 32 (aio_avail_events a - 1) ltac:(lia)) as Hw.
  fold wrap32 in Hw.
  simpl. rewrite (wrap32_small (ongoing_ops a + 1)) by lia.
  repeat split; try lia.
  replace (ongoing_ops a + 1 - 1) with (ongoing_ops a) by lia.
  apply wrap32_small. exact Ho.
Qed.

Lemma enqueue_complete_balance_witness :
  let r := mk_aio_ring 0 4 0 0 AIO_RING_MAGIC 1 0 32
             (replicate 127 (mk_io_event 0 0 0 0)) in
  let a := mk_aio r None 4 1 0 1 in
  let a1 := snd (iocb_enqueue a (Samples.sample_request 0)) in
  ongoing_ops a1 = 2 /\ refcount a1 = 2 /\
  ongoing_ops (aio_complete a1 77 4096 16) = 1 /\
  refcount (aio_complete a1 77 4096 16) = 1.
Proof.
  intros r a a1.
  destruct (enqueue_complete_balance a (Samples.sample_request 0) 77 4096 16)
    as (H1 & H2 & _ & H3 & H4 & _).
  - simpl. lia.
  - reflexivity.
  - reflexivity.
  - auto.
Defined.

End EnqueueFacts.

(** ** The free-slot invariant *)

Section InvariantFacts.

Import Aio Inv.

Lemma ring_inv_ext a b :
  ring b = ring a -> aio_nr b = aio_nr a -> ongoing_ops b = ongoing_ops a ->
  ring_inv a -> ring_inv b.
Proof.
  intros Hr Hn Ho. unfold ring_inv, Ref.ring_in_range, queued.
  rewrite Hr, Hn, Ho. tauto.
Qed.

(** On a ring with indices in range the free slots the code counts are
    the slots that hold no waiting event. *)
Lemma aio_avail_events_queued a :
  Ref.ring_in_range a -> aio_avail_events a = aio_nr a - queued a.
Proof.
  intros Hr. destruct (aio_avail_events_in_range a Hr) as [-> _].
  destruct Hr as (Hh & Ht & Hnr & _).
  unfold Ref.available_slots, queued, Ref.pending.
  set (h := ring_head (ring a)) in *. set (t := ring_tail (ring a)) in *.
  set (n := aio_nr a) in *.
  destruct (Z.leb_spec h t) as [Hle | Hgt].
  - destruct (Z.eq_dec h t) as [-> | Hne].
    + rewrite Z.sub_diag, Z.mod_0_l by lia. simpl. lia.
    + assert (Hm : (h - t) mod n = h - t + n).
      { symmetry. apply (Z.mod_unique_pos (h - t) n (-1)); lia. }
      rewrite Hm. destruct (Z.eqb_spec (h - t + n) 0); lia.
  - rewrite (Z.mod_small (h - t) n) by lia.
    destruct (Z.eqb_spec (h - t) 0); lia.
Qed.

(** The slot test alone establishes the invariant: whatever was in
    flight before, a request is let in only if afterwards the requests in
    flight and the waiting events leave one slot free. *)
Lemma aio_take_slot_inv a a1 :
  Ref.ring_in_range a -> aio_take_slot a = Some a1 ->
  ring_inv a1 /\ ongoing_ops a1 = ongoing_ops a + 1 /\ 1 <= ongoing_ops a1.
Proof.
  intros Hr Hs. destruct (aio_take_slot_some a a1 Hs) as [-> Hlt].
  rewrite (aio_avail_events_queued a Hr) in Hlt.
  pose proof Hr as (Hh & Ht & Hnr & Ho).
  assert (Hq : 0 <= queued a < aio_nr a).
  { unfold queued, Ref.pending.
    destruct (Z.leb_spec (ring_head (ring a)) (ring_tail (ring a))); lia. }
  rewrite wrap32_small in Hlt by lia.
  unfold ring_inv, Ref.ring_in_range, queued. simpl.
  rewrite (wrap32_small (ongoing_ops a + 1)) by lia.
  fold (queued a). repeat split; lia.
Qed.

(** The effect of one completion on a ring that satisfies the invariant. *)
Lemma aio_complete_inv a d o rv :
  ring_inv a -> 1 <= ongoing_ops a ->
  let a' := aio_complete a d o rv in
  ring_inv a' /\
  ongoing_ops a' = ongoing_ops a - 1 /\
  queued a' = queued a + 1 /\
  ring_events (ring a')
    = alter (fill_event d o rv) (Z.to_nat (ring_tail (ring a)))
        (ring_events (ring a)) /\
  (forall i, 0 <= i < queued a ->
             ring_events (ring a') !! slot_after a i
               = ring_events (ring a) !! slot_after a i).
Proof.
  intros [Hr Hinv] Hone a'.
  pose proof Hr as (Hh & Ht & Hnr & Ho).
  destruct (aio_complete_fields a d o rv) as (Hops & Hn & _ & Hhead & Hevs & Hnew).
  fold a' in Hops, Hn, Hhead, Hevs, Hnew.
  assert (Hclamp : Ref.clamp_tail a = ring_tail (ring a)).
  { unfold Ref.clamp_tail.
    destruct (Z.leb_spec (aio_nr a) (ring_tail (ring a))); lia. }
  rewrite Hclamp in Hevs, Hnew.
  rewrite (wrap32_small (ring_tail (ring a) + 1)) in Hnew by lia.
  rewrite wrap32_small in Hops by lia.
  assert (Hq : queued a' = queued a + 1 /\ 0 <= ring_tail (ring a') < aio_nr a).
  { unfold queued, Ref.pending in *. rewrite Hn, Hhead, Hnew.
    destruct (Z.eqb_spec (ring_tail (ring a) + 1) (aio_nr a));
      destruct (Z.leb_spec (ring_head (ring a)) (ring_tail (ring a)));
      repeat match goal with
             | |- context [?x <=? ?y] => destruct (Z.leb_spec x y)
             end; lia. }
  destruct Hq as [Hq Htail'].
  split; [| split; [exact Hops | split; [exact Hq | split; [exact Hevs |]]]].
  - unfold ring_inv, Ref.ring_in_range. fold (queued a').
    rewrite Hn, Hhead, Hops, Hq. repeat split; lia.
  - intros i Hi. rewrite Hevs. apply list_lookup_alter_ne.
    unfold slot_after, queued, Ref.pending in *.
    intros E. apply Z2Nat.inj in E; [| lia | apply Z.mod_pos_bound; lia].
    destruct (Z.leb_spec (ring_head (ring a)) (ring_tail (ring a))).
    + rewrite Z.mod_small in E by lia. lia.
    + destruct (Z.lt_ge_cases (ring_head (ring a) + i) (aio_nr a)).
      * rewrite Z.mod_small in E by lia. lia.
      * rewrite mod_once in E by lia. lia.
Qed.

(** A completion of a request in flight moves one unit from
    [ongoing_ops] to the ring: the invariant is kept, one more event
    waits, the slot written is the one at [tail], and no slot holding an
    event that was not harvested yet is written. *)
Theorem aio_complete_keeps_invariant a d o rv :
  ring_inv a -> 1 <= ongoing_ops a ->
  let a' := aio_complete a d o rv in
  ring_inv a' /\
  ongoing_ops a' = ongoing_ops a - 1 /\
  queued a' = queued a + 1 /\
  ring_events (ring a')
    = alter (fill_event d o rv) (Z.to_nat (ring_tail (ring a)))
        (ring_events (ring a)) /\
  (forall i, 0 <= i < queued a ->
             ring_events (ring a') !! slot_after a i
               = ring_events (ring a) !! slot_after a i).
Proof.
  exact (aio_complete_inv a d o rv).
Qed.

Lemma aio_complete_keeps_invariant_witness :
  let r := mk_aio_ring 0 4 3 0 AIO_RING_MAGIC 1 0 32
             (replicate 127 (mk_io_event 5 5 5 5)) in
  let a := mk_aio r None 4 2 0 3 in
  queued a = 1 /\ queued (aio_complete a 7 8 9) = 2 /\
  ring_events (ring (aio_complete a 7 8 9)) !! 3%nat = Some (mk_io_event 5 5 5 5).
Proof.
  intros r a.
  destruct (aio_complete_keeps_invariant a 7 8 9) as (_ & _ & Hq & _ & Hkeep).
  - unfold ring_inv, Ref.ring_in_range, queued, Ref.pending. simpl. lia.
  - simpl. lia.
  - split; [reflexivity |]. split; [exact Hq |].
    apply (Hkeep 0). vm_compute. split; [discriminate | reflexivity].
Defined.

(** [iocb_enqueue] keeps the invariant on every path: refusal, late
    failure, request left in flight, request completed at once. *)
Lemma iocb_enqueue_inv a q :
  ring_inv a -> ring_inv (snd (iocb_enqueue a q)).
Proof.
  intros Hinv. pose proof Hinv as [Hr _]. pose proof Hr as (_ & _ & _ & Ho).
  destruct (iocb_enqueue_cases a q Ho) as [[_ ->] | (a1 & Hs & ->)];
    [exact Hinv |].
  destruct (aio_take_slot_inv a a1 Hr Hs) as (Hinv1 & _ & Hone).
  assert (Hres : ring_inv (refcount_reserve a1)).
  { apply (ring_inv_ext a1); auto. }
  unfold dispatch. destruct (req_sync q) as [rv |]; cbn [snd]; [| exact Hres].
  apply aio_complete_inv; assumption.
Qed.

Lemma submit_loop_inv iocbpp n :
  forall i a, ring_inv a -> ring_inv (snd (submit_loop n iocbpp i a)).
Proof.
  induction n as [| n IH]; intros i a Hinv; [exact Hinv |].
  cbn [submit_loop].
  destruct (iocbpp !! Z.to_nat i) as [q |].
  - pose proof (iocb_enqueue_inv a q Hinv) as Hq.
    destruct (iocb_enqueue a q) as [rv a']. cbn [snd] in Hq.
    destruct (rv =? 0); [apply IH; exact Hq | exact Hq].
  - destruct (- EFAULT =? 0); [apply IH; exact Hinv | exact Hinv].
Qed.

(** [io_submit] on a live context whose ring satisfies the invariant
    returns with the invariant still holding, whatever the batch and
    however many of its requests complete at once; the other contexts of
    the process are not touched. *)
Theorem io_submit_keeps_invariant p ctx_id a nr iocbpp :
  p_aio p !! ctx_id = Some a ->
  ring_inv a ->
  exists rv p' a',
    io_submit true p ctx_id nr iocbpp = Ret rv p' /\
    p_aio p' !! ctx_id = Some a' /\ ring_inv a' /\
    (forall k, k <> ctx_id -> p_aio p' !! k = p_aio p !! k).
Proof.
  intros Hlive Hinv. unfold io_submit. cbn [negb].
  rewrite (aio_from_ring_id_live p ctx_id a Hlive). cbn [p_aio].
  rewrite lookup_insert_eq.
  assert (Hres : ring_inv (refcount_reserve a)).
  { apply (ring_inv_ext a); auto. }
  pose proof (submit_loop_inv iocbpp (Z.to_nat nr) 0 _ Hres) as Hl.
  destruct (submit_loop (Z.to_nat nr) iocbpp 0 (refcount_reserve a))
    as [io_ops a']. cbn [snd] in Hl.
  eexists _, _, (refcount_release a'). split; [reflexivity |].
  cbn [p_aio]. split; [apply lookup_insert_eq |].
  split; [apply (ring_inv_ext a'); auto |].
  intros k Hk. rewrite !lookup_insert_ne by congruence. reflexivity.
Qed.

Lemma io_submit_keeps_invariant_witness :
  let r := mk_aio_ring 0 3 0 0 AIO_RING_MAGIC 1 0 32
             (replicate 127 (mk_io_event 0 0 0 0)) in
  let p := mk_process (<[0 := mk_aio r None 3 0 0 1]> ∅) in
  let batch := [Samples.sample_request 0; Samples.sample_request 1;
                Samples.sample_request 0] in
  exists rv p' a',
    io_submit true p 0 3 batch = Ret rv p' /\
    p_aio p' !! 0 = Some a' /\ ring_inv a' /\
    (forall k, k <> 0 -> p_aio p' !! k = p_aio p !! k).
Proof.
  intros r p batch.
  apply (io_submit_keeps_invariant p 0 (mk_aio r None 3 0 0 1) 3 batch).
  - reflexivity.
  - unfold ring_inv, Ref.ring_in_range, queued, Ref.pending. simpl. lia.
Defined.

End InvariantFacts.

(** ** Harvesting in ring order *)

Section FifoFacts.

Import Aio Inv Ref.

Lemma pending_range nr tail head :
  0 < nr -> 0 <= tail < nr -> 0 <= head < nr ->
  0 <= pending nr tail head < nr /\
  (pending nr tail head = 0 <-> head = tail).
Proof.
  intros Hn Ht Hh. unfold pending.
  destruct (Z.leb_spec head tail); lia.
Qed.

Lemma pending_step nr tail head :
  0 < nr -> 0 <= tail < nr -> 0 <= head < nr -> head <> tail ->
  let head' := if head + 1 =? nr then 0 else head + 1 in
  pending nr tail head' = pending nr tail head - 1 /\
  0 <= head' < nr /\ head' = (head + 1) mod nr.
Proof.
  intros Hn Ht Hh Hne head'. unfold head', pending.
  destruct (Z.eqb_spec (head + 1) nr) as [E | NE].
  - rewrite E, Z.mod_same by lia.
    destruct (Z.leb_spec head tail); destruct (Z.leb_spec 0 tail); lia.
  - rewrite Z.mod_small by lia.
    destruct (Z.leb_spec head tail); destruct (Z.leb_spec (head + 1) tail); lia.
Qed.

(** The copy loop without faults, to an array apart from the ring: it
    copies [k] events, the smaller of the number waiting and the room
    left in the caller's array, from [head] on in ring order into
    [events[copied ..]], touches no other entry of that array and
    nothing of the ring, and leaves [head] advanced by [k]. *)
Lemma harvest_fifo a_nr bound r tail n :
  0 < a_nr < 2 ^ 32 -> 0 <= tail < a_nr ->
  a_nr <= Z.of_nat (length (ring_events r)) -> bound < 2 ^ 32 ->
  forall head copied (out : list io_event),
    0 <= head < a_nr -> 0 <= copied < bound ->
    bound <= Z.of_nat (length out) ->
    pending a_nr tail head <= Z.of_nat n ->
    let k := Z.min (pending a_nr tail head) (bound - copied) in
    exists out',
      harvest n a_nr bound (fun _ => false) tail head copied r (Apart out)
        = ((head + k) mod a_nr, copied + k, r, Apart out', false) /\
      length out' = length out /\
      (forall i, 0 <= i < k ->
         out' !! Z.to_nat (copied + i)
           = ring_events r !! Z.to_nat ((head + i) mod a_nr)) /\
      (forall j, (j < Z.to_nat copied)%nat \/ (Z.to_nat (copied + k) <= j)%nat ->
         out' !! j = out !! j).
Proof.
  intros Hnr Ht Hevs Hb.
  induction n as [| n IH]; intros head copied out Hh Hc Hout Hp k;
    destruct (pending_range a_nr tail head ltac:(lia) Ht Hh) as [Hpr Hp0].
  - assert (E : head = tail) by (apply Hp0; lia).
    assert (Hk : k = 0) by (unfold k; lia).
    rewrite Hk. exists out. cbn [harvest].
    rewrite Z.add_0_r, Z.mod_small by lia. rewrite Z.add_0_r.
    split; [reflexivity |]. split; [reflexivity |].
    split; [intros i Hi; lia | intros j _; reflexivity].
  - cbn [harvest].
    destruct (Z.eqb_spec head tail) as [E | NE].
    + assert (Hk : k = 0) by (unfold k; lia).
      rewrite Hk. exists out.
      rewrite Z.add_0_r, Z.mod_small by lia. rewrite Z.add_0_r.
      split; [reflexivity |]. split; [reflexivity |].
      split; [intros i Hi; lia | intros j _; reflexivity].
    + cbn [events_non_null andb].
      destruct (pending_step a_nr tail head ltac:(lia) Ht Hh NE)
        as (Hstep & Hh' & Hmod).
      rewrite (wrap32_small (head + 1)) by lia.
      rewrite (wrap32_small (copied + 1)) by lia.
      set (head' := if head + 1 =? a_nr then 0 else head + 1) in *.
      destruct (lookup_lt_is_Some_2 (ring_events r) (Z.to_nat head) ltac:(lia))
        as [e He].
      unfold copy_event. rewrite He. cbv beta iota zeta.
      assert (Hpos : 1 <= pending a_nr tail head) by lia.
      destruct (Z.eqb_spec (copied + 1) bound) as [Eb | NEb].
      * assert (Hk : k = 1) by (unfold k; lia).
        rewrite Hk. exists (<[Z.to_nat copied := e]> out).
        rewrite <- Hmod. split; [reflexivity |].
        split; [apply length_insert |]. split.
        -- intros i Hi. assert (i = 0) by lia. subst i.
           rewrite !Z.add_0_r, (Z.mod_small head) by lia.
           rewrite He. apply list_lookup_insert_eq. lia.
        -- intros j Hj. apply list_lookup_insert_ne. lia.
      * destruct (IH head' (copied + 1) (<[Z.to_nat copied := e]> out))
          as (out' & Hrun & Hlen & Hin & Hout');
          [exact Hh' | lia | rewrite length_insert; lia | lia |].
        rewrite Hstep in Hrun, Hin, Hout'.
        assert (Hk : Z.min (pending a_nr tail head - 1) (bound - (copied + 1)) = k - 1)
          by (unfold k; lia).
        rewrite Hk in Hrun, Hin, Hout'.
        exists out'. split.
        { rewrite Hrun.
          replace (copied + 1 + (k - 1)) with (copied + k) by lia.
          replace ((head' + (k - 1)) mod a_nr) with ((head + k) mod a_nr);
            [reflexivity |].
          rewrite Hmod, Z.add_mod_idemp_l by lia. f_equal. lia. }
        split; [rewrite Hlen; apply length_insert |]. split.
        { intros i Hi. destruct (Z.eq_dec i 0) as [-> | Hi0].
          - rewrite !Z.add_0_r, (Z.mod_small head) by lia.
            rewrite Hout' by lia. rewrite He.
            apply list_lookup_insert_eq. lia.
          - replace (copied + i) with (copied + 1 + (i - 1)) by lia.
            rewrite Hin by lia. f_equal. f_equal.
            rewrite Hmod, Z.add_mod_idemp_l by lia. f_equal. lia. }
        { intros j Hj. rewrite Hout' by lia.
          apply list_lookup_insert_ne. lia. }
Qed.

End FifoFacts.

Section BhFacts.

Import Aio Inv Ref.

Lemma pending_advance nr tail head k :
  0 < nr -> 0 <= tail < nr -> 0 <= head < nr ->
  0 <= k <= pending nr tail head ->
  pending nr tail ((head + k) mod nr) = pending nr tail head - k /\
  0 <= (head + k) mod nr < nr.
Proof.
  intros Hn Ht Hh Hk.
  split; [| apply Z.mod_pos_bound; lia].
  unfold pending in *.
  destruct (Z.lt_ge_cases (head + k) nr) as [Hlt | Hge].
  - rewrite Z.mod_small by lia.
    destruct (Z.leb_spec head tail); destruct (Z.leb_spec (head + k) tail); lia.
  - destruct (Z.leb_spec head tail); [lia |].
    rewrite mod_once by lia.
    destruct (Z.leb_spec (head + k - nr) tail); lia.
Qed.

(** One run of the harvest, to an array apart from the ring, on a ring
    that satisfies the invariant. *)
Lemma io_getevents_bh_run a min_nr nr out timeout flags :
  ring_inv a -> ring_mapped a ->
  0 <= copied_evts a < nr -> nr < 2 ^ 32 ->
  nr <= Z.of_nat (length out) ->
  BLOCKQ_ACTION_NULLIFY flags = false ->
  let k := Z.min (queued a) (nr - copied_evts a) in
  let a1 := set_copied_evts (copied_evts a + k)
              (set_ring (set_head_tail ((ring_head (ring a) + k) mod aio_nr a)
                           (ring_tail (ring a)) (ring a)) a) in
  exists out',
    io_getevents_bh a min_nr nr (Apart out) (fun _ => false) timeout flags
      = (if (copied_evts a + k <? min_nr)
            && negb (match timeout with Some 0 => true | _ => false end)
            && negb (BLOCKQ_ACTION_TIMEDOUT flags)
         then BhBlock a1 (Apart out')
         else BhDone (copied_evts a + k)
                (refcount_release (set_bq None a1)) (Apart out')) /\
    queued a1 = queued a - k /\
    ring_inv a1 /\
    length out' = length out /\
    (forall i, 0 <= i < k ->
       out' !! Z.to_nat (copied_evts a + i)
         = ring_events (ring a) !! slot_after a i) /\
    (forall j, (j < Z.to_nat (copied_evts a))%nat
               \/ (Z.to_nat (copied_evts a + k) <= j)%nat ->
       out' !! j = out !! j).
Proof.
  intros [Hr Hinv] Hmap Hc Hnr Hout Hnull k a1.
  pose proof Hr as (Hh & Ht & Hn31 & Ho).
  unfold queued in k, Hinv.
  destruct (pending_range (aio_nr a) (ring_tail (ring a)) (ring_head (ring a))
              ltac:(lia) Ht Hh) as [Hpr _].
  destruct (harvest_fifo (aio_nr a) nr (ring a) (ring_tail (ring a))
              (Z.to_nat (aio_nr a)) ltac:(lia) Ht Hmap Hnr (ring_head (ring a))
              (copied_evts a) out Hh Hc Hout ltac:(lia))
    as (out' & Hrun & Hlen & Hin & Hrest).
  fold k in Hrun, Hin, Hrest.
  assert (Hk : 0 <= k <= pending (aio_nr a) (ring_tail (ring a)) (ring_head (ring a)))
    by (unfold k; lia).
  destruct (pending_advance (aio_nr a) (ring_tail (ring a)) (ring_head (ring a)) k
              ltac:(lia) Ht Hh Hk) as [Hadv Hh'].
  exists out'. split.
  { unfold io_getevents_bh. rewrite Hnull.
    destruct (Z.leb_spec (aio_nr a) (ring_head (ring a))); [lia |].
    destruct (Z.leb_spec (aio_nr a) (ring_tail (ring a))); [lia |].
    rewrite Hrun. cbv iota. fold a1. reflexivity. }
  split; [exact Hadv |].
  split.
  { unfold ring_inv, ring_in_range.
    change (queued a1) with
      (pending (aio_nr a) (ring_tail (ring a))
         ((ring_head (ring a) + k) mod aio_nr a)).
    rewrite Hadv. cbn. repeat split; lia. }
  split; [exact Hlen |]. split; [exact Hin | exact Hrest].
Qed.

(** [io_getevents_bh], entered without [NULLIFY] on a ring that satisfies
    the invariant, with a caller's array apart from the ring, of at
    least [nr] entries, that does not fault. It copies [k] events, the
    smaller of the number waiting and the room left up to [nr], in ring
    order starting at [head], into the array from index [copied_evts] on
    and nowhere else. The context afterwards is the one before with
    [copied_evts] raised by [k] and [head] advanced by [k] modulo the
    slot count, and nothing else changed: slot count, [tail], event
    area, [ongoing_ops], block queue and reference count stay; the
    invariant is kept. The thread blocks on that context exactly when
    fewer than [min_nr] events have been copied in all, the timeout is
    not zero and the wait has not timed out; otherwise the total copied
    is the result, the block queue is cleared and one reference is
    dropped. *)
Theorem io_getevents_bh_harvests a min_nr nr out timeout flags :
  ring_inv a -> ring_mapped a ->
  0 <= copied_evts a < nr -> nr < 2 ^ 32 ->
  nr <= Z.of_nat (length out) ->
  BLOCKQ_ACTION_NULLIFY flags = false ->
  let k := Z.min (queued a) (nr - copied_evts a) in
  let a1 := set_copied_evts (copied_evts a + k)
              (set_ring (set_head_tail ((ring_head (ring a) + k) mod aio_nr a)
                           (ring_tail (ring a)) (ring a)) a) in
  exists out',
    io_getevents_bh a min_nr nr (Apart out) (fun _ => false) timeout flags
      = (if (copied_evts a + k <? min_nr)
            && negb (match timeout with Some 0 => true | _ => false end)
            && negb (BLOCKQ_ACTION_TIMEDOUT flags)
         then BhBlock a1 (Apart out')
         else BhDone (copied_evts a + k)
                (mk_aio (ring a1) None (aio_nr a) (ongoing_ops a)
                   (copied_evts a + k) (refcount a - 1))
                (Apart out')) /\
    (copied_evts a1 = copied_evts a + k /\
     ring_head (ring a1) = (ring_head (ring a) + k) mod aio_nr a /\
     ring_tail (ring a1) = ring_tail (ring a) /\
     ring_events (ring a1) = ring_events (ring a) /\
     aio_nr a1 = aio_nr a /\ ongoing_ops a1 = ongoing_ops a /\
     bq a1 = bq a /\ refcount a1 = refcount a) /\
    queued a1 = queued a - k /\
    ring_inv a1 /\
    length out' = length out /\
    (forall i, 0 <= i < k ->
       out' !! Z.to_nat (copied_evts a + i)
         = ring_events (ring a) !! slot_after a i) /\
    (forall j, (j < Z.to_nat (copied_evts a))%nat
               \/ (Z.to_nat (copied_evts a + k) <= j)%nat ->
       out' !! j = out !! j).
Proof.
  intros Hinv Hmap Hc Hnr Hout Hnull k a1.
  destruct (io_getevents_bh_run a min_nr nr out timeout flags
              Hinv Hmap Hc Hnr Hout Hnull)
    as (out' & Hrun & Hq & Hinv1 & Hlen & Hin & Hrest).
  exists out'. split; [exact Hrun |].
  split; [repeat split |].
  split; [exact Hq |]. split; [exact Hinv1 |].
  split; [exact Hlen |]. split; [exact Hin | exact Hrest].
Qed.

Lemma io_getevents_bh_harvests_witness :
  let ev n := mk_io_event n n n n in
  let r := mk_aio_ring 0 4 3 1 AIO_RING_MAGIC 1 0 32
             ([ev 10; ev 11; ev 12; ev 13] ++ replicate 123 (ev 0)) in
  let a := mk_aio r (Some 5) 4 1 0 2 in
  exists out',
    io_getevents_bh a 1 8 (Apart (replicate 8 (ev 0))) (fun _ => false) None
      (mk_bh_flags false false false)
      = BhDone 2 (mk_aio (set_head_tail 1 1 r) None 4 1 2 1) (Apart out') /\
    out' !! 0%nat = Some (ev 13) /\ out' !! 1%nat = Some (ev 10).
Proof.
  intros ev r a.
  destruct (io_getevents_bh_harvests a 1 8 (replicate 8 (ev 0)) None
              (mk_bh_flags false false false))
    as (out' & Hrun & _ & _ & _ & _ & Hin & _).
  - unfold ring_inv, ring_in_range, queued, pending. simpl. lia.
  - unfold ring_mapped. simpl. lia.
  - simpl. lia.
  - lia.
  - simpl. lia.
  - reflexivity.
  - exists out'. split; [exact Hrun |].
    split; [apply (Hin 0); vm_compute; split; [discriminate | reflexivity] |].
    apply (Hin 1); vm_compute; split; [discriminate | reflexivity].
Defined.

End BhFacts.

(** ** System calls on the table of contexts *)

Section TableFacts.

Import Aio Inv.






(** [io_destroy] of a live context. The call stops on an assertion when
    the table entry cannot be cleared or the closure of the completion
    cannot be allocated. Otherwise it takes the named context, and only
    it, out of the table; the caller parks for a drain exactly when
    requests are in flight, with [copied_evts] reset, the caller's block
    queue recorded and one reference taken, and with nothing in flight
    the table's reference is dropped at once and 0 returned. A second
    [io_destroy] of the same id finds nothing and returns [-EINVAL]
    without changing the table, whatever the allocators would answer. *)
Theorem io_destroy_removes env p id thread_bq a :
  p_aio p !! id = Some a ->
  let p' := mk_process (delete id (p_aio p)) in
  io_destroy env p (Some id) thread_bq
    = (if negb (vector_clear_ok env) || negb (destroy_closure env) then Halt
       else if ongoing_ops a =? 0 then Ret 0 (p', Some (refcount_release a))
       else Wait (p', Some (refcount_reserve
                              (set_bq (Some thread_bq) (set_copied_evts 0 a))))) /\
  p_aio p' !! id = None /\
  (forall k, k <> id -> p_aio p' !! k = p_aio p !! k) /\
  (forall env', io_destroy env' p' (Some id) thread_bq = Ret (- EINVAL) (p', None)).
Proof.
  intros Hlive p'. split; [| split; [| split]].
  - unfold io_destroy, io_destroy_internal. rewrite Hlive.
    destruct (vector_clear_ok env); cbn [negb orb]; [| reflexivity].
    destruct (destroy_closure env); cbn [negb]; [| reflexivity].
    destruct (ongoing_ops a =? 0); reflexivity.
  - apply lookup_delete_eq.
  - intros k Hk. apply lookup_delete_ne. congruence.
  - intros env'. unfold io_destroy. cbn [p_aio p'].
    rewrite lookup_delete_eq. reflexivity.
Qed.

Lemma io_destroy_removes_witness :
  let r := mk_aio_ring 0 2 0 0 AIO_RING_MAGIC 1 0 32 [] in
  let a := mk_aio r None 2 1 0 2 in
  let p := mk_process (<[3 := a]> ∅) in
  let p' := mk_process (delete 3 (p_aio p)) in
  io_destroy (mk_destroy_env true true) p (Some 3) 9
    = Wait (p', Some (mk_aio r (Some 9) 2 1 0 3)) /\
  io_destroy (mk_destroy_env true false) p (Some 3) 9 = Halt /\
  io_destroy (mk_destroy_env true true) p' (Some 3) 9 = Ret (- EINVAL) (p', None).
Proof.
  intros r a p p'.
  destruct (io_destroy_removes (mk_destroy_env true true) p 3 9 a eq_refl)
    as (H1 & _ & _ & H3).
  destruct (io_destroy_removes (mk_destroy_env true false) p 3 9 a eq_refl)
    as (H2 & _).
  split; [exact H1 |]. split; [exact H2 | apply H3].
Defined.

(** The results of [io_setup], case by case. *)
Lemma io_setup_cases env p nr_events :
  match io_setup env p nr_events with
  | Ret rv (p', out) =>
      (rv = 0 /\ ctx_idp_writable env = true /\ nr_events <> 0 /\
       exists key a,
         out = Some key /\ p_aio p' !! key = Some a /\
         (forall k, k <> key -> p_aio p' !! k = p_aio p !! k) /\
         refcount a = 1 /\ ongoing_ops a = 0 /\ bq a = None /\
         queued a = 0 /\ ring_nr (ring a) = aio_nr a) \/
      (p' = p /\ out = None /\
       ((rv = - EFAULT /\ ctx_idp_writable env = false) \/
        (rv = - EINVAL /\ ctx_idp_writable env = true /\ nr_events = 0) \/
        (rv = - ENOMEM /\ ctx_idp_writable env = true /\ nr_events <> 0)))
  | Halt =>
      ctx_idp_writable env = true /\ nr_events <> 0 /\ aio_alloc env = None
  | Wait _ | NullDeref => False
  end.
Proof.
  unfold io_setup.
  destruct (ctx_idp_writable env); cbn [negb]; cbv iota;
    [| right; split; [reflexivity |]; split; [reflexivity |]; left; auto].
  destruct (Z.eqb_spec nr_events 0) as [E | NE]; cbv iota;
    [right; split; [reflexivity |]; split; [reflexivity |]; right; left; auto |].
  cbv zeta.
  destruct (alloc_phys env (ring_alloc_size (wrap32 (nr_events + 1))));
    cbn [negb]; cbv iota;
    [| right; split; [reflexivity |]; split; [reflexivity |]; right; right; auto].
  destruct (map_phys env (ring_alloc_size (wrap32 (nr_events + 1)))) as [ctx |];
    cbv iota;
    [| right; split; [reflexivity |]; split; [reflexivity |]; right; right; auto].
  destruct (aio_alloc env) as [aio_id |]; cbv iota; [| auto].
  left. split; [reflexivity |]. split; [reflexivity |]. split; [exact NE |].
  eexists aio_id, _. split; [reflexivity |].
  split; [apply lookup_insert_eq |].
  split; [intros k Hk; apply lookup_insert_ne; congruence |].
  cbn. repeat split; reflexivity.
Qed.

(** Every way [io_setup] can end, by cause. An unwritable [ctx_idp]
    gives [-EFAULT], tested first, so also for [nr_events = 0]; then
    [nr_events = 0] gives [-EINVAL]; then pages that cannot be
    allocated, or allocated pages that cannot be mapped, give [-ENOMEM];
    in all these cases the table is unchanged and nothing is published.
    When the pages are mapped and [aio_alloc] fails, the call does not
    return an error: it stops on the assertion. When [aio_alloc] gives
    an id, the call returns 0 and the table has, under that id and with
    the other entries as before, a context of [nr_events + 1] slots
    (taken modulo [2^32]) on the mapped event area, with head and tail
    0, one reference, nothing in flight and no waiter. The call never
    parks the caller and never goes through a null pointer. *)
Theorem io_setup_outcomes env p nr_events :
  let nr := wrap32 (nr_events + 1) in
  let size := ring_alloc_size nr in
  (ctx_idp_writable env = false ->
   io_setup env p nr_events = Ret (- EFAULT) (p, None)) /\
  (ctx_idp_writable env = true -> nr_events = 0 ->
   io_setup env p nr_events = Ret (- EINVAL) (p, None)) /\
  (ctx_idp_writable env = true -> nr_events <> 0 ->
   alloc_phys env size = false \/ map_phys env size = None ->
   io_setup env p nr_events = Ret (- ENOMEM) (p, None)) /\
  (forall ctx,
     ctx_idp_writable env = true -> nr_events <> 0 ->
     alloc_phys env size = true -> map_phys env size = Some ctx ->
     (aio_alloc env = None -> io_setup env p nr_events = Halt) /\
     (forall key, aio_alloc env = Some key ->
        exists a,
          io_setup env p nr_events
            = Ret 0 (mk_process (<[key := a]> (p_aio p)), Some key) /\
          ring_events (ring a) = ring_events ctx /\
          aio_nr a = nr /\ ring_nr (ring a) = nr /\
          ring_head (ring a) = 0 /\ ring_tail (ring a) = 0 /\
          refcount a = 1 /\ ongoing_ops a = 0 /\ bq a = None)) /\
  match io_setup env p nr_events with
  | Wait _ | NullDeref => False
  | _ => True
  end.
Proof.
  intros nr size. unfold io_setup. fold nr. fold size.
  split; [| split; [| split; [| split]]].
  - intros ->. reflexivity.
  - intros -> ->. reflexivity.
  - intros -> NE H. cbn [negb].
    destruct (Z.eqb_spec nr_events 0) as [E | _]; [contradiction |].
    destruct (alloc_phys env size) eqn:Ha; cbn [negb]; [| reflexivity].
    destruct H as [H | ->]; [discriminate H | reflexivity].
  - intros ctx -> NE -> ->. cbn [negb].
    destruct (Z.eqb_spec nr_events 0) as [E | _]; [contradiction |].
    split.
    + intros ->. reflexivity.
    + intros key ->. eexists. split; [reflexivity |].
      cbn. repeat split; reflexivity.
  - destruct (ctx_idp_writable env); cbn [negb]; [| exact I].
    destruct (nr_events =? 0); [exact I |].
    destruct (alloc_phys env size); cbn [negb]; [| exact I].
    destruct (map_phys env size); [| exact I].
    destruct (aio_alloc env); exact I.
Qed.

Lemma io_setup_outcomes_witness :
  let env1 := mk_setup_env true (fun _ => true)
                (fun _ => Some (mk_aio_ring 0 0 0 0 0 0 0 0 []))
                false 0 (Some 0) true in
  let env2 := mk_setup_env true (fun _ => false) (fun _ => None)
                true 0 (Some 0) true in
  io_setup env1 (mk_process ∅) 1 = Halt /\
  io_setup env2 (mk_process ∅) 1 = Ret (- ENOMEM) (mk_process ∅, None).
Proof.
  intros env1 env2. split.
  - destruct (io_setup_outcomes env1 (mk_process ∅) 1) as (_ & _ & _ & H & _).
    assert (NE : 1 <> 0) by discriminate.
    destruct (H (mk_aio_ring 0 0 0 0 0 0 0 0 []) eq_refl NE eq_refl eq_refl)
      as [Hhalt _].
    apply Hhalt. reflexivity.
  - destruct (io_setup_outcomes env2 (mk_process ∅) 1) as (_ & _ & H & _).
    apply H; [reflexivity | discriminate | left; reflexivity].
Defined.

(** [io_setup] establishes the invariant: for a request of fewer than
    [2^31] events the new context has [nr_events + 1] slots, indices in
    range and an empty ring, and when the mapping holds the slots that
    fit in its size, all [nr] slots of the ring are inside it. *)
Theorem io_setup_establishes_invariant env p nr_events p' key :
  0 < nr_events < 2 ^ 31 ->
  (forall ctx, map_phys env (ring_alloc_size (nr_events + 1)) = Some ctx ->
     Z.of_nat (length (ring_events ctx))
       = (ring_alloc_size (nr_events + 1) - sizeof_aio_ring) / sizeof_io_event) ->
  io_setup env p nr_events = Ret 0 (p', Some key) ->
  exists a,
    p_aio p' !! key = Some a /\ aio_nr a = nr_events + 1 /\
    ring_inv a /\ ring_mapped a.
Proof.
  intros Hn Hcap Hrun.
  destruct (io_setup_inv env p nr_events p' key Hrun)
    as (ctx & a & Hmap & Hlook & Hevs & Hrnr & Hanr).
  rewrite wrap32_small in Hmap, Hrnr, Hanr by lia.
  pose proof (io_setup_cases env p nr_events) as Hout. rewrite Hrun in Hout.
  destruct Hout as [(_ & _ & _ & key' & a' & Hk & Hlook' & _ & _ & Hops & _ & Hq & _)
                   | (_ & Hnone & _)]; [| discriminate].
  injection Hk as <-. rewrite Hlook in Hlook'. injection Hlook' as <-.
  exists a. split; [exact Hlook |]. split; [exact Hanr |]. split.
  - unfold ring_inv, Ref.ring_in_range. rewrite Hq, Hops, Hanr.
    unfold queued, Ref.pending in Hq.
    assert (Hh : ring_head (ring a) = 0 /\ ring_tail (ring a) = 0).
    { clear - Hrun Hlook. unfold io_setup in Hrun.
      destruct (ctx_idp_writable env); cbn [negb] in Hrun; [| discriminate].
      destruct (nr_events =? 0); [discriminate |].
      destruct (alloc_phys env _); cbn [negb] in Hrun; [| discriminate].
      destruct (map_phys env _); [| discriminate].
      destruct (aio_alloc env) as [aio_id |]; [| discriminate].
      injection Hrun as <- <-. cbn [p_aio] in Hlook.
      rewrite lookup_insert_eq in Hlook. injection Hlook as <-. auto. }
    destruct Hh as [-> ->]. repeat split; lia.
  - unfold ring_mapped. rewrite Hevs, (Hcap _ Hmap), Hanr.
    unfold ring_alloc_size, pad, sizeof_aio_ring, sizeof_io_event, PAGESIZE.
    apply Z.div_le_lower_bound; [lia |].
    assert (H : 32 + (nr_events + 1) * 32
                <= (32 + (nr_events + 1) * 32 + 4096 - 1) / 4096 * 4096).
    { pose proof (Z.div_mod (32 + (nr_events + 1) * 32 + 4096 - 1) 4096 ltac:(lia)).
      pose proof (Z.mod_pos_bound (32 + (nr_events + 1) * 32 + 4096 - 1) 4096 ltac:(lia)).
      lia. }
    lia.
Qed.

Lemma io_setup_establishes_invariant_witness :
  exists a,
    p_aio (mk_process (<[0 := mk_aio
             (mk_aio_ring 0 6 0 0 AIO_RING_MAGIC 1 0 32
                (replicate 127 (mk_io_event 1 2 3 4))) None 6 0 0 1]> ∅)) !! 0
      = Some a /\
    aio_nr a = 5 + 1 /\ ring_inv a /\ ring_mapped a.
Proof.
  apply (io_setup_establishes_invariant
           (Samples.granting_env (mk_io_event 1 2 3 4)) (mk_process ∅) 5).
  - lia.
  - intros ctx H. injection H as <-. reflexivity.
  - reflexivity.
Defined.

End TableFacts.

Section ReferenceFacts.

Import Aio Inv.

(** The [-EINVAL] return of [io_getevents] for a bad count comes after
    [aio_from_ring_id] has taken a reference and does not give it back:
    after [n] such calls on a live context its reference count is [n]
    higher and nothing else in the process has changed. *)
Theorem io_getevents_rejected_keeps_reference n :
  forall thread_bq p ctx_id a min_nr nr,
    p_aio p !! ctx_id = Some a ->
    nr <= 0 \/ nr < min_nr ->
    exists p',
      getevents_repeat n thread_bq p ctx_id min_nr nr = Some p' /\
      p_aio p' !! ctx_id = Some (set_refcount (refcount a + Z.of_nat n) a) /\
      (forall k, k <> ctx_id -> p_aio p' !! k = p_aio p !! k).
Proof.
  induction n as [| n IH]; intros thread_bq p ctx_id a min_nr nr Hlive Hbad.
  - exists p. split; [reflexivity |]. split; [| auto].
    rewrite Hlive. f_equal. unfold set_refcount.
    rewrite Z.add_0_r. symmetry. apply aio_eta.
  - cbn [getevents_repeat].
    destruct (io_getevents_bad_count thread_bq p ctx_id a min_nr nr Hlive Hbad)
      as [-> _].
    destruct (IH thread_bq
                (mk_process (<[ctx_id := refcount_reserve a]> (p_aio p)))
                ctx_id (refcount_reserve a) min_nr nr)
      as (p' & Hrun & Hlook & Hrest).
    + cbn [p_aio]. apply lookup_insert_eq.
    + exact Hbad.
    + exists p'. split; [exact Hrun |]. split.
      * rewrite Hlook. f_equal. unfold set_refcount, refcount_reserve. simpl.
        f_equal. lia.
      * intros k Hk. rewrite (Hrest k Hk). cbn [p_aio].
        apply lookup_insert_ne. congruence.
Qed.

Lemma io_getevents_rejected_keeps_reference_witness :
  let r := mk_aio_ring 0 2 0 0 AIO_RING_MAGIC 1 0 32 [] in
  let p := mk_process (<[3 := mk_aio r None 2 0 0 1]> ∅) in
  exists p',
    getevents_repeat 4 9 p 3 1 0 = Some p' /\
    p_aio p' !! 3 = Some (mk_aio r None 2 0 0 5) /\
    (forall k, k <> 3 -> p_aio p' !! k = p_aio p !! k).
Proof.
  intros r p.
  apply (io_getevents_rejected_keeps_reference 4 9 p 3 (mk_aio r None 2 0 0 1) 1 0).
  - reflexivity.
  - left. lia.
Defined.


End ReferenceFacts.

(** ** Configuration reads and writes *)

Section CfgAccessFacts.

Import Pci.

Lemma data_window reg bytes :
  0 <= reg -> bytes = 1 \/ bytes = 2 \/ bytes = 4 -> reg mod bytes = 0 ->
  0 <= reg mod 4 /\ reg mod 4 + bytes <= 4.
Proof.
  intros Hr [-> | [-> | ->]] Hal; Z.div_mod_to_equations; lia.
Qed.

(** An accepted configuration read is two port operations, in this
    order: the address word to 0x0CF8, then one read of the access width
    at the data port; the bytes read lie inside the four-byte data window
    0x0CFC..0x0CFF, and the value returned is what the data port gave. *)
Theorem pci_cfgread_access inp dev reg bytes :
  bus dev <= 255 -> slot dev <= 31 -> function dev <= 7 ->
  0 <= reg <= 255 ->
  bytes = 1 \/ bytes = 2 \/ bytes = 4 ->
  reg mod bytes = 0 ->
  let port := 0x0cfc + reg mod 4 in
  pci_cfgread inp dev reg bytes
    = (inp port bytes,
       [Out32 0x0cf8 (cfg_address dev reg);
        if bytes =? 1 then In8 port else if bytes =? 2 then In16 port
        else In32 port]) /\
  0x0cfc <= port /\ port + bytes - 1 <= 0x0cff.
Proof.
  intros Hb Hs Hf Hreg Hw Hal port.
  destruct (data_window reg bytes ltac:(lia) Hw Hal) as [H0 H4].
  split; [| unfold port; lia].
  unfold pci_cfgread.
  rewrite (pci_cfgenable_valid dev reg bytes Hb Hs Hf Hreg Hw Hal).
  rewrite land_3_mod. fold port.
  destruct (Z.eqb_spec port 0) as [E | _]; [unfold port in E; lia |].
  destruct Hw as [-> | [-> | ->]]; reflexivity.
Qed.

Lemma pci_cfgread_access_witness :
  pci_cfgread (fun port _ => port) (mk_pci_dev 0 3 0) 0x3e 2
    = (0x0cfe, [Out32 0x0cf8 0x8000183c; In16 0x0cfe]).
Proof.
  refine (proj1 (pci_cfgread_access (fun port _ => port) (mk_pci_dev 0 3 0)
                   0x3e 2 _ _ _ _ (or_intror (or_introl eq_refl)) eq_refl));
    simpl; lia.
Defined.

(** An accepted configuration write is the address word to 0x0CF8
    followed by one write of the access width at the data port, of the
    value cut to that width. *)
Theorem pci_cfgwrite_access dev reg bytes source :
  bus dev <= 255 -> slot dev <= 31 -> function dev <= 7 ->
  0 <= reg <= 255 ->
  bytes = 1 \/ bytes = 2 \/ bytes = 4 ->
  reg mod bytes = 0 ->
  let port := 0x0cfc + reg mod 4 in
  pci_cfgwrite dev reg bytes source
    = [Out32 0x0cf8 (cfg_address dev reg);
       if bytes =? 1 then Out8 port (source mod 2 ^ 8)
       else if bytes =? 2 then Out16 port (source mod 2 ^ 16)
       else Out32 port (source mod 2 ^ 32)] /\
  0x0cfc <= port /\ port + bytes - 1 <= 0x0cff.
Proof.
  intros Hb Hs Hf Hreg Hw Hal port.
  destruct (data_window reg bytes ltac:(lia) Hw Hal) as [H0 H4].
  split; [| unfold port; lia].
  unfold pci_cfgwrite.
  rewrite (pci_cfgenable_valid dev reg bytes Hb Hs Hf Hreg Hw Hal).
  rewrite land_3_mod. fold port.
  destruct (Z.eqb_spec port 0) as [E | _]; [unfold port in E; lia |].
  destruct Hw as [-> | [-> | ->]]; reflexivity.
Qed.

Lemma pci_cfgwrite_access_witness :
  pci_cfgwrite (mk_pci_dev 0 3 0) 0x10 4 0x1ffffffff
    = [Out32 0x0cf8 0x80001810; Out32 0x0cfc 0xffffffff].
Proof.
  refine (proj1 (pci_cfgwrite_access (mk_pci_dev 0 3 0) 0x10 4 0x1ffffffff
                   _ _ _ _ (or_intror (or_intror eq_refl)) eq_refl));
    simpl; lia.
Defined.

(** A refused access reaches no port at all: the read answers all-ones
    and the write is dropped. Refused are a register outside [0, 255], a
    width other than 0, 1, 2 or 4, a register not aligned to the width,
    and width 0 at any register but 0. *)
Theorem pci_cfg_refused inp dev reg bytes source :
  - 2 ^ 31 <= reg < 2 ^ 31 -> - 2 ^ 31 <= bytes < 2 ^ 31 ->
  reg < 0 \/ 255 < reg \/
  (bytes <> 0 /\ bytes <> 1 /\ bytes <> 2 /\ bytes <> 4) \/
  ((bytes = 1 \/ bytes = 2 \/ bytes = 4) /\ reg mod bytes <> 0) \/
  (bytes = 0 /\ reg <> 0) ->
  pci_cfgread inp dev reg bytes = (0xffffffff, []) /\
  pci_cfgwrite dev reg bytes source = [].
Proof.
  intros Hreg Hbytes Hbad. unfold pci_cfgread, pci_cfgwrite.
  rewrite (pci_cfgenable_refused dev reg bytes Hreg Hbytes Hbad).
  split; reflexivity.
Qed.

Lemma pci_cfg_refused_witness :
  pci_cfgread (fun _ _ => 0) (mk_pci_dev 0 3 0) 0x11 4 = (0xffffffff, []) /\
  pci_cfgwrite (mk_pci_dev 0 3 0) 0x11 4 7 = [].
Proof.
  apply (pci_cfg_refused (fun _ _ => 0) (mk_pci_dev 0 3 0) 0x11 4 7); try lia.
  right. right. right. left. split; [auto |]. vm_compute. discriminate.
Defined.

Lemma lor_disjoint hi lo k :
  0 <= k -> 0 <= lo < 2 ^ k -> Z.lor (hi * 2 ^ k) lo = hi * 2 ^ k + lo.
Proof.
  intros Hk Hlo.
  assert (Hland : Z.land (hi * 2 ^ k) lo = 0).
  { apply Z.bits_inj'. intros n Hn. rewrite Z.land_spec, Z.bits_0.
    destruct (Z.lt_ge_cases n k) as [Hlt | Hge].
    - rewrite Z.mul_pow2_bits_low by lia. reflexivity.
    - assert (Hz : Z.testbit lo n = false).
      { apply Z.testbit_false; [lia |].
        rewrite Z.div_small; [reflexivity |].
        split; [lia |]. apply Z.lt_le_trans with (2 ^ k); [lia |].
        apply Z.pow_le_mono_r; lia. }
      rewrite Hz. apply andb_false_r. }
  rewrite <- Z.lxor_lor by exact Hland.
  symmetry. apply Z.add_nocarry_lxor. exact Hland.
Qed.

Lemma land_lnot_3 reg : Z.land reg (Z.lnot 3) = 4 * (reg / 4).
Proof.
  rewrite <- Z.ldiff_land. change 3 with (Z.ones 2).
  rewrite Z.ldiff_ones_r by lia.
  rewrite Z.shiftl_mul_pow2, Z.shiftr_div_pow2 by lia.
  change (2 ^ 2) with 4. lia.
Qed.

(** The address word as a sum of its fields. *)
Lemma cfg_address_sum dev reg :
  0 <= bus dev <= 255 -> 0 <= slot dev <= 31 -> 0 <= function dev <= 7 ->
  0 <= reg <= 255 ->
  cfg_address dev reg
    = 2 ^ 31 + bus dev * 2 ^ 16 + slot dev * 2 ^ 11 + function dev * 2 ^ 8
      + 4 * (reg / 4).
Proof.
  intros Hb Hs Hf Hr. unfold cfg_address.
  rewrite !Z.shiftl_mul_pow2 by lia. rewrite land_lnot_3.
  assert (Hq : 0 <= reg / 4 <= 63).
  { Z.div_mod_to_equations; lia. }
  rewrite (lor_disjoint 1 (bus dev * 2 ^ 16) 31) by lia.
  replace (1 * 2 ^ 31 + bus dev * 2 ^ 16) with ((2 ^ 15 + bus dev) * 2 ^ 16) by lia.
  rewrite (lor_disjoint (2 ^ 15 + bus dev) (slot dev * 2 ^ 11) 16) by lia.
  replace ((2 ^ 15 + bus dev) * 2 ^ 16 + slot dev * 2 ^ 11)
    with (((2 ^ 15 + bus dev) * 2 ^ 5 + slot dev) * 2 ^ 11) by lia.
  rewrite (lor_disjoint _ (function dev * 2 ^ 8) 11) by lia.
  replace (((2 ^ 15 + bus dev) * 2 ^ 5 + slot dev) * 2 ^ 11 + function dev * 2 ^ 8)
    with ((((2 ^ 15 + bus dev) * 2 ^ 5 + slot dev) * 2 ^ 3 + function dev) * 2 ^ 8)
    by lia.
  rewrite (lor_disjoint _ (4 * (reg / 4)) 8) by lia.
  lia.
Qed.

(** The address word written to 0x0CF8 identifies the access: it fits in
    32 bits with the enable bit set, and two accesses have the same word
    only if they name the same bus, slot and function and registers in
    the same aligned group of four. *)
Theorem cfg_address_injective dev1 reg1 dev2 reg2 :
  0 <= bus dev1 <= 255 -> 0 <= slot dev1 <= 31 -> 0 <= function dev1 <= 7 ->
  0 <= reg1 <= 255 ->
  0 <= bus dev2 <= 255 -> 0 <= slot dev2 <= 31 -> 0 <= function dev2 <= 7 ->
  0 <= reg2 <= 255 ->
  2 ^ 31 <= cfg_address dev1 reg1 < 2 ^ 32 /\
  (cfg_address dev1 reg1 = cfg_address dev2 reg2 ->
   bus dev1 = bus dev2 /\ slot dev1 = slot dev2 /\
   function dev1 = function dev2 /\ reg1 / 4 = reg2 / 4).
Proof.
  intros Hb1 Hs1 Hf1 Hr1 Hb2 Hs2 Hf2 Hr2.
  rewrite !cfg_address_sum by assumption.
  assert (Hq1 : 0 <= reg1 / 4 <= 63).
  { Z.div_mod_to_equations; lia. }
  assert (Hq2 : 0 <= reg2 / 4 <= 63).
  { Z.div_mod_to_equations; lia. }
  split; [lia |]. intros E. lia.
Qed.

Lemma cfg_address_injective_witness :
  2 ^ 31 <= cfg_address (mk_pci_dev 1 2 3) 0x10 < 2 ^ 32 /\
  (cfg_address (mk_pci_dev 1 2 3) 0x10 = cfg_address (mk_pci_dev 1 2 3) 0x12 ->
   1 = 1 /\ 2 = 2 /\ 3 = 3 /\ 0x10 / 4 = 0x12 / 4).
Proof.
  apply (cfg_address_injective (mk_pci_dev 1 2 3) 0x10 (mk_pci_dev 1 2 3) 0x12);
    simpl; lia.
Defined.

End CfgAccessFacts.

(** ** The checksum as arithmetic modulo 65535 *)

Section ChecksumAlgebra.

Import Vnet Ref.

(** The checksum depends on the buffer only through its value as one
    little-endian number, in one's-complement arithmetic modulo 65535. *)
Lemma vnet_csum_closed buf :
  vnet_csum buf = 65535 - oc_norm 65535 (le_val buf).
Proof.
  rewrite vnet_csum_fold. unfold csum_fold.
  rewrite fold_down_ones_sum16, ones_sum16_norm.
  destruct (words16_le_val buf) as (H0 & Hz & Hc).
  rewrite (oc_norm_congr 65535 (zsum (words16 buf)) (le_val buf))
    by (try lia; assumption).
  apply not16_sub.
  pose proof (le_val_range buf) as [Hl _].
  pose proof (oc_norm_range 65535 (le_val buf) ltac:(lia) Hl). lia.
Qed.

Lemma oc_norm_repr n :
  0 <= n -> exists k, oc_norm 65535 n = n + 65535 * k.
Proof.
  intros Hn. unfold oc_norm. destruct (Z.eqb_spec n 0) as [-> | Hne].
  - exists 0. reflexivity.
  - exists (- ((n - 1) / 65535)).
    pose proof (Z.div_mod (n - 1) 65535 ltac:(lia)). lia.
Qed.

Lemma pow256_even k :
  0 <= k -> exists t, 0 <= t /\ 2 ^ (8 * (2 * k)) = 1 + 65535 * t.
Proof.
  intros Hk. replace (8 * (2 * k)) with (16 * k) by lia.
  rewrite Z.pow_mul_r by lia. change (2 ^ 16) with 65536.
  apply (natlike_ind (fun k => exists t, 0 <= t /\ 65536 ^ k = 1 + 65535 * t));
    [| | exact Hk].
  - exists 0. split; [lia | reflexivity].
  - intros x Hx (t & Ht & E). rewrite Z.pow_succ_r by lia. rewrite E.
    exists (1 + 65536 * t). split; lia.
Qed.

Lemma le_val_zeros n : le_val (replicate n x00) = 0.
Proof. induction n as [| n IH]; cbn [replicate le_val]; [| rewrite IH]; reflexivity. Qed.

Lemma byte_val_zero b : byte_val b = 0 -> b = x00.
Proof. destruct b; intros H; first [reflexivity | vm_compute in H; discriminate H]. Qed.

Lemma le_val_zero_iff l : le_val l = 0 <-> Forall (fun b => b = x00) l.
Proof.
  induction l as [| b l IH]; cbn [le_val].
  - split; [intros _; apply List.Forall_nil | reflexivity].
  - pose proof (byte_val_range b). pose proof (le_val_range l) as [Hl _].
    split.
    + intros E. apply List.Forall_cons.
      * apply byte_val_zero. lia.
      * apply IH. lia.
    + intros Hall. inversion Hall as [| ? ? Hb Ht]; subst.
      apply IH in Ht. rewrite Ht. reflexivity.
Qed.

(** Zero bytes appended to a buffer do not change its checksum, whatever
    their number: a frame padded with zeros checks like the frame. *)
Theorem vnet_csum_zero_padding buf n :
  vnet_csum (buf ++ replicate n x00) = vnet_csum buf.
Proof.
  rewrite !vnet_csum_closed, le_val_app, le_val_zeros.
  f_equal. f_equal. lia.
Qed.

(** The checksum is 0xFFFF for the buffers made of zero bytes only (the
    empty one among them) and for no other buffer. *)
Theorem vnet_csum_all_ones_iff_zero_buffer buf :
  vnet_csum buf = 0xffff <-> Forall (fun b => b = x00) buf.
Proof.
  rewrite vnet_csum_closed, <- le_val_zero_iff.
  pose proof (le_val_range buf) as [Hl _].
  pose proof (oc_norm_zero 65535 (le_val buf) ltac:(lia) Hl) as Hz.
  split; intros H; [apply Hz; lia | apply Hz in H; lia].
Qed.

(** Checksums add up over a split at an even offset: the checksum of the
    whole and the sum of the checksums of the two parts agree in
    one's-complement arithmetic, that is modulo 65535. *)
Theorem vnet_csum_app a b :
  Z.of_nat (length a) mod 2 = 0 ->
  (vnet_csum (a ++ b) - (vnet_csum a + vnet_csum b)) mod 65535 = 0.
Proof.
  intros Heven. rewrite !vnet_csum_closed, le_val_app.
  pose proof (le_val_range a) as [Ha _]. pose proof (le_val_range b) as [Hb _].
  assert (Hk : exists k, 0 <= k /\ Z.of_nat (length a) = 2 * k).
  { exists (Z.of_nat (length a) / 2). Z.div_mod_to_equations. lia. }
  destruct Hk as (k & Hk & ->).
  destruct (pow256_even k Hk) as (t & Ht & ->).
  destruct (oc_norm_repr (le_val a) Ha) as (ka & ->).
  destruct (oc_norm_repr (le_val b) Hb) as (kb & ->).
  destruct (oc_norm_repr (le_val a + (1 + 65535 * t) * le_val b) ltac:(nia))
    as (kab & ->).
  replace (65535 - (le_val a + (1 + 65535 * t) * le_val b + 65535 * kab)
           - (65535 - (le_val a + 65535 * ka) + (65535 - (le_val b + 65535 * kb))))
    with ((ka + kb - kab - t * le_val b - 1) * 65535) by ring.
  apply Z.mod_mul. lia.
Qed.

Lemma vnet_csum_app_witness :
  (vnet_csum ([x45; x00; x01; x02] ++ [xff; x10; x20])
   - (vnet_csum [x45; x00; x01; x02] + vnet_csum [xff; x10; x20])) mod 65535 = 0.
Proof.
  apply (vnet_csum_app [x45; x00; x01; x02] [xff; x10; x20]). reflexivity.
Defined.

End ChecksumAlgebra.

(** ** The checksum written by the receive path *)

Section FixupFacts.

Import Vnet Ref.

Lemma le_val_insert l :
  forall i b old,
    l !! i = Some old ->
    le_val (<[i := b]> l)
      = le_val l + 2 ^ (8 * Z.of_nat i) * (byte_val b - byte_val old).
Proof.
  induction l as [| c l IH]; intros [| i] b old H; try discriminate H.
  - injection H as <-. change (<[0%nat := b]> (c :: l)) with (b :: l).
    cbn [le_val]. change (2 ^ (8 * Z.of_nat 0)) with 1. lia.
  - change ((c :: l) !! S i) with (l !! i) in H.
    change (<[S i := b]> (c :: l)) with (c :: <[i := b]> l).
    cbn [le_val]. rewrite (IH i b old H). rewrite Nat2Z.inj_succ.
    replace (8 * Z.succ (Z.of_nat i)) with (8 + 8 * Z.of_nat i) by lia.
    rewrite Z.pow_add_r by lia. change (2 ^ 8) with 256. lia.
Qed.

(** The buffer [input] hands to the stack when the checksum is asked for
    and the field lies inside the payload. *)
Lemma input_csum_stored net_header_len x len stack_ok :
  Z.land (flags (hdr x)) VIRTIO_NET_HDR_F_NEEDS_CSUM <> 0 ->
  2 <= len -> len <= pbuf_len x -> len <= Z.of_nat (length (mem x)) ->
  len < 2 ^ 64 ->
  0 <= csum_start (hdr x) -> 0 <= csum_offset (hdr x) ->
  csum_start (hdr x) + csum_offset (hdr x) <= len - 2 ->
  let p := Z.to_nat (csum_start (hdr x) + csum_offset (hdr x)) in
  let c := vnet_csum (take (Z.to_nat (len - csum_start (hdr x)))
                        (drop (Z.to_nat (csum_start (hdr x))) (mem x))) in
  input net_header_len x (net_header_len + len) stack_ok
    = ToStack len (<[S p := byte_of (Z.shiftr c 8)]> (<[p := byte_of c]> (mem x)))
        stack_ok.
Proof.
  intros Hflag H2 Hp Hm H64 Hs Ho Hb p c. unfold input.
  replace (net_header_len + len - net_header_len) with len by lia.
  unfold wrap64. rewrite !wrap_small by lia.
  destruct (Z.leb_spec len (pbuf_len x)); [| lia]. simpl.
  destruct (Z.eqb_spec (Z.land (flags (hdr x)) VIRTIO_NET_HDR_F_NEEDS_CSUM) 0);
    [contradiction |]. simpl.
  destruct (Z.leb_spec (csum_start (hdr x) + csum_offset (hdr x)) (len - 2));
    [| lia].
  rewrite region_inside by lia. fold c. unfold store16.
  destruct (Z.leb_spec 0 (csum_start (hdr x) + csum_offset (hdr x))); [| lia].
  destruct (Z.leb_spec (csum_start (hdr x) + csum_offset (hdr x) + 2)
              (Z.of_nat (length (mem x)))); [| lia].
  reflexivity.
Qed.

(** After the receive path has written the checksum, the covered bytes
    check against what the field held before: their checksum, computed
    again, equals the old value of the field modulo 65535 (the device
    leaves the pseudo-header sum there), and is exactly 0 when the field
    was zero. The field has to lie at an even offset from [csum_start]. *)
Theorem input_checksum_verifies net_header_len x len stack_ok :
  Z.land (flags (hdr x)) VIRTIO_NET_HDR_F_NEEDS_CSUM <> 0 ->
  2 <= len -> len <= pbuf_len x -> len <= Z.of_nat (length (mem x)) ->
  len < 2 ^ 64 ->
  0 <= csum_start (hdr x) -> 0 <= csum_offset (hdr x) ->
  csum_start (hdr x) + csum_offset (hdr x) <= len - 2 ->
  csum_offset (hdr x) mod 2 = 0 ->
  let p := Z.to_nat (csum_start (hdr x) + csum_offset (hdr x)) in
  let covered m := take (Z.to_nat (len - csum_start (hdr x)))
                     (drop (Z.to_nat (csum_start (hdr x))) m) in
  exists m f0 f1,
    input net_header_len x (net_header_len + len) stack_ok
      = ToStack len m stack_ok /\
    mem x !! p = Some f0 /\ mem x !! S p = Some f1 /\
    (vnet_csum (covered m) - le_val [f0; f1]) mod 65535 = 0 /\
    (le_val [f0; f1] = 0 -> vnet_csum (covered m) = 0).
Proof.
  intros Hflag H2 Hp Hm H64 Hs Ho Hb Heven p covered.
  pose proof (input_csum_stored net_header_len x len stack_ok
                Hflag H2 Hp Hm H64 Hs Ho Hb) as Hrun.
  cbv zeta in Hrun. fold p in Hrun. fold (covered (mem x)) in Hrun.
  set (cs := Z.to_nat (csum_start (hdr x))) in *.
  set (n := Z.to_nat (len - csum_start (hdr x))) in *.
  set (co := Z.to_nat (csum_offset (hdr x))).
  set (r := covered (mem x)) in *.
  set (c := vnet_csum r) in *.
  assert (Hpco : p = (cs + co)%nat) by (unfold p, cs, co; lia).
  assert (Hn : (S co < n)%nat) by (unfold co, n; lia).
  assert (Hlen : (cs + n <= length (mem x))%nat) by (unfold cs, n; lia).
  destruct (lookup_lt_is_Some_2 (mem x) p ltac:(lia)) as [f0 Hf0].
  destruct (lookup_lt_is_Some_2 (mem x) (S p) ltac:(lia)) as [f1 Hf1].
  set (lo := byte_of c) in *. set (hi := byte_of (Z.shiftr c 8)) in *.
  eexists _, f0, f1. split; [exact Hrun |].
  split; [exact Hf0 |]. split; [exact Hf1 |].
  assert (Hcov : covered (<[S p := hi]> (<[p := lo]> (mem x)))
                 = <[S co := hi]> (<[co := lo]> r)).
  { unfold covered, r. fold cs n.
    rewrite !drop_insert_ge by lia.
    rewrite !take_insert_lt by lia.
    replace (S p - cs)%nat with (S co) by lia.
    replace (p - cs)%nat with co by lia. reflexivity. }
  rewrite Hcov.
  assert (Hr0 : r !! co = Some f0).
  { unfold r, covered. fold cs n.
    rewrite lookup_take_lt by lia. rewrite lookup_drop.
    rewrite <- Hpco. exact Hf0. }
  assert (Hr1 : r !! S co = Some f1).
  { unfold r, covered. fold cs n.
    rewrite lookup_take_lt by lia. rewrite lookup_drop.
    replace (cs + S co)%nat with (S p) by lia. exact Hf1. }
  assert (Hval : le_val (<[S co := hi]> (<[co := lo]> r))
                 = le_val r + 2 ^ (8 * Z.of_nat co) * (c - le_val [f0; f1])).
  { rewrite (le_val_insert _ (S co) hi f1)
      by (rewrite list_lookup_insert_ne by lia; exact Hr1).
    rewrite (le_val_insert r co lo f0 Hr0).
    rewrite Nat2Z.inj_succ.
    replace (8 * Z.succ (Z.of_nat co)) with (8 * Z.of_nat co + 8) by lia.
    rewrite Z.pow_add_r by lia. change (2 ^ 8) with 256.
    unfold lo, hi. rewrite !byte_val_of, shiftr_div by lia.
    change (2 ^ 8) with 256.
    pose proof (vnet_csum_range r) as Hc. fold c in Hc.
    assert (Hd : 0 <= c / 256 < 256) by (Z.div_mod_to_equations; lia).
    rewrite (Z.mod_small (c / 256)) by lia.
    pose proof (Z.div_mod c 256 ltac:(lia)) as Hdm.
    cbn [le_val]. lia. }
  assert (Hk : exists k, 0 <= k /\ Z.of_nat co = 2 * k).
  { exists (csum_offset (hdr x) / 2). unfold co.
    rewrite Z2Nat.id by lia. Z.div_mod_to_equations. lia. }
  destruct Hk as (k & Hk & Hco).
  rewrite Hco in Hval. destruct (pow256_even k Hk) as (t & Ht & Hpow).
  rewrite Hpow in Hval.
  set (r' := <[S co := hi]> (<[co := lo]> r)) in *.
  pose proof (le_val_range r) as [Hlr _].
  pose proof (le_val_range r') as [Hlr' _].
  pose proof (vnet_csum_closed r) as Hc. fold c in Hc.
  pose proof (vnet_csum_closed r') as Hc'.
  assert (Hcong : (vnet_csum r' - le_val [f0; f1]) mod 65535 = 0).
  { destruct (oc_norm_repr (le_val r) Hlr) as (k1 & Hk1).
    destruct (oc_norm_repr (le_val r') Hlr') as (k2 & Hk2).
    rewrite Hc', Hk2, Hval. rewrite Hk1 in Hc.
    replace (65535 - (le_val r + (1 + 65535 * t) * (c - le_val [f0; f1])
                      + 65535 * k2) - le_val [f0; f1])
      with ((1 - k2 - t * (c - le_val [f0; f1])) * 65535
            + (65535 - le_val r - 65535 - c)) by ring.
    rewrite Hc.
    replace (65535 - le_val r - 65535 - (65535 - (le_val r + 65535 * k1)))
      with ((k1 - 1) * 65535) by ring.
    rewrite <- Z.mul_add_distr_r. apply Z.mod_mul. lia. }
  split; [exact Hcong |].
  intros Hzero. rewrite Hzero in Hcong, Hval.
  pose proof (vnet_csum_range r') as Hrange.
  pose proof (vnet_csum_range r) as Hcr. fold c in Hcr.
  destruct (Z.eq_dec (vnet_csum r') 65535) as [E | Hne].
  - exfalso. rewrite Hc' in E.
    assert (Hz : oc_norm 65535 (le_val r') = 0) by lia.
    apply (oc_norm_zero 65535 (le_val r') ltac:(lia) Hlr') in Hz.
    rewrite Hval in Hz.
    assert (Hlr0 : le_val r = 0) by nia.
    assert (Hc0 : c = 0) by nia.
    apply (oc_norm_zero 65535 (le_val r) ltac:(lia) Hlr) in Hlr0. lia.
  - rewrite Z.sub_0_r in Hcong. Z.div_mod_to_equations. lia.
Qed.

Lemma input_checksum_verifies_witness :
  exists m f0 f1,
    input 12 (mk_xpbuf 1536 (mk_virtio_net_hdr 1 0 0 0 2 2)
                [x01; x02; x45; x10; x00; x00; x99; x07]) (12 + 8) true
      = ToStack 8 m true /\
    [x01; x02; x45; x10; x00; x00; x99; x07] !! 4%nat = Some f0 /\
    [x01; x02; x45; x10; x00; x00; x99; x07] !! 5%nat = Some f1 /\
    (vnet_csum (take 6 (drop 2 m)) - le_val [f0; f1]) mod 65535 = 0 /\
    (le_val [f0; f1] = 0 -> vnet_csum (take 6 (drop 2 m)) = 0).
Proof.
  apply (input_checksum_verifies 12
           (mk_xpbuf 1536 (mk_virtio_net_hdr 1 0 0 0 2 2)
              [x01; x02; x45; x10; x00; x00; x99; x07]) 8 true);
    simpl; try lia; try reflexivity.
  vm_compute. discriminate.
Defined.

End FixupFacts.

(** ** Queues and CPUs in [virtio_net_attach] *)

Section AttachFacts.

Import Attach AttachInv.

Lemma txq_fill_lookup n :
  forall j bound vq m cpu,
    bound - j <= Z.of_nat n ->
    txq_fill n j bound vq m !! cpu
      = if (j <=? cpu) && (cpu <? bound) then Some vq else m !! cpu.
Proof.
  induction n as [| n IH]; intros j bound vq m cpu Hn; cbn [txq_fill].
  - destruct (Z.leb_spec j cpu); destruct (Z.ltb_spec cpu bound);
      cbn [andb]; try reflexivity. lia.
  - destruct (Z.ltb_spec j bound) as [Hlt | Hge].
    + rewrite IH by lia.
      destruct (Z.eq_dec cpu j) as [-> | Hne].
      * destruct (Z.leb_spec (j + 1) j); [lia |]. cbn [andb].
        rewrite lookup_insert_eq.
        destruct (Z.leb_spec j j); [| lia].
        destruct (Z.ltb_spec j bound); [| lia]. reflexivity.
      * rewrite lookup_insert_ne by congruence.
        destruct (Z.leb_spec (j + 1) cpu); destruct (Z.leb_spec j cpu);
          try lia; reflexivity.
    + destruct (Z.leb_spec j cpu); destruct (Z.ltb_spec cpu bound);
        cbn [andb]; try reflexivity. lia.
Qed.

Lemma range_start_step c e i :
  range_start c e (i + 1)
    = range_start c e i + (if i <? e then c + 1 else c).
Proof. unfold range_start. destruct (Z.ltb_spec i e); lia. Qed.

Lemma range_start_mono c e a b :
  0 <= c -> a <= b -> range_start c e a <= range_start c e b.
Proof.
  intros Hc Hab. unfold range_start.
  assert (0 <= (b - a) * c) by nia. lia.
Qed.

(** Every CPU below the end of the ranges lies in the range of one
    pair. *)
Lemma range_start_owner c e n :
  0 <= c -> 0 <= n ->
  forall cpu, 0 <= cpu < range_start c e n ->
    exists k, 0 <= k < n /\
              range_start c e k <= cpu < range_start c e (k + 1).
Proof.
  intros Hc Hn.
  apply (natlike_ind
           (fun n => forall cpu, 0 <= cpu < range_start c e n ->
              exists k, 0 <= k < n /\
                        range_start c e k <= cpu < range_start c e (k + 1)));
    [| | exact Hn].
  - intros cpu H. unfold range_start in H. lia.
  - intros x Hx IH cpu H. unfold Z.succ in *.
    destruct (Z.lt_ge_cases cpu (range_start c e x)) as [Hlt | Hge].
    + destruct (IH cpu ltac:(lia)) as (k & Hk & Hr). exists k. split; [lia | exact Hr].
    + exists x. split; [lia |]. lia.
Qed.

Lemma pair_step_done c e i s :
  0 <= c -> 0 <= i < 2 ^ 30 -> range_start c e (i + 1) < 2 ^ 63 ->
  pairs_done c e i s -> pairs_done c e (i + 1) (pair_step c e i s).
Proof.
  intros Hc Hi Hend (Hf & Hnum & Hsum & Htx & Hq).
  pose proof (range_start_step c e i) as Hstep.
  assert (Hfirst : wrap64 (first_cpu s + num_cpus s) = range_start c e i).
  { unfold wrap64. rewrite wrap_small; [exact Hsum |].
    destruct (Z.ltb_spec i e); lia. }
  assert (Hn' : (if i <? e then wrap64 (c + 1) else c)
                = (if i <? e then c + 1 else c)).
  { destruct (Z.ltb_spec i e); [| reflexivity].
    unfold wrap64. apply wrap_small. lia. }
  unfold pair_step. rewrite Hfirst, Hn'.
  set (num := if i <? e then c + 1 else c) in *.
  assert (Hnum' : 0 <= num) by (unfold num; destruct (i <? e); lia).
  assert (Hbound : wrap64 (range_start c e i + num) = range_start c e (i + 1)).
  { unfold wrap64. rewrite wrap_small; lia. }
  rewrite Hbound.
  rewrite (to_int32_small (2 * i)) by lia.
  rewrite (to_int32_small (2 * i + 1)) by lia.
  unfold pairs_done. cbn [first_cpu num_cpus pv_txq_map pv_queues].
  split; [lia |]. split; [exact Hnum' |]. split; [lia |]. split.
  - intros cpu q. rewrite txq_fill_lookup by lia.
    destruct (Z.leb_spec (range_start c e i) cpu) as [Hlo | Hlo];
      destruct (Z.ltb_spec cpu (range_start c e (i + 1))) as [Hhi | Hhi];
      cbn [andb].
    + split.
      * intros E. injection E as <-. exists i. lia.
      * intros (k & Hk & -> & Hr).
        destruct (Z.eq_dec k i) as [-> | Hne]; [reflexivity |].
        pose proof (range_start_mono c e (k + 1) i Hc ltac:(lia)). lia.
    + rewrite Htx. split.
      * intros (k & Hk & E & Hr). exists k. lia.
      * intros (k & Hk & E & Hr).
        destruct (Z.eq_dec k i) as [-> | Hne]; [lia |].
        exists k. lia.
    + rewrite Htx. split.
      * intros (k & Hk & E & Hr). exists k. lia.
      * intros (k & Hk & E & Hr).
        destruct (Z.eq_dec k i) as [-> | Hne]; [lia |].
        exists k. lia.
    + rewrite Htx. split.
      * intros (k & Hk & E & Hr). exists k. lia.
      * intros (k & Hk & E & Hr).
        destruct (Z.eq_dec k i) as [-> | Hne]; [lia |].
        exists k. lia.
  - intros k.
    destruct (Z.eq_dec k (2 * i + 1)) as [-> | Hne1].
    + rewrite lookup_insert_eq.
      destruct (Z.leb_spec 0 (2 * i + 1)); [| lia].
      destruct (Z.ltb_spec (2 * i + 1) (2 * (i + 1))); [| lia]. reflexivity.
    + rewrite lookup_insert_ne by congruence.
      destruct (Z.eq_dec k (2 * i)) as [-> | Hne2].
      * rewrite lookup_insert_eq.
        destruct (Z.leb_spec 0 (2 * i)); [| lia].
        destruct (Z.ltb_spec (2 * i) (2 * (i + 1))); [| lia]. reflexivity.
      * rewrite lookup_insert_ne by congruence. rewrite Hq.
        destruct (Z.leb_spec 0 k); destruct (Z.ltb_spec k (2 * i));
          destruct (Z.ltb_spec k (2 * (i + 1))); cbn [andb];
          try reflexivity; lia.
Qed.

Lemma pair_loop_done c e n :
  forall i s,
    0 <= c -> 0 <= i -> i + Z.of_nat n <= 2 ^ 30 ->
    range_start c e (i + Z.of_nat n) < 2 ^ 63 ->
    pairs_done c e i s ->
    pairs_done c e (i + Z.of_nat n) (pair_loop n c e i s).
Proof.
  induction n as [| n IH]; intros i s Hc Hi Hn Hend Hinv.
  - cbn [pair_loop]. replace (i + Z.of_nat 0) with i by lia. exact Hinv.
  - cbn [pair_loop].
    replace (i + Z.of_nat (S n)) with (i + 1 + Z.of_nat n) in * by lia.
    apply IH; try lia.
    apply pair_step_done; try assumption; [lia |].
    pose proof (range_start_mono c e (i + 1) (i + 1 + Z.of_nat n) Hc ltac:(lia)).
    lia.
Qed.

(** The result of [virtio_net_attach] on a machine with processors and a
    device that offers at least one queue pair. *)
Lemma virtio_net_attach_done version_1 mrg_rxbuf mq max_vq total :
  0 < total < 2 ^ 31 -> (mq = true -> 0 < max_vq < 2 ^ 16) ->
  exists vn s,
    virtio_net_attach version_1 mrg_rxbuf mq max_vq total = Some vn /\
    1 <= vq_pairs vn <= total /\
    vq_pairs vn = (if mq then Z.min max_vq total else 1) /\
    queues vn = pv_queues s /\ txq_map vn = pv_txq_map s /\
    ctl vn = (if 1 <? vq_pairs vn
              then Some (2 * (if mq then max_vq else 1)) else None) /\
    range_start (total / vq_pairs vn) (total mod vq_pairs vn) (vq_pairs vn)
      = total /\
    pairs_done (total / vq_pairs vn) (total mod vq_pairs vn) (vq_pairs vn) s.
Proof.
  intros Ht Hmq. unfold virtio_net_attach.
  set (pairs := if mq then Z.min (if mq then max_vq else 1) total else 1).
  assert (Hp : 1 <= pairs <= total /\ pairs = if mq then Z.min max_vq total else 1).
  { unfold pairs. destruct mq; [specialize (Hmq eq_refl) |]; lia. }
  destruct Hp as [Hp Hpeq].
  assert (Hsmall : pairs < 2 ^ 16).
  { rewrite Hpeq. destruct mq; [specialize (Hmq eq_refl) |]; lia. }
  destruct (Z.eqb_spec pairs 0) as [E | _]; [lia |].
  assert (Hmod : total - total / pairs * pairs = total mod pairs).
  { pose proof (Z.div_mod total pairs ltac:(lia)). lia. }
  rewrite Hmod.
  eexists _, _. split; [reflexivity |]. cbn [vq_pairs queues txq_map ctl].
  assert (Hc : 0 <= total / pairs) by (apply Z.div_pos; lia).
  pose proof (Z.mod_pos_bound total pairs ltac:(lia)) as He.
  assert (Hend : range_start (total / pairs) (total mod pairs) pairs = total).
  { unfold range_start. pose proof (Z.div_mod total pairs ltac:(lia)). lia. }
  split; [exact Hp |]. split; [exact Hpeq |].
  split; [reflexivity |]. split; [reflexivity |]. split; [reflexivity |].
  split; [exact Hend |].
  pose proof (pair_loop_done (total / pairs) (total mod pairs)
                (Z.to_nat pairs) 0 (mk_pair_vars 0 0 ∅ ∅)) as Hloop.
  rewrite Z2Nat.id in Hloop by lia. rewrite !Z.add_0_l in Hloop.
  apply Hloop; try lia.
  unfold pairs_done, range_start. cbn [first_cpu num_cpus pv_txq_map pv_queues].
  split; [lia |]. split; [lia |]. split; [lia |]. split.
  - intros cpu q. rewrite lookup_empty. split; [discriminate |].
    intros (k & Hk & _). lia.
  - intros k. rewrite lookup_empty.
    destruct (Z.leb_spec 0 k); destruct (Z.ltb_spec k (2 * 0)); cbn [andb];
      try reflexivity. lia.
Qed.

(** After [virtio_net_attach] every processor has a transmit queue, so
    that [low_level_output] never reads an entry of [txq_map] that was
    not written, and nothing is written past the array. The processors
    are dealt out in consecutive ranges, one per queue pair: with
    [c = total / pairs] and [e = total mod pairs], pair [k] serves the
    processors from [k * c + min k e] up to the start of pair [k + 1],
    which are [c + 1] processors for the first [e] pairs and [c] for the
    others, and sends them to queue [2 * k + 1]. *)
Theorem attach_tx_queue_of_every_cpu version_1 mrg_rxbuf mq max_vq total :
  0 < total < 2 ^ 31 -> (mq = true -> 0 < max_vq < 2 ^ 16) ->
  exists vn,
    virtio_net_attach version_1 mrg_rxbuf mq max_vq total = Some vn /\
    1 <= vq_pairs vn <= total /\
    (let c := total / vq_pairs vn in
     let e := total mod vq_pairs vn in
     (forall cpu, 0 <= cpu < total ->
        exists k, 0 <= k < vq_pairs vn /\
                  tx_queue_of vn cpu = Some (2 * k + 1) /\
                  range_start c e k <= cpu < range_start c e (k + 1)) /\
     (forall k, 0 <= k < vq_pairs vn ->
        range_start c e (k + 1) - range_start c e k
          = if k <? e then c + 1 else c) /\
     (forall cpu, ~ 0 <= cpu < total -> tx_queue_of vn cpu = None)).
Proof.
  intros Ht Hmq.
  destruct (virtio_net_attach_done version_1 mrg_rxbuf mq max_vq total Ht Hmq)
    as (vn & s & Hrun & Hp & _ & _ & Htxeq & _ & Hend & Hdone).
  exists vn. split; [exact Hrun |]. split; [exact Hp |]. cbv zeta.
  destruct Hdone as (_ & _ & _ & Htx & _).
  assert (Hc : 0 <= total / vq_pairs vn) by (apply Z.div_pos; lia).
  unfold tx_queue_of. rewrite Htxeq. split; [| split].
  - intros cpu Hcpu.
    destruct (range_start_owner (total / vq_pairs vn) (total mod vq_pairs vn)
                (vq_pairs vn) Hc ltac:(lia) cpu ltac:(lia)) as (k & Hk & Hr).
    exists k. split; [exact Hk |]. split; [| exact Hr].
    apply Htx. exists k. auto.
  - intros k Hk. rewrite range_start_step. lia.
  - intros cpu Hout.
    destruct (pv_txq_map s !! cpu) as [q |] eqn:E; [| reflexivity].
    exfalso. apply Htx in E. destruct E as (k & Hk & _ & Hr).
    pose proof (range_start_mono (total / vq_pairs vn) (total mod vq_pairs vn)
                  (k + 1) (vq_pairs vn) Hc ltac:(lia)).
    pose proof (range_start_mono (total / vq_pairs vn) (total mod vq_pairs vn)
                  0 k Hc ltac:(lia)) as H0.
    pose proof (Z.mod_pos_bound total (vq_pairs vn) ltac:(lia)).
    unfold range_start at 1 in H0. lia.
Qed.

Lemma attach_tx_queue_of_every_cpu_witness :
  exists vn,
    virtio_net_attach true false true 3 8 = Some vn /\
    1 <= vq_pairs vn <= 8 /\
    (let c := 8 / vq_pairs vn in
     let e := 8 mod vq_pairs vn in
     (forall cpu, 0 <= cpu < 8 ->
        exists k, 0 <= k < vq_pairs vn /\
                  tx_queue_of vn cpu = Some (2 * k + 1) /\
                  range_start c e k <= cpu < range_start c e (k + 1)) /\
     (forall k, 0 <= k < vq_pairs vn ->
        range_start c e (k + 1) - range_start c e k
          = if k <? e then c + 1 else c) /\
     (forall cpu, ~ 0 <= cpu < 8 -> tx_queue_of vn cpu = None)).
Proof.
  apply (attach_tx_queue_of_every_cpu true false true 3 8); intros; lia.
Defined.

(** The queue array after [virtio_net_attach] holds the receive and
    transmit queues of the pairs at the indexes [0 .. 2 * pairs - 1] and
    nothing else; the queue a processor transmits on is one of them, at
    an odd index; and the control queue is allocated exactly when there
    is more than one pair, which needs multiqueue, at index
    [2 * max_vq_pairs], twice the maximum the device gave and not twice
    the number of pairs in use, an index past all the queues of the
    pairs. The receive buffer length is a multiple of 8 that leaves room
    for a full frame after the header. *)
Theorem attach_queue_indexes version_1 mrg_rxbuf mq max_vq total :
  0 < total < 2 ^ 31 -> (mq = true -> 0 < max_vq < 2 ^ 16) ->
  exists vn,
    virtio_net_attach version_1 mrg_rxbuf mq max_vq total = Some vn /\
    (forall k, queues vn !! k
               = if (0 <=? k) && (k <? 2 * vq_pairs vn) then Some k else None) /\
    (forall cpu q, tx_queue_of vn cpu = Some q ->
                   queues vn !! q = Some q /\ Z.odd q = true) /\
    ctl vn = (if 1 <? vq_pairs vn then Some (2 * max_vq) else None) /\
    (forall k, ctl vn = Some k ->
               mq = true /\ k = 2 * max_vq /\
               1 < vq_pairs vn /\ 2 * vq_pairs vn <= k /\ queues vn !! k = None) /\
    (ctl vn = None <-> vq_pairs vn = 1) /\
    rxbuflen vn mod 8 = 0 /\
    net_header_len vn + 1518 <= rxbuflen vn < net_header_len vn + 1518 + 8.
Proof.
  intros Ht Hmq.
  destruct (virtio_net_attach_done version_1 mrg_rxbuf mq max_vq total Ht Hmq)
    as (vn & s & Hrun & Hp & Hpeq & Hqeq & Htxeq & Hctl & Hend & Hdone).
  exists vn. split; [exact Hrun |].
  destruct Hdone as (_ & _ & _ & Htx & Hq).
  rewrite Hqeq. unfold tx_queue_of. rewrite Htxeq.
  assert (Hmqp : 1 < vq_pairs vn -> mq = true).
  { rewrite Hpeq. destruct mq; [reflexivity | lia]. }
  split; [exact Hq |]. split; [| split; [| split; [| split]]].
  - intros cpu q E. apply Htx in E. destruct E as (k & Hk & -> & _).
    split.
    + rewrite Hq.
      destruct (Z.leb_spec 0 (2 * k + 1)); [| lia].
      destruct (Z.ltb_spec (2 * k + 1) (2 * vq_pairs vn)); [| lia].
      reflexivity.
    + rewrite Z.add_comm, Z.odd_add_mul_2. reflexivity.
  - rewrite Hctl. destruct (Z.ltb_spec 1 (vq_pairs vn)) as [H1 | H1];
      [| reflexivity].
    rewrite (Hmqp H1). reflexivity.
  - intros k E. rewrite Hctl in E.
    destruct (Z.ltb_spec 1 (vq_pairs vn)) as [H1 | H1]; [| discriminate E].
    injection E as <-. pose proof (Hmqp H1) as Hmq1. subst mq.
    assert (Hle : vq_pairs vn <= max_vq) by (rewrite Hpeq; lia).
    split; [reflexivity |]. split; [reflexivity |].
    split; [exact H1 |]. split; [lia |]. rewrite Hq.
    destruct (Z.ltb_spec (2 * max_vq) (2 * vq_pairs vn)); [lia |].
    rewrite andb_false_r. reflexivity.
  - rewrite Hctl. destruct (Z.ltb_spec 1 (vq_pairs vn)) as [H1 | H1];
      split; intros E; try discriminate E; try reflexivity; lia.
  - unfold virtio_net_attach in Hrun.
    destruct (_ =? 0) in Hrun; [discriminate Hrun |].
    injection Hrun as <-. cbn [rxbuflen net_header_len].
    destruct (version_1 || mrg_rxbuf); vm_compute; repeat split; discriminate.
Qed.

Lemma attach_queue_indexes_witness :
  exists vn,
    virtio_net_attach false false true 4 2 = Some vn /\
    (forall k, queues vn !! k
               = if (0 <=? k) && (k <? 2 * vq_pairs vn) then Some k else None) /\
    (forall cpu q, tx_queue_of vn cpu = Some q ->
                   queues vn !! q = Some q /\ Z.odd q = true) /\
    ctl vn = (if 1 <? vq_pairs vn then Some (2 * 4) else None) /\
    (forall k, ctl vn = Some k ->
               true = true /\ k = 2 * 4 /\
               1 < vq_pairs vn /\ 2 * vq_pairs vn <= k /\ queues vn !! k = None) /\
    (ctl vn = None <-> vq_pairs vn = 1) /\
    rxbuflen vn mod 8 = 0 /\
    net_header_len vn + 1518 <= rxbuflen vn < net_header_len vn + 1518 + 8.
Proof.
  apply (attach_queue_indexes false false true 4 2); intros; lia.
Defined.

End AttachFacts.

(** ** Events come out in the order the requests completed *)

Section OrderFacts.

Import Aio Inv Batch.
Import Ref.

Lemma tail_slot a :
  ring_in_range a -> Z.to_nat (ring_tail (ring a)) = slot_after a (queued a).
Proof.
  intros (Hh & Ht & Hn & _). unfold slot_after, queued, pending. f_equal.
  destruct (Z.leb_spec (ring_head (ring a)) (ring_tail (ring a))).
  - rewrite Z.mod_small by lia. lia.
  - rewrite mod_once by lia. lia.
Qed.

(** A run of completions on a ring that satisfies the invariant: the
    events that waited stay where they are and the new ones follow them
    in ring order. *)
Lemma complete_all_ring cs :
  forall a,
    ring_inv a -> ring_mapped a -> Z.of_nat (length cs) <= ongoing_ops a ->
    let a' := complete_all cs a in
    ring_inv a' /\ ring_mapped a' /\
    aio_nr a' = aio_nr a /\ ring_head (ring a') = ring_head (ring a) /\
    ongoing_ops a' = ongoing_ops a - Z.of_nat (length cs) /\
    queued a' = queued a + Z.of_nat (length cs) /\
    refcount a' = refcount a - Z.of_nat (length cs) /\
    (forall i, 0 <= i < queued a ->
       ring_events (ring a') !! slot_after a i
         = ring_events (ring a) !! slot_after a i) /\
    (forall i d o rv, cs !! i = Some (d, o, rv) ->
       exists e, ring_events (ring a') !! slot_after a (queued a + Z.of_nat i)
                 = Some (mk_io_event d o rv (res2 e))).
Proof.
  induction cs as [| [[d o] rv] cs IH]; intros a Hinv Hmap Hlen a'.
  - unfold a'. cbn [complete_all fold_left length]. rewrite !Z.sub_0_r, !Z.add_0_r.
    split; [exact Hinv |]. split; [exact Hmap |].
    repeat (split; [reflexivity |]).
    intros i d o rv E. discriminate E.
  - cbn [length] in Hlen. rewrite Nat2Z.inj_succ in Hlen.
    pose proof Hinv as [Hr Hfree]. pose proof Hr as (Hh & Ht & Hn & Ho).
    destruct (aio_complete_inv a d o rv Hinv ltac:(lia))
      as (Hinv1 & Hops1 & Hq1 & Hevs1 & Hkeep1).
    destruct (aio_complete_fields a d o rv) as (_ & Hnr1 & Href1 & Hhead1 & _).
    cbv zeta in Hnr1, Hhead1, Href1.
    set (a1 := aio_complete a d o rv) in *.
    assert (Hq0 : 0 <= queued a).
    { apply (pending_range (aio_nr a) (ring_tail (ring a)) (ring_head (ring a)));
        lia. }
    assert (Hmap1 : ring_mapped a1).
    { unfold ring_mapped in *. rewrite Hnr1, Hevs1, length_alter. exact Hmap. }
    assert (Hslot : forall i, slot_after a1 i = slot_after a i).
    { intros i. unfold slot_after. rewrite Hnr1, Hhead1. reflexivity. }
    destruct (IH a1 Hinv1 Hmap1 ltac:(lia))
      as (Hinv' & Hmap' & Hnr' & Hhead' & Hops' & Hq' & Href' & Hkeep' & Hnew').
    change (complete_all cs a1) with a' in *.
    cbn [length]. rewrite Nat2Z.inj_succ.
    split; [exact Hinv' |]. split; [exact Hmap' |].
    split; [lia |]. split; [congruence |]. split; [lia |]. split; [lia |].
    split; [lia |].
    split.
    + intros i Hi. rewrite <- Hslot. rewrite Hkeep' by lia.
      rewrite Hslot. apply Hkeep1. exact Hi.
    + intros [| i] d' o' rv' E.
      * injection E as <- <- <-. rewrite Z.add_0_r.
        rewrite <- Hslot, Hkeep' by lia. rewrite Hslot.
        rewrite <- (tail_slot a Hr), Hevs1.
        destruct (lookup_lt_is_Some_2 (ring_events (ring a))
                    (Z.to_nat (ring_tail (ring a)))
                    ltac:(unfold ring_mapped in Hmap; lia)) as [e He].
        exists e. rewrite list_lookup_alter_eq, He. reflexivity.
      * change ((d, o, rv) :: cs) with ([(d, o, rv)] ++ cs) in E.
        change (([(d, o, rv)] ++ cs) !! S i) with (cs !! i) in E.
        destruct (Hnew' i d' o' rv' E) as [e He]. exists e.
        rewrite <- He, Hslot. f_equal. f_equal. lia.
Qed.

(** The ring is first in, first out for a caller whose array lies apart
    from the ring. On a ring that satisfies the invariant and holds no
    waiting event, after the requests in flight have completed in some
    order, one run of [io_getevents_bh] asking for that many events
    returns at once with that count and hands the caller the events in
    the order of the completions, each with the [data], [obj] and [res]
    of its completion, leaving the rest of the array as it was; the ring
    is empty again, no thread waits on the context, and every completion
    and the harvest have each dropped one reference. *)
Theorem completions_harvested_in_order a cs nr out timeout flags :
  ring_inv a -> ring_mapped a -> queued a = 0 ->
  Z.of_nat (length cs) <= ongoing_ops a ->
  1 <= nr < 2 ^ 32 -> Z.of_nat (length cs) <= nr ->
  nr <= Z.of_nat (length out) ->
  BLOCKQ_ACTION_NULLIFY flags = false ->
  let n := Z.of_nat (length cs) in
  exists a1 out',
    io_getevents_bh (set_copied_evts 0 (complete_all cs a)) n nr (Apart out)
      (fun _ => false) timeout flags
      = BhDone n a1 (Apart out') /\
    (forall i d o rv, cs !! i = Some (d, o, rv) ->
       exists e, out' !! i = Some (mk_io_event d o rv (res2 e))) /\
    (forall j, (length cs <= j)%nat -> out' !! j = out !! j) /\
    length out' = length out /\
    queued a1 = 0 /\ ongoing_ops a1 = ongoing_ops a - n /\
    aio_nr a1 = aio_nr a /\ bq a1 = None /\ copied_evts a1 = n /\
    refcount a1 = refcount a - n - 1.
Proof.
  intros Hinv Hmap Hq0 Hlen Hnr Hn Hout Hnull n.
  destruct (complete_all_ring cs a Hinv Hmap Hlen)
    as (Hinv' & Hmap' & Hnr' & Hhead' & Hops' & Hq' & Href' & _ & Hnew').
  fold n in Hops', Hq', Href'. rewrite Hq0 in Hq', Hnew'.
  set (a' := set_copied_evts 0 (complete_all cs a)).
  assert (Hinv'' : ring_inv a') by (apply (ring_inv_ext (complete_all cs a)); auto).
  assert (Hmap'' : ring_mapped a') by exact Hmap'.
  assert (Hqa' : queued a' = n)
    by (change (queued a') with (queued (complete_all cs a)); lia).
  assert (Hkeq : Z.min (queued a') (nr - copied_evts a') = n)
    by (rewrite Hqa'; change (copied_evts a') with 0; lia).
  pose proof (io_getevents_bh_run a' n nr out timeout flags Hinv'' Hmap''
                ltac:(cbn; lia) ltac:(lia) Hout Hnull) as H.
  cbv zeta in H. rewrite Hkeq in H.
  change (copied_evts a') with 0 in H. rewrite Z.add_0_l in H.
  destruct H as (out' & Hrun & Hq1 & _ & Hlen' & Hin & Hrest).
  rewrite Z.ltb_irrefl in Hrun. cbn [andb] in Hrun.
  eexists _, out'. split; [exact Hrun |].
  split; [| split; [| split; [exact Hlen' |]]].
  - intros i d o rv E.
    pose proof (lookup_lt_Some _ _ _ E) as Hi.
    destruct (Hnew' i d o rv E) as [e He]. exists e.
    specialize (Hin (Z.of_nat i) ltac:(unfold n; lia)).
    rewrite Z.add_0_l, Nat2Z.id in Hin. rewrite Hin.
    rewrite <- He. unfold slot_after.
    change (ring_events (ring a')) with (ring_events (ring (complete_all cs a))).
    change (ring_head (ring a')) with (ring_head (ring (complete_all cs a))).
    change (aio_nr a') with (aio_nr (complete_all cs a)).
    rewrite Hnr', Hhead', Z.add_0_l. reflexivity.
  - intros j Hj. apply Hrest. right. unfold n. lia.
  - split; [rewrite Hqa' in Hq1; exact (eq_trans Hq1 (Z.sub_diag n)) |].
    cbn [ongoing_ops aio_nr bq copied_evts refcount refcount_release set_refcount
           set_bq set_copied_evts set_ring a'].
    repeat split; lia.
Qed.

Lemma completions_harvested_in_order_witness :
  let ev := mk_io_event 0 0 0 5 in
  let r := mk_aio_ring 0 4 1 1 AIO_RING_MAGIC 1 0 32 (replicate 4 ev) in
  let a := mk_aio r None 4 3 0 4 in
  let cs := [(11, 12, 13); (21, 22, -5); (31, 32, 0)] in
  exists a1 out',
    io_getevents_bh (set_copied_evts 0 (complete_all cs a)) 3 8
      (Apart (replicate 8 ev)) (fun _ => false) None (mk_bh_flags false false false)
      = BhDone 3 a1 (Apart out') /\
    out' !! 0%nat = Some (mk_io_event 11 12 13 5) /\
    out' !! 1%nat = Some (mk_io_event 21 22 (-5) 5) /\
    out' !! 2%nat = Some (mk_io_event 31 32 0 5) /\
    queued a1 = 0 /\ refcount a1 = 0.
Proof.
  intros ev r a cs.
  destruct (completions_harvested_in_order a cs 8 (replicate 8 ev) None
              (mk_bh_flags false false false))
    as (a1 & out' & Hrun & _ & _ & _ & Hq & _ & _ & _ & _ & Href);
    try reflexivity; try (vm_compute; intuition discriminate); try (cbn; lia).
  exists a1, out'. split; [exact Hrun |].
  vm_compute in Hrun. injection Hrun as <- <-.
  repeat split; reflexivity.
Defined.

End OrderFacts.
